(** * petroflow: wells as trees of segments, and batches of wells

    A shallow embedding of [well_logs/core/well.py] (class [Well] and its
    metaclass [SegmentDelegatingMeta]) and of [petroflow/src/well_batch.py]
    (class [WellBatch], method [_filter_assemble]).

    Conventions.
    - Python integers are [Z].  Depths are floats in the source; they are
      modelled as exact numbers ([Z], a fixed unit), so [min], [max] and the
      subtraction in [length] are exact.
    - A Python call either returns or raises: [res A].
    - A [Well] object is the value of its [segments] attribute; a method that
      assigns [self.segments] and returns [self] is a function to the new
      value of the receiver.  Every object occurs once in a tree (no branch is
      shared between two parents), so assignments to the wells returned by
      [iter_level] are a rewrite of the tree at that level.  What a call
      that raises in the middle of its assignments leaves behind is modelled
      in [Module InPlace], and the dispatch of a batch acts on the wells as
      those calls leave them.  Where a claim depends on object identity (the
      delegator's copy), a store of objects is modelled in
      [Module Dispatcher]. *)

From Stdlib Require Import ZArith List Bool Lia String.
From stdpp Require Import base gmap strings.
Import ListNotations.
Local Open Scope Z_scope.
Set Warnings "-register-all".

(** ** Exceptions and results *)

Inductive exn : Type :=
| InvalidLevel (level tree_depth : Z)  (* ValueError raised by iter_level *)
| EmptySequence                        (* ValueError of min([]) / max([]) *)
| ChoiceError                          (* ValueError of np.random.choice *)
| IndexError
| AttributeError
| TypeError
| RuntimeError (msg : string)
| SkipWellException (msg : string)
| SkipBatchException (msg : string)
| OtherException (msg : string)
| Unmodelled.  (* the run depends on code of WellSegment outside this model *)

Inductive res (A : Type) : Type :=
| Ok (a : A)
| Raise (e : exn).
Arguments Ok {A} a.
Arguments Raise {A} e.

Definition bind {A B} (m : res A) (k : A -> res B) : res B :=
  match m with
  | Ok a => k a
  | Raise e => Raise e
  end.

Notation "x <- m ;; k" := (bind m (fun x => k))
  (at level 100, m at next level, right associativity).

Definition fmap_res {A B} (f : A -> B) (m : res A) : res B :=
  x <- m ;; Ok (f x).

(** [[f(x) for x in l]] with [f] possibly raising: left to right, the first
    exception wins. *)
Definition mapM {A B} (f : A -> res B) : list A -> res (list B) :=
  fix go l :=
    match l with
    | [] => Ok []
    | x :: l' => y <- f x ;; ys <- go l' ;; Ok (y :: ys)
    end.

(** [[x for x in l if p(x)]] with [p] possibly raising. *)
Definition filterM {A} (p : A -> res bool) : list A -> res (list A) :=
  fix go l :=
    match l with
    | [] => Ok []
    | x :: l' => b <- p x ;; ys <- go l' ;; Ok (if b then x :: ys else ys)
    end.

(** ** Data model *)

(** A leaf record ([WellSegment]); only the attributes the tree code reads. *)
Record WellSegment : Type := mkSegment {
  seg_name : string;
  seg_depth_from : Z;
  seg_depth_to : Z
}.

Definition seg_length (s : WellSegment) : Z :=
  seg_depth_to s - seg_depth_from s.

(** An element of a [segments] list: a [WellSegment] or a [Well]. *)
Inductive item : Type :=
| Seg (s : WellSegment)
| W (segments : list item).

Definition is_segment (t : item) : bool :=
  match t with Seg _ => true | W _ => false end.

Definition is_well (t : item) : bool :=
  match t with Seg _ => false | W _ => true end.

Section item_induction.
Variable P : item -> Prop.
Hypothesis P_seg : forall s, P (Seg s).
Hypothesis P_well : forall cs, Forall P cs -> P (W cs).

Fixpoint item_ind' (t : item) : P t :=
  match t with
  | Seg s => P_seg s
  | W cs =>
      P_well cs
        ((fix go (l : list item) : Forall P l :=
            match l with
            | [] => @List.Forall_nil item P
            | c :: l' => @List.Forall_cons item P c l' (item_ind' c) (go l')
            end) cs)
  end.
End item_induction.

(** The members of [WellSegment] that the code of [Well] reaches on a leaf
    but that are defined in [well_segment.py]: [tree_depth] and [iter_level]
    (reached on a node that mixes leaves and wells, or when the requested
    level equals the tree depth), and the leaf transforms. *)
Class SegmentOps : Type := {
  segment_tree_depth : WellSegment -> res Z;
  segment_iter_level : WellSegment -> Z -> res (list item);
  segment_create_segments : WellSegment -> string -> bool -> res (list WellSegment);
  segment_crop : WellSegment -> Z -> Z -> bool -> res (list WellSegment);
  segment_random_crop : WellSegment -> Z -> Z -> res (list WellSegment);
  segment_drop_nans : WellSegment -> string -> res (list WellSegment)
}.

Module Well.
Section with_segment_ops.
Context `{SegmentOps}.

(** [_has_segments]: [all(isinstance(item, WellSegment) for item in self)]. *)
Definition _has_segments (segments : list item) : bool :=
  forallb is_segment segments.

(** [tree_depth] *)
Fixpoint tree_depth (t : item) : res Z :=
  match t with
  | Seg s => segment_tree_depth s
  | W segments =>
      if _has_segments segments then Ok 2
      else match segments with
           | [] => Raise IndexError
           | first :: _ => d <- tree_depth first ;; Ok (d + 1)
           end
  end.

(** [min([...])], [max([...])] *)
Definition py_min (l : list Z) : res Z :=
  match l with
  | [] => Raise EmptySequence
  | x :: l' => Ok (fold_left Z.min l' x)
  end.

Definition py_max (l : list Z) : res Z :=
  match l with
  | [] => Raise EmptySequence
  | x :: l' => Ok (fold_left Z.max l' x)
  end.

(** [depth_from], [depth_to], [length] *)
Fixpoint depth_from (t : item) : res Z :=
  match t with
  | Seg s => Ok (seg_depth_from s)
  | W segments => ds <- mapM depth_from segments ;; py_min ds
  end.

Fixpoint depth_to (t : item) : res Z :=
  match t with
  | Seg s => Ok (seg_depth_to s)
  | W segments => ds <- mapM depth_to segments ;; py_max ds
  end.

Definition length (t : item) : res Z :=
  match t with
  | Seg s => Ok (seg_length s)
  | W _ => hi <- depth_to t ;; lo <- depth_from t ;; Ok (hi - lo)
  end.

(** [iter_level] *)
Fixpoint iter_level (t : item) (level : Z) : res (list item) :=
  match t with
  | Seg s => segment_iter_level s level
  | W segments =>
      level <- (if 0 <=? level then Ok level
                else d <- tree_depth t ;; Ok (d + level)) ;;
      d <- tree_depth t ;;
      if (level <? 0) || (d <? level) then Raise (InvalidLevel level d)
      else if level =? 0 then Ok [t]
      else if level =? 1 then Ok segments
      else fmap_res (@concat item)
             (mapM (fun well => iter_level well (level - 1)) segments)
  end.

(** [n_segments]: [len(self.iter_level())], the default level being -1. *)
Definition n_segments (t : item) : res Z :=
  l <- iter_level t (-1) ;; Ok (Z.of_nat (List.length l)).

(** [prune].  The comprehension keeps a child when it is a leaf or has
  [n_segments > 0]; the loop then prunes the kept wells and skips the
  leaves ([prune] of a leaf is that skip).  The loop runs over the
  children together with the flags of the comprehension, so that the
  recursion is on the children themselves; [prune_unfold] below gives the
  filter-then-loop form of the source. *)
Definition keeps (well : item) : res bool :=
  match well with
  | Seg _ => Ok true
  | W _ => n <- n_segments well ;; Ok (0 <? n)
  end.

(** [for well in self: if isinstance(well, Well): well.prune()] over the
  children kept by the comprehension ([flags] says which are kept). *)
Definition prune_kept (prune : item -> res item)
    : list item -> list bool -> res (list item) :=
  fix loop l flags :=
    match l, flags with
    | well :: l', true :: flags' =>
        well' <- prune well ;;
        rest <- loop l' flags' ;;
        Ok (well' :: rest)
    | _ :: l', false :: flags' => loop l' flags'
    | _, _ => Ok []
    end.

Fixpoint prune (t : item) : res item :=
  match t with
  | Seg s => Ok (Seg s)
  | W segments =>
      flags <- mapM keeps segments ;;
      kept <- prune_kept prune segments flags ;;
      Ok (W kept)
  end.

(** The wells that [iter_level] returns are the tree's own objects, so
  the loop [for well in wells: well.segments = ...] rewrites the tree.
  [put_level t level news] is the tree after the wells at depth [level]
  received, in [iter_level] order, the new [segments] lists [news]; it
  also returns the lists that were not used.  Where [iter_level] went
  through a leaf, what it returned is decided by [WellSegment] and the
  run is [Unmodelled]. *)
Definition put_children
    (put : item -> list (list item) -> res (item * list (list item)))
    : list item -> list (list item) -> res (list item * list (list item)) :=
  fix go l news :=
    match l with
    | [] => Ok ([], news)
    | well :: l' =>
        r1 <- put well news ;;
        r2 <- go l' (snd r1) ;;
        Ok (fst r1 :: fst r2, snd r2)
    end.

Fixpoint put_level (t : item) (level : nat) (news : list (list item))
    {struct t} : res (item * list (list item)) :=
  match t with
  | Seg _ => Raise Unmodelled
  | W segments =>
      match level with
      | O =>
          match news with
          | new :: rest => Ok (W new, rest)
          | [] => Raise Unmodelled
          end
      | S level' =>
          r <- put_children (fun well news => put_level well level' news)
                 segments news ;;
          Ok (W (fst r), snd r)
      end
  end.

(** [for segment in well]; iterating over a leaf is not modelled. *)
Definition segments_of (well : item) : res (list item) :=
  match well with
  | W segments => Ok segments
  | Seg _ => Raise Unmodelled
  end.

(** The common shape of the transforms:
  [for well in wells: well.segments = F(i, well)], [i] being the position
  of [well] in [wells = self.iter_level(-2)]. *)
Definition assign_segments (F : nat -> item -> res (list item))
    (t : item) (wells : list item) : res item :=
  news <- mapM (fun iw => F (fst iw) (snd iw))
            (combine (seq 0 (List.length wells)) wells) ;;
  d <- tree_depth t ;;
  r <- put_level t (Z.to_nat (d - 2)) news ;;
  Ok (fst r).

Definition on_parents_of_leaves (F : nat -> item -> res (list item))
    (t : item) : res item :=
  wells <- iter_level t (-2) ;;
  assign_segments F t wells.

(** [Well(segments=segment.op(...))] for a leaf [segment].  On a child
  that is a well the call is the well's own transform, which returns a
  well and not a list; that run is not modelled. *)
Definition wrap (op : WellSegment -> res (list WellSegment))
    (segment : item) : res item :=
  match segment with
  | Seg s => l <- op s ;; Ok (W (map Seg l))
  | W _ => Raise Unmodelled
  end.

(** [create_segments], [crop], [drop_nans], [drop_short_segments] *)
Definition create_segments (t : item) (src : string) (connected : bool)
    : res item :=
  on_parents_of_leaves
    (fun _ well =>
       segments <- segments_of well ;;
       mapM (wrap (fun s => segment_create_segments s src connected)) segments)
    t.

Definition crop (t : item) (length step : Z) (drop_last : bool) : res item :=
  on_parents_of_leaves
    (fun _ well =>
       segments <- segments_of well ;;
       mapM (wrap (fun s => segment_crop s length step drop_last)) segments)
    t.

Definition drop_nans (t : item) (components : string) : res item :=
  t' <- on_parents_of_leaves
          (fun _ well =>
             segments <- segments_of well ;;
             mapM (wrap (fun s => segment_drop_nans s components)) segments)
          t ;;
  prune t'.

Definition drop_short_segments (t : item) (min_length : Z) : res item :=
  t' <- on_parents_of_leaves
          (fun _ well =>
             segments <- segments_of well ;;
             filterM (fun segment => l <- length segment ;; Ok (min_length <? l))
               segments)
          t ;;
  prune t'.

(** [np.random.choice(a, size, p=w/sum(w))].  The call raises when the
  normalised weights are not probabilities (their sum is zero, which
  covers an empty [a], or one of them is negative) or [size] is
  negative.  Otherwise it returns [size] elements of [a]; which ones is
  the sampler's outcome [draws], given as positions in [a], and [drawn]
  says what every outcome satisfies. *)
Definition py_sum (l : list Z) : Z := fold_right Z.add 0 l.

Definition random_choice (w : list Z) (size : Z) (draws : list nat)
    : res (list nat) :=
  if (py_sum w =? 0) || existsb (fun x => x * py_sum w <? 0) w || (size <? 0)
  then Raise ChoiceError
  else Ok draws.

Definition drawn (w : list Z) (size : Z) (draws : list nat) : Prop :=
  List.length draws = Z.to_nat size /\
  Forall (fun i => (i < List.length w)%nat /\ nth i w 0 <> 0) draws.

(** [Counter(draws)]: the keys in order of first occurrence, and the
  count of a key.  The keys are objects; the objects at different
  positions of a [segments] list are different objects, so a key is a
  position. *)
Fixpoint counter_keys (draws : list nat) : list nat :=
  match draws with
  | [] => []
  | i :: l => i :: List.filter (fun j => negb (Nat.eqb j i)) (counter_keys l)
  end.

Definition counter_get (draws : list nat) (i : nat) : Z :=
  Z.of_nat (count_occ Nat.eq_dec draws i).

(** [random_crop]; [draws1] is the outcome of the first sampling and
  [draws2 i] the outcome of the sampling inside the [i]-th well. *)
Definition random_crop (t : item) (length_ n_crops : Z)
    (draws1 : list nat) (draws2 : nat -> list nat) : res item :=
  wells <- iter_level t (-2) ;;
  p <- mapM (fun item =>
               segments <- segments_of item ;;
               ls <- mapM length segments ;;
               Ok (py_sum ls)) wells ;;
  random_wells <- random_choice p n_crops draws1 ;;
  t' <- assign_segments
          (fun i well =>
             if 0 <? counter_get random_wells i then
               let n_well_crops := counter_get random_wells i in
               segments <- segments_of well ;;
               p <- mapM length segments ;;
               random_segments <- random_choice p n_well_crops (draws2 i) ;;
               mapM (fun j =>
                       match nth_error segments j with
                       | Some segment =>
                           wrap (fun s => segment_random_crop s length_
                                            (counter_get random_segments j))
                                segment
                       | None => Raise Unmodelled
                       end)
                    (counter_keys random_segments)
             else Ok [])
          t wells ;;
  prune t'.

End with_segment_ops.
End Well.

(** ** Batches of wells *)

Module WellBatch.

(** What the parallel dispatch collected for one well: the value the
    action returned, or the exception it raised. *)
Inductive result : Type :=
| Returned (well : item)
| Skipped (msg : string)     (* an instance of SkipWellException *)
| Failed (msg : string).     (* an instance of any other exception *)

Definition is_skip (r : result) : bool :=
  match r with Skipped _ => true | _ => false end.

Definition is_exception (r : result) : bool :=
  match r with Returned _ => false | _ => true end.

(** The components of a batch: the identifiers of its index and the array
    [wells].  [_filter_assemble] stores the array of results in [wells];
    these are wells when none of them is an exception.  [len(self)] is the
    length of the index. *)
Record WellBatch : Type := mkBatch {
  index : list string;
  wells : list result
}.

Inductive printed : Type :=
| PrintErrors (errors : list result)
| PrintTraceback (error : result).

(** Boolean-mask indexing [a[mask]] of a numpy array. *)
Definition mask_select {A} (a : list A) (mask : list bool) : res (list A) :=
  if Nat.eqb (List.length a) (List.length mask)
  then Ok (map fst (List.filter snd (combine a mask)))
  else Raise IndexError.

(** Modelled from the spec: [any_action_failed] of the batch engine,
    "any remaining result is failure", a failure being a result that is an
    exception. *)
Definition any_action_failed (results : list result) : bool :=
  existsb is_exception results.

(** Modelled from the spec: [get_errors] of the batch engine, the results
    that are exceptions. *)
Definition get_errors (results : list result) : list result :=
  List.filter is_exception results.

(** Modelled from the spec: [create_subset] of the index collaborator,
    the index of the given identifiers, in the order given. *)
Definition create_subset (index identifiers : list string) : list string :=
  identifiers.

Section filter_assemble.
(** [str(well)] for a [Well] object. *)
Variable str_well : item -> string.

Definition str (r : result) : string :=
  match r with
  | Returned well => str_well well
  | Skipped msg => msg
  | Failed msg => msg
  end.

(** [_filter_assemble]: the outcome of the call ([Ok tt] when it returns
    [self]), the batch afterwards and what was printed. *)
Definition _filter_assemble (self : WellBatch) (results : list result)
    : res unit * WellBatch * list printed :=
  let skip_mask := map is_skip results in
  if Nat.eqb (List.length (List.filter id skip_mask)) (List.length (index self))
  then match results with
       | first :: _ => (Raise (SkipBatchException (str first)), self, [])
       | [] => (Raise IndexError, self, [])
       end
  else
    match mask_select results (map negb skip_mask) with
    | Raise e => (Raise e, self, [])
    | Ok results =>
        if any_action_failed results then
          let errors := get_errors results in
          match errors with
          | first :: _ =>
              (Raise (RuntimeError "Could not assemble the batch"), self,
               [PrintErrors errors; PrintTraceback first])
          | [] => (Raise IndexError, self, [PrintErrors errors])
          end
        else
          match mask_select (index self) (map negb skip_mask) with
          | Raise e => (Raise e, self, [])
          | Ok identifiers =>
              (Ok tt,
               {| index := create_subset (index self) identifiers;
                  wells := results |},
               [])
          end
    end.
End filter_assemble.

(** Notions used to state the properties of [_filter_assemble]. *)

Definition survivors (results : list result) : list result :=
  List.filter (fun r => negb (is_skip r)) results.

Definition surviving_pairs (identifiers : list string) (results : list result)
    : list (string * result) :=
  List.filter (fun p => negb (is_skip (snd p))) (combine identifiers results).

Definition n_skipped (results : list result) : nat :=
  List.length (List.filter is_skip results).

Definition is_failure (r : result) : bool :=
  match r with Failed _ => true | _ => false end.

End WellBatch.

(** ** The delegating metaclass, on a store of objects *)

Module Dispatcher.

(** A reference to an element of a [segments] list: a leaf (leaves are
    never mutated by this code, so a leaf is its value) or the address of
    a [Well] object. *)
Inductive ref : Type :=
| RSeg (s : WellSegment)
| RWell (l : positive).

(** What a method of a child returns: a list, or one object. *)
Inductive value : Type :=
| One (r : ref)
| Many (rs : list ref).

(** A [Well] object: its [segments] attribute and the other entries of
    its [__dict__], each bound to a reference. *)
Record obj : Type := mkObj {
  obj_segments : list ref;
  obj_others : gmap string ref
}.

(** The store, [gmap positive obj], maps the address of every [Well]
    object to the object. *)

(** [if not isinstance(res, list): res = [res]] *)
Definition as_list (v : value) : list ref :=
  match v with
  | One r => [r]
  | Many rs => rs
  end.



Section delegator.
(** [getattr(segment, name)(...)]: a call of the method
    [name] on a child, which may allocate and mutate objects. *)
Variable method :
  ref -> gmap positive obj -> res (value * gmap positive obj).

(** [for segment in self: ...; results.extend(res)] *)
Fixpoint loop (segments results : list ref) (h : gmap positive obj)
    : res (list ref * gmap positive obj) :=
  match segments with
  | [] => Ok (results, h)
  | segment :: rest =>
      r <- method segment h ;;
      loop rest (results ++ as_list (fst r)) (snd r)
  end.

(** [copy(self)]: a new object whose [__dict__] has the entries of that
    of [self], bound to the same references (a shallow copy). *)
Definition copy (self : positive) (h : gmap positive obj)
    : res (positive * gmap positive obj) :=
  match h !! self with
  | Some o =>
      let l := fresh (dom h) in Ok (l, <[l := o]> h)
  | None => Raise AttributeError
  end.

(** [well.segments = segments]: the other attributes of the object stay. *)
Definition set_segments (well : positive) (segments : list ref)
    (h : gmap positive obj) : gmap positive obj :=
  match h !! well with
  | Some o => <[well := mkObj segments (obj_others o)]> h
  | None => h
  end.

Definition delegator (self : positive) (h : gmap positive obj)
    : res (positive * gmap positive obj) :=
  match h !! self with
  | None => Raise AttributeError
  | Some o =>
      r <- loop (obj_segments o) [] h ;;
      c <- copy self (snd r) ;;
      let res_well := fst c in
      Ok (res_well, set_segments res_well (fst r) (snd c))
  end.

(** The calls made on the children, in order, each on the store the
    previous one left. *)
Inductive calls : list ref -> gmap positive obj ->
                  list value -> gmap positive obj -> Prop :=
| calls_nil h : calls [] h [] h
| calls_cons segment rest h v h1 vs h2 :
    method segment h = Ok (v, h1) ->
    calls rest h1 vs h2 ->
    calls (segment :: rest) h (v :: vs) h2.
End delegator.

End Dispatcher.

(** ** Structural notions used to state the properties of trees *)

Module Tree.

(** The leaves below a node, left to right. *)
Fixpoint leaves (t : item) : list WellSegment :=
  match t with
  | Seg s => [s]
  | W segments => flat_map leaves segments
  end.

Definition has_leaves (t : item) : bool :=
  match leaves t with [] => false | _ :: _ => true end.

(** The nodes [level] steps below a node, left to right. *)
Fixpoint level_nodes (level : nat) (t : item) {struct level} : list item :=
  match level with
  | O => [t]
  | S level' =>
      match t with
      | Seg _ => []
      | W segments => flat_map (level_nodes level') segments
      end
  end.

(** A node and everything below it. *)
Fixpoint subitems (t : item) : list item :=
  t :: match t with
       | Seg _ => []
       | W segments => flat_map subitems segments
       end.

(** No well of the tree has an empty [segments]. *)
Fixpoint no_empty (t : item) : bool :=
  match t with
  | Seg _ => true
  | W segments =>
      match segments with [] => false | _ :: _ => true end
      && forallb no_empty segments
  end.

(** [regular n t]: [t] is a well with [n] levels of wells below it and
    leaves below those; every leaf is [n + 1] steps below [t], the wells
    [n] steps below [t] are the parents of leaves, and only a parent of
    leaves may have an empty [segments]. *)
Fixpoint regular (n : nat) (t : item) {struct n} : bool :=
  match t with
  | Seg _ => false
  | W segments =>
      match n with
      | O => forallb is_segment segments
      | S n' =>
          match segments with [] => false | _ :: _ => true end
          && forallb (regular n') segments
      end
  end.

(** [layered B n t]: [n] levels of non-empty wells, and below them
    nodes that satisfy [B]. *)
Fixpoint layered (B : item -> bool) (n : nat) (t : item) {struct n} : bool :=
  match n with
  | O => B t
  | S n' =>
      match t with
      | Seg _ => false
      | W segments =>
          match segments with [] => false | _ :: _ => true end
          && forallb (layered B n') segments
      end
  end.

(** A well all of whose children are leaves. *)
Definition is_parent (t : item) : bool :=
  match t with
  | Seg _ => false
  | W segments => forallb is_segment segments
  end.

(** What [random_crop] leaves in the place of a parent of leaves: a well
    whose children are parents of leaves with at least one leaf each (no
    child at all when the parent received no crop). *)
Definition is_cropped (t : item) : bool :=
  match t with
  | Seg _ => false
  | W segments => forallb (fun well => is_parent well && has_leaves well) segments
  end.

(** Every well of the tree has a leaf below it. *)
Fixpoint no_bare_well (t : item) : bool :=
  match t with
  | Seg _ => true
  | W segments => has_leaves t && forallb no_bare_well segments
  end.


(** The weight of a parent of leaves in the first sampling. *)
Definition leaf_length_total (well : item) : Z :=
  Well.py_sum (map seg_length (leaves well)).


(** The first parent of leaves of a regular tree has a leaf. *)
Fixpoint first_parent_has_leaf (t : item) : bool :=
  match t with
  | Seg _ => false
  | W [] => false
  | W (Seg _ :: _) => true
  | W ((W _ as first) :: _) => first_parent_has_leaf first
  end.

(** Pruning in the words of the specification: at every level, the
    children that are wells without a leaf below them are removed. *)
Fixpoint prune_spec (t : item) : item :=
  match t with
  | Seg s => Seg s
  | W segments =>
      W (flat_map (fun well =>
                     if is_segment well || has_leaves well
                     then [prune_spec well] else [])
                  segments)
  end.

(** The level that [iter_level] works with, after the translation of a
    negative index on a node of tree depth [d]. *)
Definition normalized (d level : Z) : Z :=
  if 0 <=? level then level else d + level.

Definition is_min (m : Z) (l : list Z) : Prop :=
  In m l /\ Forall (fun x => m <= x) l.

Definition is_max (m : Z) (l : list Z) : Prop :=
  In m l /\ Forall (fun x => x <= m) l.

End Tree.

(** ** Concrete data on which the model is run *)

Module Samples.

(** A leaf collaborator: [crop] returns the first [length] units of a
    leaf that is long enough and nothing otherwise, [random_crop] returns
    [n] such pieces, [create_segments] and [drop_nans] return the leaf;
    a leaf has neither [tree_depth] nor [iter_level]. *)
Definition piece (s : WellSegment) (length : Z) : WellSegment :=
  mkSegment (seg_name s) (seg_depth_from s) (seg_depth_from s + length).

Definition sample_ops : SegmentOps := {|
  segment_tree_depth := fun _ => Raise AttributeError;
  segment_iter_level := fun _ _ => Raise AttributeError;
  segment_create_segments := fun s _ _ => Ok [s];
  segment_crop := fun s length _ _ =>
    if seg_length s <? length then Ok [] else Ok [piece s length];
  segment_random_crop := fun s length n =>
    Ok (repeat (piece s length) (Z.to_nat n));
  segment_drop_nans := fun s _ => Ok [s]
|}.

Definition seg_a : WellSegment := mkSegment "a" 0 1.
Definition seg_b : WellSegment := mkSegment "b" 1 11.
Definition seg_c : WellSegment := mkSegment "c" 20 50.

(** A well with two leaves under one parent, and a well with two
    parents of leaves. *)
Definition well_ab : item := W [W [Seg seg_a; Seg seg_b]].
Definition well_abc : item := W [W [Seg seg_a; Seg seg_b]; W [Seg seg_c]].

(** A tree without leaves whose childless wells are at two depths. *)
Definition well_uneven : item := W [W [W []; W [W []]]].

(** An outcome of the samplings of [random_crop] on [well_abc] for three
    crops: the second parent twice and the first once; inside the first
    parent the leaf [seg_b], inside the second the leaf [seg_c] twice. *)
Definition sample_draws1 : list nat := [1; 0; 1]%nat.

Definition sample_draws2 (i : nat) : list nat :=
  match i with
  | O => [1]%nat
  | S _ => [0; 0]%nat
  end.

Definition str_well (well : item) : string := "Well"%string.

Definition batch_1 : WellBatch.WellBatch :=
  WellBatch.mkBatch ["well_1"%string] [WellBatch.Returned well_ab].

Definition batch_3 : WellBatch.WellBatch :=
  WellBatch.mkBatch ["well_1"; "well_2"; "well_3"]%string
    [WellBatch.Returned well_ab; WellBatch.Returned well_abc;
     WellBatch.Returned well_ab].

(** A method of the children for the delegator: a leaf returns a list
    of two leaves, a well returns one object, itself. *)
Definition sample_method (r : Dispatcher.ref)
    (h : gmap positive Dispatcher.obj)
    : res (Dispatcher.value * gmap positive Dispatcher.obj) :=
  match r with
  | Dispatcher.RSeg s =>
      Ok (Dispatcher.Many [Dispatcher.RSeg s; Dispatcher.RSeg s], h)
  | Dispatcher.RWell l => Ok (Dispatcher.One (Dispatcher.RWell l), h)
  end.

(** A store of two wells: the well 1 holds a leaf and the well 2, and
    has one more attribute, [main], bound to the well 2; the well 2
    holds a leaf. *)
Definition sample_others : gmap string Dispatcher.ref :=
  <["main"%string := Dispatcher.RWell 2%positive]> ∅.

Definition sample_store : gmap positive Dispatcher.obj :=
  <[1%positive :=
      Dispatcher.mkObj [Dispatcher.RSeg seg_a; Dispatcher.RWell 2%positive]
        sample_others]>
    (<[2%positive := Dispatcher.mkObj [Dispatcher.RSeg seg_b] ∅]> ∅).

End Samples.

(** ** Construction, persistence and delegation over whole trees *)

Module WellMore.

(** [Well.__init__]: without [segments] the well holds the one leaf that
    [WellSegment(...)] builds ([loaded] is the outcome of that call, which
    belongs to [well_segment.py]); with [segments] it holds them. *)
Definition __init__ (loaded : res WellSegment) (segments : option (list item))
    : res item :=
  match segments with
  | None => s <- loaded ;; Ok (W [Seg s])
  | Some segments => Ok (W segments)
  end.

Section with_collaborators.
(** [WellSegment.dump(path)] and the loading of a leaf from a directory,
    both of [well_segment.py]; [get_fullpath] of the index. *)
Variable segment_dump : WellSegment -> string -> res unit.
Variable load_segment : string -> res WellSegment.
Variable get_fullpath : string -> string.

(** [dump]: [self.segments[0].dump(path)]; the first element is a leaf or
    a well, whose [dump] is this method again. *)
Fixpoint dump (t : item) (path : string) : res unit :=
  match t with
  | Seg s => segment_dump s path
  | W [] => Raise IndexError
  | W (first :: _) => dump first path
  end.

(** [WellBatch.__init__] with [preloaded=None]: one well per identifier,
    built from the path the index gives for it. *)
Definition init_wells (indices : list string) : res (list item) :=
  mapM (fun well => __init__ (load_segment (get_fullpath well)) None) indices.

Definition init_batch (indices : list string) : res WellBatch.WellBatch :=
  wells <- init_wells indices ;;
  Ok (WellBatch.mkBatch indices (map WellBatch.Returned wells)).
End with_collaborators.

(** What a leaf operation returns: one leaf or a list of leaves. *)
Inductive leaf_value : Type :=
| One_leaf (s : WellSegment)
| Leaf_list (l : list WellSegment).

Definition leaf_items (v : leaf_value) : list WellSegment :=
  match v with
  | One_leaf s => [s]
  | Leaf_list l => l
  end.

Section delegated.
(** A method [name] that [Well] does not define, as [WellSegment] defines
    it. *)
Variable op : WellSegment -> res leaf_value.

(** The delegator of [SegmentDelegatingMeta] through a whole tree, on
    values.  [contribution c] is what the loop adds to [results] for the
    child [c]: the items a leaf returned, or the one well that the child's
    own delegator returned. *)
Fixpoint contribution (c : item) : res (list item) :=
  match c with
  | Seg s => v <- op s ;; Ok (map Seg (leaf_items v))
  | W segments =>
      results <- mapM contribution segments ;;
      Ok [W (concat results)]
  end.

Definition delegator (segments : list item) : res item :=
  results <- mapM contribution segments ;;
  Ok (W (concat results)).
End delegated.

End WellMore.

(** ** Transforms as they act on the objects *)

(** A transform assigns [well.segments] parent by parent and returns
    [self], so a call that raises in the middle of its loop leaves the
    parents before the failing one rewritten.  Here a call gives what it
    returned or raised together with the tree of [self] after the call. *)
Module InPlace.
Import Well.

Section with_segment_ops.
Context `{SegmentOps}.

(** The loop [for well in wells: well.segments = F(i, well)] from
    position [i]: the lists assigned before the first exception, and
    that exception if there is one. *)
Fixpoint assign_loop (F : nat -> item -> res (list item)) (i : nat)
    (wells : list item) : list (list item) * option exn :=
  match wells with
  | [] => ([], None)
  | well :: rest =>
      match F i well with
      | Raise e => ([], Some e)
      | Ok new =>
          let r := assign_loop F (S i) rest in (new :: fst r, snd r)
      end
  end.

(** The [segments] of a well that the loop did not reach. *)
Definition kept_segments (well : item) : list item :=
  match well with
  | W segments => segments
  | Seg _ => []
  end.

(** The tree of [self] after the loop: the wells that the loop reached
    hold the lists assigned, the others what they held.  The call
    returns [self] when the loop finished.  Where the run is
    [Unmodelled] (the level of [wells] is reached through a leaf) the
    tree is given as it was. *)
Definition assign_segments (F : nat -> item -> res (list item))
    (t : item) (wells : list item) : res item * item :=
  let r := assign_loop F 0 wells in
  let news :=
    fst r ++ map kept_segments (skipn (List.length (fst r)) wells) in
  let put := (d <- tree_depth t ;;
              r' <- put_level t (Z.to_nat (d - 2)) news ;;
              Ok (fst r')) in
  (match snd r with
   | Some e => Raise e
   | None => put
   end,
   match put with
   | Ok t' => t'
   | Raise _ => t
   end).

Definition on_parents_of_leaves (F : nat -> item -> res (list item))
    (t : item) : res item * item :=
  match iter_level t (-2) with
  | Ok wells => assign_segments F t wells
  | Raise e => (Raise e, t)
  end.

(** [create_segments], [crop] *)
Definition create_segments (t : item) (src : string) (connected : bool)
    : res item * item :=
  on_parents_of_leaves
    (fun _ well =>
       segments <- segments_of well ;;
       mapM (wrap (fun s => segment_create_segments s src connected)) segments)
    t.

Definition crop (t : item) (length step : Z) (drop_last : bool)
    : res item * item :=
  on_parents_of_leaves
    (fun _ well =>
       segments <- segments_of well ;;
       mapM (wrap (fun s => segment_crop s length step drop_last)) segments)
    t.

End with_segment_ops.
End InPlace.

(** ** Actions over the wells of a batch *)

Module WellBatchMore.
Import WellBatch.

Section parallel_action.
Variable str_well : item -> string.
(** [str(e)] for an exception. *)
Variable str_exn : exn -> string.
(** [getattr(well, name)(...)] on a [Well] object of the array: what the
    call returned or raised, and the tree of that object after the call. *)
Variable method : item -> res item * item.

(** Modelled from the spec: the parallel-map collaborator
    ([inbatch_parallel]) calls the operation once per item of the work list
    that the initializer returns, collects for every item the value
    returned or the exception raised, and calls the post-processing hook
    once with all results in the original order. *)
Definition collect (r : res item) : result :=
  match r with
  | Ok well => Returned well
  | Raise (SkipWellException msg) => Skipped msg
  | Raise e => Failed (str_exn e)
  end.

(** [delegator(self, well, ...)]: [getattr(well, name)(...)] for one item
    of the work list, which is the array [self.wells] itself: the result
    collected for the item, and the item after the call.  An item that is
    an exception has no such attribute. *)
Definition call_item (well : result) : result * result :=
  match well with
  | Returned well =>
      let r := method well in (collect (fst r), Returned (snd r))
  | Skipped _ | Failed _ => (Failed (str_exn AttributeError), well)
  end.

(** The action made by [_make_parallel_action]: [init="wells"],
    [post="_filter_assemble"].  The items of the array are different
    objects (as [WellBatch.__init__] builds them), so a call changes its
    own item only, and the hook runs on the batch whose array holds the
    objects as the calls left them. *)
Definition parallel_action (self : WellBatch)
    : res unit * WellBatch * list printed :=
  let runs := map call_item (wells self) in
  _filter_assemble str_well
    {| index := index self; wells := map snd runs |}
    (map fst runs).
End parallel_action.

(** The array after the calls, and the results collected, when the array
    held the wells [ws]. *)
Definition wells_after (method : item -> res item * item) (ws : list item)
    : list result :=
  map (fun well => Returned (snd (method well))) ws.

Definition collected (str_exn : exn -> string)
    (method : item -> res item * item) (ws : list item) : list result :=
  map (fun well => collect str_exn (fst (method well))) ws.

End WellBatchMore.

(** ** More concrete data *)

Module MoreSamples.
Import Samples.

(** Collaborators: every leaf can be dumped, the leaf loaded from a path
    is named after the path and spans the depths 0 to 100. *)
Definition sample_dump (s : WellSegment) (path : string) : res unit := Ok tt.

Definition sample_load (path : string) : res WellSegment :=
  Ok (mkSegment path 0 100).

Definition sample_fullpath (well : string) : string :=
  String.append "/data/" well.

(** A leaf operation that returns the leaf twice, as a list. *)
Definition sample_value (s : WellSegment) : WellMore.leaf_value :=
  WellMore.Leaf_list [s; s].

Definition sample_op (s : WellSegment) : res WellMore.leaf_value :=
  Ok (sample_value s).

(** A method of wells that skips the wells without leaves and returns
    the others unchanged. *)
Definition skip_empty (well : item) : res item * item :=
  (if Tree.has_leaves well then Ok well
   else Raise (SkipWellException "no segments"),
   well).

Definition sample_str_exn (e : exn) : string := "error"%string.

Definition batch_2 : WellBatch.WellBatch :=
  WellBatch.mkBatch ["well_1"; "well_2"]%string
    [WellBatch.Returned well_abc; WellBatch.Returned (W [])].

(** A method of the children that fails on wells. *)
Definition failing_method (r : Dispatcher.ref)
    (h : gmap positive Dispatcher.obj)
    : res (Dispatcher.value * gmap positive Dispatcher.obj) :=
  match r with
  | Dispatcher.RSeg s => Ok (Dispatcher.One (Dispatcher.RSeg s), h)
  | Dispatcher.RWell _ => Raise (SkipWellException "no core")
  end.

(** A tree whose first parent of leaves has no leaf. *)
Definition well_empty_first : item := W [W []; W [Seg seg_c]].

(** A leaf of length zero. *)
Definition seg_point : WellSegment := mkSegment "p" 7 7.

(** A leaf collaborator whose [crop] fails on a leaf shorter than the
    crop length. *)
Definition strict_ops : SegmentOps := {|
  segment_tree_depth := fun _ => Raise AttributeError;
  segment_iter_level := fun _ _ => Raise AttributeError;
  segment_create_segments := fun s _ _ => Ok [s];
  segment_crop := fun s length _ _ =>
    if seg_length s <? length then Raise (OtherException "short")
    else Ok [piece s length];
  segment_random_crop := fun s length n =>
    Ok (repeat (piece s length) (Z.to_nat n));
  segment_drop_nans := fun s _ => Ok [s]
|}.

(** A leaf collaborator whose [crop] raises the skip condition on a leaf
    shorter than the crop length. *)
Definition skipping_ops : SegmentOps := {|
  segment_tree_depth := fun _ => Raise AttributeError;
  segment_iter_level := fun _ _ => Raise AttributeError;
  segment_create_segments := fun s _ _ => Ok [s];
  segment_crop := fun s length _ _ =>
    if seg_length s <? length then Raise (SkipWellException "short")
    else Ok [piece s length];
  segment_random_crop := fun s length n =>
    Ok (repeat (piece s length) (Z.to_nat n));
  segment_drop_nans := fun s _ => Ok [s]
|}.

(** A well with a long leaf under its first parent and a short one under
    its second, and a batch of that one well. *)
Definition well_c_a : item := W [W [Seg seg_c]; W [Seg seg_a]].


(** A batch of two wells, the first over a long leaf, the second over a
    short one. *)
Definition well_c : item := W [W [Seg seg_c]].
Definition well_a : item := W [W [Seg seg_a]].

Definition batch_c_then_a : WellBatch.WellBatch :=
  WellBatch.mkBatch ["well_1"; "well_2"]%string
    [WellBatch.Returned well_c; WellBatch.Returned well_a].


Definition crop_or_fail (length : Z) (well : item) : res item * item :=
  @InPlace.crop strict_ops well length 1 true.

(** Trees that two crops leave, the first crop too long for the leaf
    [seg_a]: from the well over [seg_a] and [seg_b] a tree whose first
    parent of leaves is childless and whose leaf is one level deeper, and
    from the well over [seg_b] and [seg_a] the same with the childless
    well last. *)
Definition seg_b3 : WellSegment := mkSegment "b" 1 4.


Definition well_empty_then_deep : item := W [W [W []; W [W [Seg seg_b3]]]].



End MoreSamples.

(** * Properties *)

(** ** Batch assembly *)

Module WellBatchFacts.
Import WellBatch.

Lemma skip_count results :
  List.length (List.filter id (map is_skip results)) = n_skipped results.
Proof.
  unfold n_skipped.
  induction results as [|r rs IH]; simpl; [reflexivity|].
  destruct (is_skip r); cbn [id List.length]; rewrite IH; reflexivity.
Qed.

Lemma n_skipped_le results : (n_skipped results <= List.length results)%nat.
Proof.
  unfold n_skipped.
  induction results as [|r rs IH]; simpl; [lia|].
  destruct (is_skip r); simpl; lia.
Qed.

Lemma n_skipped_all results :
  forallb is_skip results = true -> n_skipped results = List.length results.
Proof.
  unfold n_skipped.
  induction results as [|r rs IH]; simpl; [reflexivity|].
  destruct (is_skip r); simpl; [intros; f_equal; auto | discriminate].
Qed.

Lemma n_skipped_lt results :
  forallb is_skip results = false ->
  (n_skipped results < List.length results)%nat.
Proof.
  induction results as [|r rs IH]; simpl; [discriminate|].
  unfold n_skipped in *; simpl.
  destruct (is_skip r) eqn:E; simpl.
  - intros Hf. apply IH in Hf. lia.
  - intros _. pose proof (n_skipped_le rs) as Hle.
    unfold n_skipped in Hle. lia.
Qed.

Lemma survivors_length results :
  (List.length (survivors results) + n_skipped results
   = List.length results)%nat.
Proof.
  unfold survivors, n_skipped.
  induction results as [|r rs IH]; simpl; [reflexivity|].
  destruct (is_skip r); simpl; lia.
Qed.

Lemma mask_select_results results :
  mask_select results (map negb (map is_skip results))
  = Ok (survivors results).
Proof.
  unfold mask_select. rewrite !length_map, Nat.eqb_refl. f_equal.
  unfold survivors.
  induction results as [|r rs IH]; simpl; [reflexivity|].
  destruct (is_skip r); simpl; rewrite IH; reflexivity.
Qed.

Lemma mask_select_index (identifiers : list string) results :
  List.length identifiers = List.length results ->
  mask_select identifiers (map negb (map is_skip results))
  = Ok (map fst (surviving_pairs identifiers results)).
Proof.
  intros Hlen. unfold mask_select.
  rewrite !length_map, Hlen, Nat.eqb_refl. f_equal.
  unfold surviving_pairs.
  revert identifiers Hlen.
  induction results as [|r rs IH]; intros [|i ids] Hlen; simpl in *;
    try reflexivity; try discriminate.
  injection Hlen as Hlen.
  destruct (is_skip r); simpl; rewrite IH by assumption; reflexivity.
Qed.

Lemma surviving_pairs_snd (identifiers : list string) results :
  List.length identifiers = List.length results ->
  map snd (surviving_pairs identifiers results) = survivors results.
Proof.
  unfold surviving_pairs, survivors. revert identifiers.
  induction results as [|r rs IH]; intros [|i ids] Hlen; simpl in *;
    try reflexivity; try discriminate.
  injection Hlen as Hlen.
  destruct (is_skip r); simpl; rewrite IH by assumption; reflexivity.
Qed.

Lemma no_failure_survivors results :
  existsb is_failure results = false ->
  any_action_failed (survivors results) = false.
Proof.
  unfold any_action_failed, survivors.
  induction results as [|r rs IH]; simpl; [reflexivity|].
  destruct r; simpl; intros Hf; try discriminate; auto.
Qed.

Lemma failure_survivors results msg :
  In (Failed msg) results ->
  any_action_failed (survivors results) = true /\
  get_errors (survivors results) <> [].
Proof.
  unfold any_action_failed, get_errors, survivors.
  induction results as [|r rs IH]; simpl; [tauto|].
  intros [-> | Hin]; simpl; [split; [reflexivity | discriminate]|].
  destruct (IH Hin) as [IH1 IH2].
  destruct r; simpl; auto; rewrite ?orb_true_r; split; auto; discriminate.
Qed.

Section assembly.
Variable str_well : item -> string.

(** C1 (as amended).  A dispatch over N roots of which K < N raised the
    skip condition and none raised another exception succeeds; the
    identifier index becomes the identifiers of the roots that did not
    skip, in their original order, the root array the results of those
    roots in the same order (result i belongs to identifier i), and
    both hold N - K elements. *)
Theorem filter_assemble_drops_skipped (self : WellBatch)
    (results : list result) :
  List.length results = List.length (index self) ->
  existsb is_failure results = false ->
  (n_skipped results < List.length results)%nat ->
  exists self',
    _filter_assemble str_well self results = (Ok tt, self', []) /\
    index self' = map fst (surviving_pairs (index self) results) /\
    wells self' = map snd (surviving_pairs (index self) results) /\
    wells self' = survivors results /\
    existsb is_exception (wells self') = false /\
    List.length (index self')
      = (List.length results - n_skipped results)%nat /\
    List.length (wells self')
      = (List.length results - n_skipped results)%nat.
Proof.
  intros Hlen Hnofail Hk.
  unfold _filter_assemble.
  rewrite skip_count.
  destruct (Nat.eqb_spec (n_skipped results) (List.length (index self)))
    as [Heq | _]; [lia|].
  rewrite mask_select_results, (no_failure_survivors _ Hnofail).
  rewrite (mask_select_index _ _ (eq_sym Hlen)).
  eexists; split; [reflexivity|]. simpl.
  pose proof (surviving_pairs_snd _ _ (eq_sym Hlen)) as Hsnd.
  pose proof (survivors_length results) as Hsl.
  unfold create_subset. repeat split.
  - symmetry; exact Hsnd.
  - exact (no_failure_survivors _ Hnofail).
  - rewrite length_map, <- (length_map snd), Hsnd. lia.
  - lia.
Qed.

(** The hook on results that are all skips, one per identifier: it
    raises the batch-level skip condition with the message of the first
    result before it assigns anything, and prints nothing. *)
Lemma filter_assemble_all_skipped (self : WellBatch)
    (msg : string) (rest : list result) :
  List.length (Skipped msg :: rest) = List.length (index self) ->
  forallb is_skip rest = true ->
  _filter_assemble str_well self (Skipped msg :: rest)
  = (Raise (SkipBatchException msg), self, []).
Proof.
  intros Hlen Hall.
  unfold _filter_assemble. rewrite skip_count.
  rewrite (n_skipped_all (Skipped msg :: rest)) by (simpl; exact Hall).
  rewrite Hlen, Nat.eqb_refl. reflexivity.
Qed.

(** The hook on results of which one is an exception other than the
    skip condition: it prints the errors and the first error's
    traceback and raises the fatal "Could not assemble the batch" error
    before it assigns anything. *)
Lemma filter_assemble_failure_is_fatal (self : WellBatch)
    (results : list result) (msg : string) :
  List.length results = List.length (index self) ->
  In (Failed msg) results ->
  exists first,
    hd_error (get_errors (survivors results)) = Some first /\
    _filter_assemble str_well self results
    = (Raise (RuntimeError "Could not assemble the batch"), self,
       [PrintErrors (get_errors (survivors results));
        PrintTraceback first]).
Proof.
  intros Hlen Hin.
  unfold _filter_assemble. rewrite skip_count.
  assert (Hnot : forallb is_skip results = false).
  { clear Hlen. induction results as [|r rs IH]; simpl in *; [tauto|].
    destruct Hin as [-> | Hin]; [reflexivity|].
    rewrite (IH Hin). apply andb_false_r. }
  pose proof (n_skipped_lt _ Hnot) as Hlt.
  destruct (Nat.eqb_spec (n_skipped results) (List.length (index self)))
    as [Heq | _]; [lia|].
  rewrite mask_select_results.
  destruct (failure_survivors _ _ Hin) as [-> Hne].
  destruct (get_errors (survivors results)) as [|first errs];
    [congruence|].
  exists first. split; reflexivity.
Qed.
End assembly.

End WellBatchFacts.

(** ** The delegator *)

Module DispatcherFacts.
Import Dispatcher.


Section delegator.
Variable method :
  ref -> gmap positive obj -> res (value * gmap positive obj).

Lemma loop_calls segments h vs h1 :
  calls method segments h vs h1 ->
  forall results,
    loop method segments results h
    = Ok (results ++ concat (map as_list vs), h1).
Proof.
  induction 1 as [h | segment rest h v h1 vs h2 Hcall _ IH];
    intros results; simpl.
  - rewrite app_nil_r. reflexivity.
  - rewrite Hcall. simpl. rewrite IH, <- app_assoc. reflexivity.
Qed.

(** C4.  Calling a delegated operation on the node [self] calls the
    operation on every direct child in [segments] order (each call on
    the store left by the previous one), turns each result into a list
    (one object becomes a one-element list, a list is taken as it is),
    concatenates these lists in child order, and returns a new object:
    a shallow copy of [self], with every other attribute bound to the
    reference [self] binds it to, whose [segments] is that
    concatenation.  The returned object is not [self], and no object
    that existed before the copy, [self] included, is changed. *)
Theorem delegator_spec (self : positive) (h h1 : gmap positive obj)
    (o o1 : obj) (vs : list value) :
  h !! self = Some o ->
  calls method (obj_segments o) h vs h1 ->
  h1 !! self = Some o1 ->
  exists res_well h2,
    delegator method self h = Ok (res_well, h2) /\
    h1 !! res_well = None /\
    res_well <> self /\
    h2 !! res_well
    = Some (mkObj (concat (map as_list vs)) (obj_others o1)) /\
    (forall l, l <> res_well -> h2 !! l = h1 !! l).
Proof.
  intros Hself Hcalls Hself1.
  unfold delegator. rewrite Hself.
  rewrite (loop_calls _ _ _ _ Hcalls []). cbn [bind fst snd app].
  unfold copy. rewrite Hself1. cbn [bind fst snd].
  set (l := fresh (dom h1)).
  assert (Hfresh : h1 !! l = None).
  { apply not_elem_of_dom. apply is_fresh. }
  exists l, (<[l := mkObj (concat (map as_list vs)) (obj_others o1)]>
               (<[l := o1]> h1)).
  split; [unfold set_segments; rewrite lookup_insert_eq; reflexivity|].
  split; [exact Hfresh|]. split.
  - intros ->. congruence.
  - split.
    + apply lookup_insert_eq.
    + intros l' Hne. rewrite !lookup_insert_ne by congruence. reflexivity.
Qed.

(** The first child whose call raises makes the delegator raise the
    same exception. *)
Lemma delegator_raises (self : positive) (h h1 : gmap positive obj)
    (before after : list ref) (segment : ref) (others : gmap string ref)
    (vs : list value) (e : exn) :
  h !! self = Some (mkObj (before ++ segment :: after) others) ->
  calls method before h vs h1 ->
  method segment h1 = Raise e ->
  delegator method self h = Raise e.
Proof.
  intros Hself Hcalls Hraise. unfold delegator. rewrite Hself.
  cbn [obj_segments].
  assert (Hloop : forall results,
             loop method (before ++ segment :: after) results h = Raise e).
  { clear Hself. induction Hcalls as [h | s rest h v h1 vs h2 Hc _ IH];
      intros results; simpl.
    - rewrite Hraise. reflexivity.
    - rewrite Hc. simpl. apply IH. exact Hraise. }
  rewrite Hloop. reflexivity.
Qed.
End delegator.

End DispatcherFacts.

(** ** Trees of wells *)

Module WellFacts.
Import Well Tree.

Lemma mapM_Ok_map {A B} (f : A -> res B) (g : A -> B) (l : list A) :
  (forall x, In x l -> f x = Ok (g x)) -> mapM f l = Ok (map g l).
Proof.
  induction l as [|x l IH]; intros Hf; simpl; [reflexivity|].
  rewrite (Hf x) by (left; reflexivity). simpl.
  rewrite IH by (intros; apply Hf; right; assumption). reflexivity.
Qed.

Lemma mapM_inv {A B} (f : A -> res B) (l : list A) (ys : list B) :
  mapM f l = Ok ys -> Forall2 (fun x y => f x = Ok y) l ys.
Proof.
  revert ys. induction l as [|x l IH]; intros ys; simpl.
  - intros [= <-]. constructor.
  - destruct (f x) as [y|e] eqn:Ex; simpl; [|discriminate].
    destruct (mapM f l) as [ys'|e] eqn:El; simpl; [|discriminate].
    intros [= <-]. constructor; auto.
Qed.

Lemma concat_map_flat_map {A B} (f : A -> list B) (l : list A) :
  concat (map f l) = flat_map f l.
Proof. induction l; simpl; congruence. Qed.

Lemma flat_map_singleton {A} (l : list A) : flat_map (fun x => [x]) l = l.
Proof. induction l; simpl; congruence. Qed.

Lemma fold_min_spec (l : list Z) (x : Z) :
  let m := fold_left Z.min l x in
  (m = x \/ In m l) /\ m <= x /\ Forall (fun y => m <= y) l.
Proof.
  revert x. induction l as [|y l IH]; intros x; simpl.
  - repeat split; auto; lia.
  - destruct (IH (Z.min x y)) as ([Hm | Hm] & Hle & Hall).
    + split; [|split; [lia | constructor; [lia | exact Hall]]].
      rewrite Hm. destruct (Z.min_spec x y) as [[_ E] | [_ E]];
        [left; exact E | right; left; symmetry; exact E].
    + split; [right; right; exact Hm | split; [lia | constructor; [lia | exact Hall]]].
Qed.

Lemma fold_max_spec (l : list Z) (x : Z) :
  let m := fold_left Z.max l x in
  (m = x \/ In m l) /\ x <= m /\ Forall (fun y => y <= m) l.
Proof.
  revert x. induction l as [|y l IH]; intros x; simpl.
  - repeat split; auto; lia.
  - destruct (IH (Z.max x y)) as ([Hm | Hm] & Hle & Hall).
    + split; [|split; [lia | constructor; [lia | exact Hall]]].
      rewrite Hm. destruct (Z.max_spec x y) as [[_ E] | [_ E]];
        [right; left; symmetry; exact E | left; exact E].
    + split; [right; right; exact Hm | split; [lia | constructor; [lia | exact Hall]]].
Qed.

Lemma py_min_spec (l : list Z) (m : Z) : py_min l = Ok m -> is_min m l.
Proof.
  destruct l as [|x l]; simpl; [discriminate|]. intros [= <-].
  destruct (fold_min_spec l x) as ([Hm | Hm] & Hle & Hall); split;
    simpl; auto.
Qed.

Lemma py_max_spec (l : list Z) (m : Z) : py_max l = Ok m -> is_max m l.
Proof.
  destruct l as [|x l]; simpl; [discriminate|]. intros [= <-].
  destruct (fold_max_spec l x) as ([Hm | Hm] & Hle & Hall); split;
    simpl; auto.
Qed.

Section with_segment_ops.
Context `{SegmentOps}.

(** C10.  On a well whose [segments] is empty the leaf test holds
    vacuously, so [tree_depth] is 2 and [n_segments] is 0, while
    [depth_from], [depth_to] and [length] raise the error of the
    minimum or maximum of an empty sequence. *)
Theorem empty_well_accessors :
  _has_segments [] = true /\
  tree_depth (W []) = Ok 2 /\
  n_segments (W []) = Ok 0 /\
  depth_from (W []) = Raise EmptySequence /\
  depth_to (W []) = Raise EmptySequence /\
  length (W []) = Raise EmptySequence.
Proof. repeat split; reflexivity. Qed.

Lemma iter_level_unfold (segments : list item) (level : Z) :
  iter_level (W segments) level =
  (level <- (if 0 <=? level then Ok level
             else d <- tree_depth (W segments) ;; Ok (d + level)) ;;
   d <- tree_depth (W segments) ;;
   if (level <? 0) || (d <? level) then Raise (InvalidLevel level d)
   else if level =? 0 then Ok [W segments]
   else if level =? 1 then Ok segments
   else fmap_res (@concat item)
          (mapM (fun well => iter_level well (level - 1)) segments)).
Proof. reflexivity. Qed.

Lemma iter_level_normalized (segments : list item) (level d : Z) :
  tree_depth (W segments) = Ok d ->
  iter_level (W segments) level =
  (let level := normalized d level in
   if (level <? 0) || (d <? level) then Raise (InvalidLevel level d)
   else if level =? 0 then Ok [W segments]
   else if level =? 1 then Ok segments
   else fmap_res (@concat item)
          (mapM (fun well => iter_level well (level - 1)) segments)).
Proof.
  intros Hd. rewrite iter_level_unfold, Hd. unfold normalized.
  destruct (0 <=? level); reflexivity.
Qed.

(** The cases of [iter_level] on a node of tree depth [d], by the level
    [level'] that a negative [level] is translated to. *)
Lemma iter_level_cases (segments : list item) (level d : Z) :
  tree_depth (W segments) = Ok d ->
  let level' := normalized d level in
  (level < 0 -> level' = d + level) /\
  (0 <= level -> level' = level) /\
  (level < - d \/ d < level ->
   iter_level (W segments) level = Raise (InvalidLevel level' d)) /\
  (level' < 0 \/ d < level' ->
   iter_level (W segments) level = Raise (InvalidLevel level' d)) /\
  (level' = 0 -> 0 <= d ->
   iter_level (W segments) level = Ok [W segments]) /\
  (level' = 1 -> 1 <= d ->
   iter_level (W segments) level = Ok segments) /\
  (2 <= level' <= d ->
   iter_level (W segments) level =
   fmap_res (@concat item)
     (mapM (fun well => iter_level well (level' - 1)) segments)).
Proof.
  intros Hd level'.
  rewrite (iter_level_normalized _ _ _ Hd). fold level'. cbv zeta.
  assert (Hneg : level < 0 -> level' = d + level).
  { intros Hl. unfold level', normalized.
    destruct (Z.leb_spec 0 level); lia. }
  assert (Hpos : 0 <= level -> level' = level).
  { intros Hl. unfold level', normalized.
    destruct (Z.leb_spec 0 level); lia. }
  assert (Hbad : level' < 0 \/ d < level' ->
                 (level' <? 0) || (d <? level') = true).
  { intros [Hl | Hl]; apply orb_true_iff; [left | right];
      apply Z.ltb_lt; exact Hl. }
  assert (Hgood : 0 <= level' <= d ->
                  (level' <? 0) || (d <? level') = false).
  { intros [Hl1 Hl2]. apply orb_false_iff. split; apply Z.ltb_ge; lia. }
  split; [exact Hneg|]. split; [exact Hpos|].
  split.
  { intros Hout. rewrite Hbad; [reflexivity|].
    destruct (Z.lt_ge_cases level 0) as [Hl | Hl];
      [rewrite (Hneg Hl) | rewrite (Hpos Hl)]; lia. }
  split.
  { intros Hout. rewrite Hbad by exact Hout. reflexivity. }
  split.
  { intros Hl Hd0. rewrite Hgood by lia. rewrite Hl. reflexivity. }
  split.
  { intros Hl Hd1. rewrite Hgood by lia. rewrite Hl. reflexivity. }
  intros Hl. rewrite Hgood by lia.
  destruct (Z.eqb_spec level' 0); [lia|].
  destruct (Z.eqb_spec level' 1); [lia|]. reflexivity.
Qed.

(** *** Derived depth bounds *)

Lemma Forall2_In_l {A B} (R : A -> B -> Prop) l ys x :
  Forall2 R l ys -> In x l -> exists y, In y ys /\ R x y.
Proof.
  induction 1 as [|a b l ys Hab _ IH]; simpl; [tauto|].
  intros [-> | Hin]; [exists b; auto|].
  destruct (IH Hin) as (y & Hy & Hr). exists y; auto.
Qed.

Lemma subitems_well (segments : list item) (d : item) :
  In d (subitems (W segments)) <->
  d = W segments \/ exists c, In c segments /\ In d (subitems c).
Proof.
  simpl. rewrite in_flat_map. split.
  - intros [<- | Hin]; auto.
  - intros [-> | Hin]; auto.
Qed.

Lemma no_empty_subitem (t d : item) :
  no_empty t = true -> In d (subitems t) -> no_empty d = true.
Proof.
  induction t as [s | segments IH] using item_ind'; intros Hne Hin.
  - destruct Hin as [<- | []]. reflexivity.
  - apply subitems_well in Hin as [-> | (c & Hc & Hd)]; [exact Hne|].
    simpl in Hne. apply andb_true_iff in Hne as [_ Hall].
    rewrite forallb_forall in Hall. rewrite List.Forall_forall in IH.
    apply (IH c Hc); auto.
Qed.

Lemma depth_from_defined (t : item) :
  no_empty t = true -> exists lo, depth_from t = Ok lo.
Proof.
  induction t as [s | segments IH] using item_ind'; intros Hne.
  - eexists; reflexivity.
  - simpl in Hne. apply andb_true_iff in Hne as [Hnil Hall].
    rewrite forallb_forall in Hall. rewrite List.Forall_forall in IH.
    assert (Hm : exists los, mapM depth_from segments = Ok los
                             /\ List.length los = List.length segments).
    { clear Hnil. induction segments as [|c cs IHcs].
      - exists []. split; reflexivity.
      - destruct (IH c) as [lo Hlo]; [left; reflexivity| |].
        { apply Hall. left; reflexivity. }
        destruct IHcs as (los & Hlos & Hlen).
        { intros x Hx. apply IH. right; exact Hx. }
        { intros x Hx. apply Hall. right; exact Hx. }
        exists (lo :: los). simpl. rewrite Hlo. simpl. rewrite Hlos.
        simpl. split; [reflexivity | congruence]. }
    destruct Hm as (los & Hlos & Hlen).
    change (depth_from (W segments))
      with (ds <- mapM depth_from segments ;; py_min ds).
    rewrite Hlos. simpl.
    destruct los as [|x los]; [destruct segments; discriminate|].
    eexists; reflexivity.
Qed.

Lemma depth_to_defined (t : item) :
  no_empty t = true -> exists hi, depth_to t = Ok hi.
Proof.
  induction t as [s | segments IH] using item_ind'; intros Hne.
  - eexists; reflexivity.
  - simpl in Hne. apply andb_true_iff in Hne as [Hnil Hall].
    rewrite forallb_forall in Hall. rewrite List.Forall_forall in IH.
    assert (Hm : exists his, mapM depth_to segments = Ok his
                             /\ List.length his = List.length segments).
    { clear Hnil. induction segments as [|c cs IHcs].
      - exists []. split; reflexivity.
      - destruct (IH c) as [hi Hhi]; [left; reflexivity| |].
        { apply Hall. left; reflexivity. }
        destruct IHcs as (his & Hhis & Hlen).
        { intros x Hx. apply IH. right; exact Hx. }
        { intros x Hx. apply Hall. right; exact Hx. }
        exists (hi :: his). simpl. rewrite Hhi. simpl. rewrite Hhis.
        simpl. split; [reflexivity | congruence]. }
    destruct Hm as (his & Hhis & Hlen).
    change (depth_to (W segments))
      with (ds <- mapM depth_to segments ;; py_max ds).
    rewrite Hhis. simpl.
    destruct his as [|x his]; [destruct segments; discriminate|].
    eexists; reflexivity.
Qed.

Lemma depth_from_well_inv (segments : list item) (lo : Z) :
  depth_from (W segments) = Ok lo ->
  exists los, mapM depth_from segments = Ok los /\ is_min lo los.
Proof.
  change (depth_from (W segments))
    with (ds <- mapM depth_from segments ;; py_min ds).
  destruct (mapM depth_from segments) as [los|e]; simpl; [|discriminate].
  intros Hmin. exists los. split; [reflexivity|].
  apply py_min_spec. exact Hmin.
Qed.

Lemma depth_to_well_inv (segments : list item) (hi : Z) :
  depth_to (W segments) = Ok hi ->
  exists his, mapM depth_to segments = Ok his /\ is_max hi his.
Proof.
  change (depth_to (W segments))
    with (ds <- mapM depth_to segments ;; py_max ds).
  destruct (mapM depth_to segments) as [his|e]; simpl; [|discriminate].
  intros Hmax. exists his. split; [reflexivity|].
  apply py_max_spec. exact Hmax.
Qed.

Lemma depth_from_encloses (t d : item) (lo_t lo : Z) :
  depth_from t = Ok lo_t -> In d (subitems t) ->
  depth_from d = Ok lo -> lo_t <= lo.
Proof.
  revert lo_t.
  induction t as [s | segments IH] using item_ind'; intros lo_t Ht Hin Hd.
  - destruct Hin as [<- | []]. rewrite Ht in Hd. injection Hd. lia.
  - apply subitems_well in Hin as [-> | (c & Hc & Hin)].
    + rewrite Ht in Hd. injection Hd. lia.
    + destruct (depth_from_well_inv _ _ Ht) as (los & Hlos & _ & Hle).
      destruct (Forall2_In_l _ _ _ _ (mapM_inv _ _ _ Hlos) Hc)
        as (lc & Hlc & Hc').
      rewrite List.Forall_forall in IH, Hle.
      specialize (IH c Hc lc Hc' Hin Hd). specialize (Hle lc Hlc). lia.
Qed.

Lemma depth_to_encloses (t d : item) (hi_t hi : Z) :
  depth_to t = Ok hi_t -> In d (subitems t) ->
  depth_to d = Ok hi -> hi <= hi_t.
Proof.
  revert hi_t.
  induction t as [s | segments IH] using item_ind'; intros hi_t Ht Hin Hd.
  - destruct Hin as [<- | []]. rewrite Ht in Hd. injection Hd. lia.
  - apply subitems_well in Hin as [-> | (c & Hc & Hin)].
    + rewrite Ht in Hd. injection Hd. lia.
    + destruct (depth_to_well_inv _ _ Ht) as (his & Hhis & _ & Hle).
      destruct (Forall2_In_l _ _ _ _ (mapM_inv _ _ _ Hhis) Hc)
        as (hc & Hhc & Hc').
      rewrite List.Forall_forall in IH, Hle.
      specialize (IH c Hc hc Hc' Hin Hd). specialize (Hle hc Hhc). lia.
Qed.

(** C5 (as amended).  In a tree none of whose wells has an empty
    [segments], the
    node [t] and every node [d] below it, down to the leaves, have a
    depth range; at every well [depth_from] is the minimum of the
    children's [depth_from], [depth_to] the maximum of the children's
    [depth_to] and [length] their difference; and the range of [t]
    encloses the range of [d].  The three accessors are functions of
    the current [segments], so this holds for the tree left by any
    operation. *)
Theorem depth_range_derived (t : item) :
  no_empty t = true ->
  exists lo_t hi_t,
    depth_from t = Ok lo_t /\ depth_to t = Ok hi_t /\
    forall d, In d (subitems t) ->
      exists lo hi,
        depth_from d = Ok lo /\ depth_to d = Ok hi /\
        length d = Ok (hi - lo) /\
        lo_t <= lo /\ hi <= hi_t /\
        forall segments, d = W segments ->
          exists los his,
            mapM depth_from segments = Ok los /\ is_min lo los /\
            mapM depth_to segments = Ok his /\ is_max hi his.
Proof.
  intros Hne.
  destruct (depth_from_defined t Hne) as [lo_t Hlo_t].
  destruct (depth_to_defined t Hne) as [hi_t Hhi_t].
  exists lo_t, hi_t. split; [exact Hlo_t|]. split; [exact Hhi_t|].
  intros d Hin.
  pose proof (no_empty_subitem _ _ Hne Hin) as Hned.
  destruct (depth_from_defined d Hned) as [lo Hlo].
  destruct (depth_to_defined d Hned) as [hi Hhi].
  exists lo, hi. split; [exact Hlo|]. split; [exact Hhi|].
  split.
  { destruct d as [s | segments]; simpl in *.
    - injection Hlo as <-. injection Hhi as <-. reflexivity.
    - unfold length. rewrite Hhi, Hlo. reflexivity. }
  split; [exact (depth_from_encloses _ _ _ _ Hlo_t Hin Hlo)|].
  split; [exact (depth_to_encloses _ _ _ _ Hhi_t Hin Hhi)|].
  intros segments ->.
  destruct (depth_from_well_inv _ _ Hlo) as (los & Hlos & Hmin).
  destruct (depth_to_well_inv _ _ Hhi) as (his & Hhis & Hmax).
  exists los, his. auto.
Qed.

(** The accessors fail exactly on the trees that contain a well with
    an empty [segments]. *)
Lemma depth_from_defined_iff (t : item) :
  (exists lo, depth_from t = Ok lo) <-> no_empty t = true.
Proof.
  split; [|apply depth_from_defined].
  induction t as [s | segments IH] using item_ind'; intros [lo Hlo].
  - reflexivity.
  - destruct (depth_from_well_inv _ _ Hlo) as (los & Hlos & Hin & _).
    pose proof (mapM_inv _ _ _ Hlos) as HF.
    simpl. apply andb_true_iff. split.
    + destruct segments; [inversion HF; subst; destruct Hin|reflexivity].
    + apply forallb_forall. intros c Hc.
      rewrite List.Forall_forall in IH. apply (IH c Hc).
      destruct (Forall2_In_l _ _ _ _ HF Hc) as (lc & _ & Hlc).
      exists lc. exact Hlc.
Qed.

(** *** Regular trees *)

Lemma regular_is_well (n : nat) (t : item) :
  regular n t = true -> exists segments, t = W segments.
Proof. destruct n, t; simpl; try discriminate; eauto. Qed.

Lemma regular_is_segment (n : nat) (t : item) :
  regular n t = true -> is_segment t = false.
Proof. destruct n, t; simpl; try discriminate; reflexivity. Qed.

Lemma regular_S_inv (n : nat) (segments : list item) :
  regular (S n) (W segments) = true ->
  segments <> [] /\ forall c, In c segments -> regular n c = true.
Proof.
  simpl. intros Hr. apply andb_true_iff in Hr as [Hne Hall].
  rewrite forallb_forall in Hall. split; [|exact Hall].
  destruct segments; [discriminate | congruence].
Qed.

Lemma regular_tree_depth (n : nat) (t : item) :
  regular n t = true -> tree_depth t = Ok (Z.of_nat n + 2).
Proof.
  revert t. induction n as [|n IH]; intros t Hr;
    destruct (regular_is_well _ _ Hr) as [segments ->].
  - simpl in *. unfold _has_segments. rewrite Hr. reflexivity.
  - destruct (regular_S_inv _ _ Hr) as [Hne Hall].
    destruct segments as [|c cs]; [congruence|].
    assert (Hc : regular n c = true) by (apply Hall; left; reflexivity).
    simpl. rewrite (regular_is_segment _ _ Hc). simpl.
    rewrite (IH c Hc). simpl. f_equal. lia.
Qed.

Lemma iter_level_regular (n : nat) (t : item) (k : nat) :
  regular n t = true -> (k <= n + 1)%nat ->
  iter_level t (Z.of_nat k) = Ok (level_nodes k t).
Proof.
  revert t k. induction n as [|n IH]; intros t k Hr Hk;
    pose proof (regular_tree_depth _ _ Hr) as Hd;
    destruct (regular_is_well _ _ Hr) as [segments ->];
    rewrite (iter_level_normalized _ _ _ Hd); unfold normalized;
    (destruct (Z.leb_spec 0 (Z.of_nat k)); [|lia]); cbv zeta;
    (destruct (Z.ltb_spec (Z.of_nat k) 0); [lia|]);
    (destruct (Z.ltb_spec (Z.of_nat (S n) + 2) (Z.of_nat k)) ||
     destruct (Z.ltb_spec (Z.of_nat 0 + 2) (Z.of_nat k)); [lia|]);
    cbn [orb].
  - destruct k as [|[|k]]; [reflexivity | | lia].
    simpl. rewrite flat_map_singleton. reflexivity.
  - destruct k as [|[|k]]; [reflexivity | |].
    + simpl. rewrite flat_map_singleton. reflexivity.
    + destruct (Z.eqb_spec (Z.of_nat (S (S k))) 0); [lia|].
      destruct (Z.eqb_spec (Z.of_nat (S (S k))) 1); [lia|].
      destruct (regular_S_inv _ _ Hr) as [_ Hall].
      rewrite (mapM_Ok_map _ (level_nodes (S k))).
      * simpl. rewrite concat_map_flat_map. reflexivity.
      * intros c Hc.
        replace (Z.of_nat (S (S k)) - 1) with (Z.of_nat (S k)) by lia.
        apply IH; [apply Hall; exact Hc | lia].
Qed.

Lemma iter_level_negative (segments : list item) (d level : Z) :
  tree_depth (W segments) = Ok d -> level < 0 -> 0 <= d + level ->
  iter_level (W segments) level = iter_level (W segments) (d + level).
Proof.
  intros Hd Hl Hdl. rewrite !(iter_level_normalized _ _ _ Hd).
  unfold normalized.
  destruct (Z.leb_spec 0 level); [lia|].
  destruct (Z.leb_spec 0 (d + level)); [|lia]. reflexivity.
Qed.

(** On a regular tree level -2 is the parents of leaves and level -1
    the leaves. *)
Lemma iter_level_parents (n : nat) (t : item) :
  regular n t = true -> iter_level t (-2) = Ok (level_nodes n t).
Proof.
  intros Hr. pose proof (regular_tree_depth _ _ Hr) as Hd.
  destruct (regular_is_well _ _ Hr) as [segments ->].
  rewrite (iter_level_negative _ _ _ Hd) by lia.
  replace (Z.of_nat n + 2 + -2) with (Z.of_nat n) by lia.
  apply (iter_level_regular n); [exact Hr | lia].
Qed.

Lemma flat_map_map {A B C} (f : A -> list C) (g : A -> list B)
    (h : B -> C) (l : list A) :
  (forall x, In x l -> f x = map h (g x)) ->
  flat_map f l = map h (flat_map g l).
Proof.
  induction l as [|x l IH]; intros Hf; [reflexivity|].
  cbn [flat_map]. rewrite map_app, (Hf x) by (left; reflexivity).
  rewrite IH by (intros; apply Hf; right; assumption). reflexivity.
Qed.

Lemma level_nodes_leaves (n : nat) (t : item) :
  regular n t = true -> level_nodes (S n) t = map Seg (leaves t).
Proof.
  revert t. induction n as [|n IH]; intros t Hr;
    destruct (regular_is_well _ _ Hr) as [segments ->].
  - cbn [regular] in Hr. rewrite forallb_forall in Hr.
    change (flat_map (level_nodes 0) segments
            = map Seg (flat_map leaves segments)).
    apply flat_map_map. intros c Hc. specialize (Hr c Hc).
    destruct c; [reflexivity | discriminate].
  - destruct (regular_S_inv _ _ Hr) as [_ Hall].
    change (flat_map (level_nodes (S n)) segments
            = map Seg (flat_map leaves segments)).
    apply flat_map_map. intros c Hc. apply IH, Hall, Hc.
Qed.

Lemma iter_level_leaves (n : nat) (t : item) :
  regular n t = true -> iter_level t (-1) = Ok (map Seg (leaves t)).
Proof.
  intros Hr. pose proof (regular_tree_depth _ _ Hr) as Hd.
  rewrite <- (level_nodes_leaves _ _ Hr).
  destruct (regular_is_well _ _ Hr) as [segments ->].
  rewrite (iter_level_negative _ _ _ Hd) by lia.
  replace (Z.of_nat n + 2 + -1) with (Z.of_nat (S n)) by lia.
  apply (iter_level_regular n); [exact Hr | lia].
Qed.

Lemma n_segments_regular (n : nat) (t : item) :
  regular n t = true ->
  n_segments t = Ok (Z.of_nat (List.length (leaves t))).
Proof.
  intros Hr. unfold n_segments. rewrite (iter_level_leaves _ _ Hr).
  simpl. rewrite length_map. reflexivity.
Qed.

(** *** Pruning *)

Lemma prune_eq (segments : list item) :
  prune (W segments) =
  (flags <- mapM keeps segments ;;
   kept <- prune_kept prune segments flags ;;
   Ok (W kept)).
Proof. reflexivity. Qed.

(** The children selected by the flags. *)
Lemma filterM_flags (l : list item) :
  filterM keeps l =
  (flags <- mapM keeps l ;;
   Ok (map fst (List.filter snd (combine l flags)))).
Proof.
  induction l as [|c l IH]; [reflexivity|].
  simpl. destruct (keeps c) as [b|e]; [|reflexivity]. simpl.
  rewrite IH. destruct (mapM keeps l) as [flags|e]; [|reflexivity].
  simpl. destruct b; reflexivity.
Qed.

Lemma prune_kept_flags (l : list item) (flags : list bool) :
  List.length flags = List.length l ->
  prune_kept prune l flags =
  mapM prune (map fst (List.filter snd (combine l flags))).
Proof.
  revert flags. induction l as [|c l IH]; intros [|b flags] Hlen;
    try discriminate; [reflexivity|].
  injection Hlen as Hlen. simpl. rewrite (IH flags Hlen).
  destruct b; reflexivity.
Qed.

Lemma mapM_length {A B} (f : A -> res B) (l : list A) (ys : list B) :
  mapM f l = Ok ys -> List.length ys = List.length l.
Proof.
  intros Hm. apply mapM_inv in Hm.
  induction Hm; simpl; congruence.
Qed.

(** [prune] in the form of the source: the comprehension, then the
    loop over the children that were kept. *)
Lemma prune_unfold (segments : list item) :
  prune (W segments) =
  (kept <- filterM keeps segments ;;
   kept' <- mapM prune kept ;;
   Ok (W kept')).
Proof.
  rewrite prune_eq, filterM_flags.
  destruct (mapM keeps segments) as [flags|e] eqn:E; [|reflexivity].
  simpl. rewrite (prune_kept_flags _ _ (mapM_length _ _ _ E)).
  reflexivity.
Qed.

Lemma prune_kept_accurate (l : list item) :
  (forall c, In c l -> prune c = Ok (prune_spec c)) ->
  prune_kept prune l (map (fun c => is_segment c || has_leaves c) l)
  = Ok (flat_map (fun well =>
                    if is_segment well || has_leaves well
                    then [prune_spec well] else []) l).
Proof.
  induction l as [|c l IH]; intros Hp; [reflexivity|].
  cbn [map prune_kept flat_map].
  rewrite IH by (intros; apply Hp; right; assumption).
  destruct (is_segment c || has_leaves c); [|reflexivity].
  rewrite (Hp c) by (left; reflexivity). reflexivity.
Qed.

(** Where the test of the comprehension is accurate at every node,
    [prune] does what the specification says. *)
Lemma prune_accurate (t : item) :
  (forall d, In d (subitems t) ->
             keeps d = Ok (is_segment d || has_leaves d)) ->
  prune t = Ok (prune_spec t).
Proof.
  induction t as [s | segments IH] using item_ind'; intros Hk;
    [reflexivity|].
  rewrite prune_eq.
  rewrite (mapM_Ok_map _ (fun c => is_segment c || has_leaves c)).
  - cbn [bind]. rewrite prune_kept_accurate; [reflexivity|].
    intros c Hc. rewrite List.Forall_forall in IH. apply (IH c Hc).
    intros d Hd. apply Hk. apply subitems_well. right. exists c. auto.
  - intros c Hc. apply Hk. apply subitems_well. right. exists c.
    split; [exact Hc|]. destruct c; left; reflexivity.
Qed.

Lemma leaves_prune_spec (t : item) : leaves (prune_spec t) = leaves t.
Proof.
  induction t as [s | segments IH] using item_ind'; [reflexivity|].
  cbn [prune_spec leaves]. rewrite List.Forall_forall in IH.
  induction segments as [|c cs IHcs]; [reflexivity|].
  cbn [flat_map]. rewrite flat_map_app.
  rewrite IHcs by (intros; apply IH; right; assumption).
  f_equal. unfold has_leaves.
  destruct c as [s | segs]; cbn [is_segment orb]; [reflexivity|].
  destruct (leaves (W segs)) eqn:E; cbn [flat_map app].
  - reflexivity.
  - rewrite app_nil_r, (IH (W segs)) by (left; reflexivity). exact E.
Qed.

Lemma is_segment_prune_spec (t : item) :
  is_segment (prune_spec t) = is_segment t.
Proof. destruct t; reflexivity. Qed.

Lemma has_leaves_prune_spec (t : item) :
  has_leaves (prune_spec t) = has_leaves t.
Proof. unfold has_leaves. rewrite leaves_prune_spec. reflexivity. Qed.

(** Pruning as specified is idempotent, on every tree. *)
Lemma prune_spec_idempotent (t : item) :
  prune_spec (prune_spec t) = prune_spec t.
Proof.
  induction t as [s | segments IH] using item_ind'; [reflexivity|].
  cbn [prune_spec]. f_equal. rewrite List.Forall_forall in IH.
  induction segments as [|c cs IHcs]; [reflexivity|].
  cbn [flat_map]. rewrite flat_map_app.
  rewrite IHcs by (intros; apply IH; right; assumption).
  f_equal.
  destruct (is_segment c || has_leaves c) eqn:E; [|reflexivity].
  cbn [flat_map]. rewrite app_nil_r.
  rewrite is_segment_prune_spec, has_leaves_prune_spec, E.
  rewrite (IH c) by (left; reflexivity). reflexivity.
Qed.

Lemma keeps_regular (n : nat) (t : item) :
  regular n t = true -> keeps t = Ok (is_segment t || has_leaves t).
Proof.
  intros Hr. pose proof (n_segments_regular _ _ Hr) as Hn.
  destruct (regular_is_well _ _ Hr) as [segments ->].
  unfold keeps. rewrite Hn. cbn [bind is_segment orb]. f_equal.
  unfold has_leaves. destruct (leaves (W segments)); reflexivity.
Qed.

Lemma subitems_regular (n : nat) (t d : item) :
  regular n t = true -> In d (subitems t) ->
  is_segment d = true \/ exists m, regular m d = true.
Proof.
  revert t. induction n as [|n IH]; intros t Hr Hin;
    destruct (regular_is_well _ _ Hr) as [segments ->];
    apply subitems_well in Hin as [-> | (c & Hc & Hin)]; eauto.
  - cbn [regular] in Hr. rewrite forallb_forall in Hr.
    specialize (Hr c Hc). destruct c; [|discriminate].
    destruct Hin as [<- | []]. left; reflexivity.
  - destruct (regular_S_inv _ _ Hr) as [_ Hall]. eauto.
Qed.

Lemma prune_regular (n : nat) (t : item) :
  regular n t = true -> prune t = Ok (prune_spec t).
Proof.
  intros Hr. apply prune_accurate. intros d Hd.
  destruct (subitems_regular _ _ _ Hr Hd) as [Hs | [m Hm]].
  - destruct d; [reflexivity | discriminate].
  - exact (keeps_regular _ _ Hm).
Qed.

Lemma has_leaves_well (segments : list item) :
  has_leaves (W segments) = existsb has_leaves segments.
Proof.
  unfold has_leaves. cbn [leaves].
  induction segments as [|c cs IH]; [reflexivity|].
  cbn [flat_map existsb]. rewrite <- IH.
  destruct (leaves c); reflexivity.
Qed.

Lemma prune_spec_regular (n : nat) (t : item) :
  regular n t = true ->
  if has_leaves t then regular n (prune_spec t) = true
  else prune_spec t = W [].
Proof.
  revert t. induction n as [|n IH]; intros t Hr;
    destruct (regular_is_well _ _ Hr) as [segments ->].
  - assert (Hid : prune_spec (W segments) = W segments).
    { cbn [prune_spec]. f_equal. cbn [regular] in Hr.
      rewrite forallb_forall in Hr.
      induction segments as [|c cs IHcs]; [reflexivity|].
      cbn [flat_map]. rewrite IHcs by (intros; apply Hr; right; assumption).
      specialize (Hr c (or_introl eq_refl)).
      destruct c; [reflexivity | discriminate]. }
    rewrite Hid. destruct (has_leaves (W segments)) eqn:E; [exact Hr|].
    f_equal. cbn [regular] in Hr. unfold has_leaves in E. cbn in E.
    destruct segments as [|c cs]; [reflexivity|].
    cbn in Hr. destruct c; [discriminate E | discriminate Hr].
  - destruct (regular_S_inv _ _ Hr) as [_ Hall].
    rewrite has_leaves_well. cbn [prune_spec].
    assert (Hkids : forall c, In c segments ->
               (if is_segment c || has_leaves c
                then [prune_spec c] else [])
               = if has_leaves c then [prune_spec c] else []).
    { intros c Hc. rewrite (regular_is_segment _ _ (Hall c Hc)).
      reflexivity. }
    clear Hr.
    induction segments as [|c cs IHcs]; [reflexivity|].
    cbn [existsb flat_map].
    rewrite (Hkids c) by (left; reflexivity).
    assert (Hc := IH c (Hall c (or_introl eq_refl))).
    specialize (IHcs (fun x Hx => Hall x (or_intror Hx))
                     (fun x Hx => Hkids x (or_intror Hx))).
    destruct (has_leaves c); cbn [orb app].
    + cbn [regular]. rewrite andb_true_iff. split; [reflexivity|].
      cbn [forallb]. rewrite Hc. cbn [andb].
      destruct (existsb has_leaves cs).
      * cbn [regular] in IHcs. apply andb_true_iff in IHcs as [_ IHcs].
        exact IHcs.
      * injection IHcs as ->. reflexivity.
    + exact IHcs.
Qed.

(** On a regular tree (all leaves at one depth, and only parents of
    leaves possibly without children) [prune] succeeds, removes at every
    level exactly the children that are wells without a leaf below them,
    and pruning the result again changes nothing. *)
Theorem prune_idempotent_regular (n : nat) (t : item) :
  regular n t = true ->
  exists t',
    prune t = Ok t' /\ t' = prune_spec t /\ prune t' = Ok t'.
Proof.
  intros Hr. exists (prune_spec t).
  split; [exact (prune_regular _ _ Hr)|]. split; [reflexivity|].
  pose proof (prune_spec_regular _ _ Hr) as Hp.
  destruct (has_leaves t).
  - rewrite (prune_regular _ _ Hp), prune_spec_idempotent. reflexivity.
  - rewrite Hp. reflexivity.
Qed.

(** *** Rewriting the parents of leaves *)

Lemma regular_layered (n : nat) (t : item) :
  regular n t = layered is_parent n t.
Proof.
  revert t. induction n as [|n IH]; intros [s | segments];
    try reflexivity.
  cbn [regular layered]. f_equal.
  induction segments as [|c cs IHcs]; [reflexivity|].
  cbn [forallb]. rewrite IH, IHcs. reflexivity.
Qed.

Lemma layered_S_inv (B : item -> bool) (n : nat) (t : item) :
  layered B (S n) t = true ->
  exists c cs, t = W (c :: cs) /\
               forall x, In x (c :: cs) -> layered B n x = true.
Proof.
  destruct t as [s | [|c cs]]; cbn [layered]; try discriminate.
  intros Hl. apply andb_true_iff in Hl as [_ Hall].
  rewrite forallb_forall in Hall. eauto.
Qed.

Lemma layered_is_well (B : item -> bool) (n : nat) (t : item) :
  (forall b, B b = true -> is_well b = true) ->
  layered B n t = true -> is_well t = true.
Proof.
  intros HB. destruct n; [apply HB|].
  intros Hl. destruct (layered_S_inv _ _ _ Hl) as (c & cs & -> & _).
  reflexivity.
Qed.

Lemma put_children_layered (n : nat) (segments : list item) :
  (forall c, In c segments ->
     forall news rest,
       List.length news = List.length (level_nodes n c) ->
       exists c',
         put_level c n (news ++ rest) = Ok (c', rest) /\
         level_nodes n c' = map W news /\
         forall B, Forall (fun new => B (W new) = true) news ->
                   layered B n c' = true) ->
  forall news rest,
    List.length news = List.length (flat_map (level_nodes n) segments) ->
    exists segments',
      put_children (fun well news => put_level well n news)
        segments (news ++ rest) = Ok (segments', rest) /\
      flat_map (level_nodes n) segments' = map W news /\
      List.length segments' = List.length segments /\
      forall B, Forall (fun new => B (W new) = true) news ->
                forallb (layered B n) segments' = true.
Proof.
  induction segments as [|c cs IH]; intros Hput news rest Hlen.
  - destruct news; [|discriminate]. exists []. repeat split; auto.
  - cbn [flat_map] in Hlen. rewrite length_app in Hlen.
    set (k := List.length (level_nodes n c)) in *.
    assert (Hsplit : news = firstn k news ++ skipn k news)
      by (symmetry; apply firstn_skipn).
    assert (Hk1 : List.length (firstn k news) = k)
      by (rewrite length_firstn; lia).
    assert (Hk2 : List.length (skipn k news)
                  = List.length (flat_map (level_nodes n) cs))
      by (rewrite length_skipn; lia).
    destruct (Hput c (or_introl eq_refl) (firstn k news)
                (skipn k news ++ rest) Hk1) as (c' & Hc' & Hlv & HB).
    destruct (IH (fun x Hx => Hput x (or_intror Hx))
                (skipn k news) rest Hk2) as (cs' & Hcs' & Hlvs & Hl & HBs).
    exists (c' :: cs'). cbn [put_children].
    rewrite Hsplit at 1. rewrite <- app_assoc, Hc'. cbn [bind snd fst].
    fold (put_children (fun well news => put_level well n news)).
    rewrite Hcs'. cbn [bind fst snd].
    split; [reflexivity|]. split.
    { cbn [flat_map]. rewrite Hlv, Hlvs, <- map_app, firstn_skipn.
      reflexivity. }
    split; [cbn; congruence|].
    intros B HF. rewrite Hsplit in HF. apply Forall_app in HF as [HF1 HF2].
    cbn [forallb]. rewrite (HB B HF1), (HBs B HF2). reflexivity.
Qed.

Lemma put_level_layered (n : nat) (t : item) :
  layered is_well n t = true ->
  forall news rest,
    List.length news = List.length (level_nodes n t) ->
    exists t',
      put_level t n (news ++ rest) = Ok (t', rest) /\
      level_nodes n t' = map W news /\
      forall B, Forall (fun new => B (W new) = true) news ->
                layered B n t' = true.
Proof.
  revert t. induction n as [|n IH]; intros t Hl news rest Hlen.
  - cbn [layered] in Hl. destruct t as [s | segments]; [discriminate|].
    destruct news as [|new [|? ?]]; try discriminate.
    exists (W new). repeat split; auto.
    intros B HF. inversion HF; subst. assumption.
  - destruct (layered_S_inv _ _ _ Hl) as (c & cs & -> & Hall).
    destruct (put_children_layered n (c :: cs)
                (fun x Hx => IH x (Hall x Hx)) news rest Hlen)
      as (segments' & Hput & Hlv & Hlen' & HB).
    exists (W segments'). cbn [put_level]. rewrite Hput. cbn [bind fst snd].
    split; [reflexivity|]. split; [exact Hlv|].
    intros B HF. cbn [layered]. rewrite (HB B HF).
    destruct segments'; [discriminate Hlen' | reflexivity].
Qed.

Lemma tree_depth_layered (n : nat) (t : item) :
  layered is_well n t = true ->
  exists b bs,
    level_nodes n t = b :: bs /\
    tree_depth t = (d <- tree_depth b ;; Ok (d + Z.of_nat n)).
Proof.
  revert t. induction n as [|n IH]; intros t Hl.
  - exists t, []. split; [reflexivity|].
    destruct (tree_depth t); cbn [bind]; [|reflexivity].
    f_equal. cbn. lia.
  - destruct (layered_S_inv _ _ _ Hl) as (c & cs & -> & Hall).
    assert (Hc : layered is_well n c = true)
      by (apply Hall; left; reflexivity).
    destruct (IH c Hc) as (b & bs & Hlv & Hd).
    exists b, (bs ++ flat_map (level_nodes n) cs). split.
    + cbn [level_nodes flat_map]. rewrite Hlv. reflexivity.
    + assert (Hw : is_segment c = false).
      { pose proof (layered_is_well is_well n c (fun b H => H) Hc).
        destruct c; [discriminate | reflexivity]. }
      cbn [tree_depth _has_segments forallb]. rewrite Hw. cbn [andb].
      rewrite Hd. destruct (tree_depth b); cbn [bind]; [|reflexivity].
      f_equal. lia.
Qed.

Lemma leaves_level_nodes (B : item -> bool) (n : nat) (t : item) :
  layered B n t = true ->
  leaves t = flat_map leaves (level_nodes n t).
Proof.
  revert t. induction n as [|n IH]; intros t Hl.
  - cbn. rewrite app_nil_r. reflexivity.
  - destruct (layered_S_inv _ _ _ Hl) as (c & cs & -> & Hall).
    cbn [leaves level_nodes]. revert Hall.
    generalize (c :: cs) as l. clear c cs Hl.
    induction l as [|x l IHl]; intros Hall; [reflexivity|].
    cbn [flat_map]. rewrite flat_map_app.
    rewrite <- IHl by (intros; apply Hall; right; assumption).
    rewrite <- (IH x) by (apply Hall; left; reflexivity). reflexivity.
Qed.

Lemma mapM_indexed {A B} (F : nat -> A -> res B) (G : A -> B)
    (l : list A) (start : nat) :
  (forall i x, In x l -> F i x = Ok (G x)) ->
  mapM (fun ix => F (fst ix) (snd ix))
       (combine (seq start (List.length l)) l)
  = Ok (map G l).
Proof.
  revert start. induction l as [|x l IH]; intros start HF;
    [reflexivity|].
  cbn [List.length seq combine mapM fst snd].
  rewrite (HF start x) by (left; reflexivity). cbn [bind].
  fold (mapM (fun ix : nat * A => F (fst ix) (snd ix))).
  rewrite (IH (S start)) by (intros; apply HF; right; assumption).
  reflexivity.
Qed.

(** The transforms on a regular tree, when the new [segments] of a
    parent of leaves is a function [G] of that parent: the parents
    become the wells over [G parent], the wells above them keep their
    place. *)
Lemma on_parents_regular (F : nat -> item -> res (list item))
    (G : item -> list item) (n : nat) (t : item) :
  regular n t = true ->
  (forall i well, In well (level_nodes n t) -> F i well = Ok (G well)) ->
  exists t',
    on_parents_of_leaves F t = Ok t' /\
    level_nodes n t' = map (fun well => W (G well)) (level_nodes n t) /\
    forall B,
      Forall (fun well => B (W (G well)) = true) (level_nodes n t) ->
      layered B n t' = true.
Proof.
  intros Hr HF. unfold on_parents_of_leaves, assign_segments.
  rewrite (iter_level_parents _ _ Hr). cbn [bind].
  rewrite (mapM_indexed F G _ 0 HF). cbn [bind].
  rewrite (regular_tree_depth _ _ Hr). cbn [bind].
  replace (Z.to_nat (Z.of_nat n + 2 - 2)) with n by lia.
  assert (Hw : layered is_well n t = true).
  { clear HF. rewrite regular_layered in Hr. revert t Hr.
    induction n as [|n IH]; intros t Hr.
    - destruct t; [discriminate | reflexivity].
    - destruct (layered_S_inv _ _ _ Hr) as (c & cs & -> & Hall).
      cbn [layered]. apply forallb_forall. intros x Hx.
      apply IH, Hall, Hx. }
  destruct (put_level_layered n t Hw (map G (level_nodes n t)) [])
    as (t' & Hput & Hlv & HB); [apply length_map|].
  rewrite app_nil_r in Hput. rewrite Hput. cbn [bind fst].
  exists t'. split; [reflexivity|]. split.
  - rewrite Hlv, map_map. reflexivity.
  - intros B HF'. apply HB. apply Forall_map. exact HF'.
Qed.

Lemma level_nodes_layered (B : item -> bool) (n : nat) (t : item) :
  layered B n t = true -> Forall (fun b => B b = true) (level_nodes n t).
Proof.
  revert t. induction n as [|n IH]; intros t Hl.
  - constructor; [exact Hl | constructor].
  - destruct (layered_S_inv _ _ _ Hl) as (c & cs & -> & Hall).
    cbn [level_nodes]. apply List.Forall_forall. intros b Hb.
    apply in_flat_map in Hb as (x & Hx & Hb).
    specialize (IH x (Hall x Hx)). rewrite List.Forall_forall in IH. auto.
Qed.

Lemma parent_segments (segments : list item) :
  forallb is_segment segments = true ->
  segments = map Seg (flat_map leaves segments).
Proof.
  induction segments as [|c cs IH]; [reflexivity|].
  cbn [forallb]. intros Hp. apply andb_true_iff in Hp as [Hc Hcs].
  destruct c; [|discriminate]. cbn. f_equal. auto.
Qed.

Lemma regular_parents (n : nat) (t well : item) :
  regular n t = true -> In well (level_nodes n t) ->
  well = W (map Seg (leaves well)) /\
  forall s, In s (leaves well) -> In s (leaves t).
Proof.
  intros Hr Hin. rewrite regular_layered in Hr.
  pose proof (level_nodes_layered _ _ _ Hr) as Hp.
  rewrite List.Forall_forall in Hp. specialize (Hp well Hin).
  split.
  - destruct well as [s | segments]; [discriminate|].
    cbn [leaves]. f_equal. apply parent_segments. exact Hp.
  - intros s Hs. rewrite (leaves_level_nodes _ _ _ Hr).
    apply in_flat_map. eauto.
Qed.

(** C7 (as amended).  On a node of tree depth [d], [iter_level(level)]
    first adds [d] to a negative [level]; it raises the invalid-level
    error when [level < -d] or [level > d]; otherwise it returns
    [[self]] at level 0, the [segments] at level 1, and beyond that the
    concatenation, in order, of [iter_level(level - 1)] of the
    children.  On a regular tree, whose tree depth is the depth of its
    leaves, the level -1 is the leaves of the tree in order and the
    level -2 the parents of leaves: wells all of whose children are
    leaves, and whose leaves, taken in order, are the leaves of the
    tree. *)
Theorem iter_level_addressing (segments : list item) (level d : Z) :
  tree_depth (W segments) = Ok d ->
  let level' := normalized d level in
  ((level < 0 -> level' = d + level) /\ (0 <= level -> level' = level)) /\
  (level < - d \/ d < level ->
   iter_level (W segments) level = Raise (InvalidLevel level' d)) /\
  (level' = 0 -> 0 <= d ->
   iter_level (W segments) level = Ok [W segments]) /\
  (level' = 1 -> 1 <= d ->
   iter_level (W segments) level = Ok segments) /\
  (2 <= level' <= d ->
   iter_level (W segments) level =
   fmap_res (@concat item)
     (mapM (fun well => iter_level well (level' - 1)) segments)) /\
  (forall n, regular n (W segments) = true ->
     d = Z.of_nat n + 2 /\
     iter_level (W segments) (-1) = Ok (map Seg (leaves (W segments))) /\
     iter_level (W segments) (-2) = Ok (level_nodes n (W segments)) /\
     Forall (fun well => is_parent well = true)
       (level_nodes n (W segments)) /\
     flat_map leaves (level_nodes n (W segments)) = leaves (W segments)).
Proof.
  intros Hd level'.
  destruct (iter_level_cases segments level d Hd)
    as (Hneg & Hpos & Hout & _ & H0 & H1 & Hrec).
  split; [split; assumption|]. split; [exact Hout|].
  split; [exact H0|]. split; [exact H1|]. split; [exact Hrec|].
  intros n Hr.
  pose proof (regular_tree_depth _ _ Hr) as Hdn.
  split; [congruence|].
  split; [exact (iter_level_leaves _ _ Hr)|].
  split; [exact (iter_level_parents _ _ Hr)|].
  rewrite regular_layered in Hr.
  split; [exact (level_nodes_layered _ _ _ Hr)|].
  symmetry. exact (leaves_level_nodes _ _ _ Hr).
Qed.

Lemma first_parent (n : nat) (t : item) :
  regular n t = true -> first_parent_has_leaf t = true ->
  exists well wells s ss,
    level_nodes n t = well :: wells /\ leaves well = s :: ss.
Proof.
  revert t. induction n as [|n IH]; intros t Hr Hf.
  - destruct t as [s | [|[s | segs] cs]]; try discriminate.
    exists (W (Seg s :: cs)), [], s, (flat_map leaves cs).
    split; reflexivity.
  - destruct (regular_is_well _ _ Hr) as [segments ->].
    destruct (regular_S_inv _ _ Hr) as [Hne Hall].
    destruct segments as [|c cs]; [congruence|].
    assert (Hc : regular n c = true) by (apply Hall; left; reflexivity).
    destruct (regular_is_well _ _ Hc) as [segs ->].
    cbn [first_parent_has_leaf] in Hf.
    destruct (IH _ Hc Hf) as (well & wells & s & ss & Hlv & Hls).
    exists well, (wells ++ flat_map (level_nodes n) cs), s, ss.
    split; [|exact Hls]. cbn [level_nodes flat_map]. rewrite Hlv.
    reflexivity.
Qed.

Lemma mapM_wrap (op : WellSegment -> res (list WellSegment))
    (f : WellSegment -> list WellSegment) (ls : list WellSegment) :
  (forall s, In s ls -> op s = Ok (f s)) ->
  mapM (wrap op) (map Seg ls)
  = Ok (map (fun s => W (map Seg (f s))) ls).
Proof.
  induction ls as [|s ls IH]; intros Hop; [reflexivity|].
  cbn [map mapM wrap]. rewrite (Hop s) by (left; reflexivity).
  cbn [bind]. fold (mapM (wrap op)).
  rewrite IH by (intros; apply Hop; right; assumption). reflexivity.
Qed.

Lemma tree_depth_leaves_well (ls : list WellSegment) :
  tree_depth (W (map Seg ls)) = Ok 2.
Proof.
  cbn [tree_depth]. unfold _has_segments.
  replace (forallb is_segment (map Seg ls)) with true; [reflexivity|].
  symmetry. apply forallb_forall. intros c Hc.
  apply in_map_iff in Hc as (s & <- & _). reflexivity.
Qed.

Lemma tree_depth_wrappers (ls : list WellSegment) (rest : list item) :
  tree_depth (W (W (map Seg ls) :: rest)) = Ok 3.
Proof.
  change (tree_depth (W (W (map Seg ls) :: rest)))
    with (d <- tree_depth (W (map Seg ls)) ;; Ok (d + 1)).
  rewrite tree_depth_leaves_well. reflexivity.
Qed.

(** A transform that wraps the result of a leaf operation [op], on a
    regular tree on whose leaves [op] returns the lists [f s]. *)
Lemma wrap_parents_regular (op : WellSegment -> res (list WellSegment))
    (f : WellSegment -> list WellSegment) (n : nat) (t : item) :
  regular n t = true ->
  (forall s, In s (leaves t) -> op s = Ok (f s)) ->
  exists t',
    on_parents_of_leaves
      (fun _ well => segments <- segments_of well ;;
                     mapM (wrap op) segments) t = Ok t' /\
    level_nodes n t'
    = map (fun well => W (map (fun s => W (map Seg (f s))) (leaves well)))
          (level_nodes n t) /\
    (first_parent_has_leaf t = true ->
     tree_depth t' = Ok (Z.of_nat n + 3)).
Proof.
  intros Hr Hop.
  destruct (on_parents_regular
              (fun _ well => segments <- segments_of well ;;
                             mapM (wrap op) segments)
              (fun well => map (fun s => W (map Seg (f s))) (leaves well))
              n t Hr) as (t' & Ht' & Hlv & HB).
  { intros _ well Hin.
    destruct (regular_parents _ _ _ Hr Hin) as [Hw Hsub].
    rewrite Hw at 1. cbn [segments_of bind].
    apply mapM_wrap. intros s Hs. apply Hop, Hsub, Hs. }
  exists t'. split; [exact Ht'|]. split; [exact Hlv|].
  intros Hfirst.
  destruct (first_parent _ _ Hr Hfirst) as (well & wells & s & ss & Hw & Hs).
  destruct (tree_depth_layered n t') as (b & bs & Hb & Hd).
  { apply HB. apply List.Forall_forall. reflexivity. }
  rewrite Hlv, Hw in Hb. cbn [map] in Hb. injection Hb as <- _.
  rewrite Hd, Hs. cbn [map]. rewrite tree_depth_wrappers.
  cbn [bind]. f_equal. lia.
Qed.

Lemma leaves_map_Seg (ls : list WellSegment) :
  flat_map leaves (map Seg ls) = ls.
Proof. induction ls; cbn; congruence. Qed.

Lemma filter_flat_map {A B} (p : B -> bool) (f : A -> list B) (l : list A) :
  List.filter p (flat_map f l) = flat_map (fun x => List.filter p (f x)) l.
Proof.
  induction l as [|x l IH]; [reflexivity|].
  cbn [flat_map]. rewrite List.filter_app, IH. reflexivity.
Qed.

Lemma filter_none {A} (p : A -> bool) (l : list A) :
  (forall x, In x l -> p x = false) -> List.filter p l = [].
Proof.
  induction l as [|x l IH]; intros Hp; [reflexivity|].
  cbn [List.filter]. rewrite (Hp x) by (left; reflexivity).
  apply IH. intros; apply Hp; right; assumption.
Qed.

Lemma no_leaves_level (k : nat) (t d : item) :
  has_leaves t = false -> In d (level_nodes k t) -> has_leaves d = false.
Proof.
  revert t. induction k as [|k IH]; intros t Ht Hd.
  - destruct Hd as [<- | []]. exact Ht.
  - destruct t as [s | segments]; [destruct Hd|].
    cbn [level_nodes] in Hd. apply in_flat_map in Hd as (x & Hx & Hd).
    rewrite has_leaves_well in Ht.
    apply (IH x); [|exact Hd].
    destruct (has_leaves x) eqn:E; [|reflexivity].
    rewrite <- Ht. symmetry. apply existsb_exists. eauto.
Qed.

Lemma prune_spec_parent (t : item) :
  is_parent t = true -> prune_spec t = t.
Proof.
  destruct t as [s | segments]; [reflexivity|]. cbn [is_parent prune_spec].
  intros Hp. f_equal.
  induction segments as [|c cs IH]; [reflexivity|].
  cbn [forallb] in Hp. apply andb_true_iff in Hp as [Hc Hcs].
  destruct c; [|discriminate]. cbn. f_equal. auto.
Qed.

Lemma level_nodes_prune_spec (n : nat) (t : item) :
  regular n t = true -> has_leaves t = true ->
  level_nodes n (prune_spec t)
  = List.filter has_leaves (level_nodes n t).
Proof.
  revert t. induction n as [|n IH]; intros t Hr Hl.
  - rewrite prune_spec_parent by (rewrite regular_layered in Hr; exact Hr).
    cbn. rewrite Hl. reflexivity.
  - destruct (regular_is_well _ _ Hr) as [segments ->].
    destruct (regular_S_inv _ _ Hr) as [_ Hall]. clear Hr Hl.
    cbn [prune_spec level_nodes].
    induction segments as [|c cs IHcs]; [reflexivity|].
    cbn [flat_map]. rewrite flat_map_app, List.filter_app.
    rewrite IHcs by (intros; apply Hall; right; assumption).
    f_equal.
    rewrite (regular_is_segment _ _ (Hall c (or_introl eq_refl))).
    cbn [orb]. destruct (has_leaves c) eqn:E.
    + cbn [flat_map]. rewrite app_nil_r.
      apply IH; [apply Hall; left; reflexivity | exact E].
    + cbn [flat_map]. symmetry. apply filter_none.
      intros d Hd. exact (no_leaves_level _ _ _ E Hd).
Qed.

Lemma filterM_length (min_length : Z) (ls : list WellSegment) :
  filterM (fun segment => l <- length segment ;; Ok (min_length <? l))
    (map Seg ls)
  = Ok (map Seg (List.filter (fun s => min_length <? seg_length s) ls)).
Proof.
  induction ls as [|s ls IH]; [reflexivity|].
  cbn [map filterM length bind List.filter].
  fold (filterM (fun segment => l <- length segment ;; Ok (min_length <? l))).
  rewrite IH. cbn [bind].
  destruct (min_length <? seg_length s); reflexivity.
Qed.

Lemma drop_short_segments_regular (n : nat) (t : item) (min_length : Z) :
  regular n t = true ->
  exists mid,
    regular n mid = true /\
    level_nodes n mid
    = map (fun well =>
             W (map Seg (List.filter (fun s => min_length <? seg_length s)
                                     (leaves well))))
          (level_nodes n t) /\
    leaves mid
    = List.filter (fun s => min_length <? seg_length s) (leaves t) /\
    drop_short_segments t min_length = Ok (prune_spec mid).
Proof.
  intros Hr. set (p := fun s => min_length <? seg_length s).
  destruct (on_parents_regular
              (fun _ well =>
                 segments <- segments_of well ;;
                 filterM (fun segment => l <- length segment ;;
                                         Ok (min_length <? l)) segments)
              (fun well => map Seg (List.filter p (leaves well)))
              n t Hr) as (mid & Hmid & Hlv & HB).
  { intros _ well Hin.
    destruct (regular_parents _ _ _ Hr Hin) as [Hw _].
    rewrite Hw at 1. cbn [segments_of bind]. apply filterM_length. }
  assert (Hrm : regular n mid = true).
  { rewrite regular_layered. apply HB. apply List.Forall_forall.
    intros well _. cbn [is_parent]. apply forallb_forall.
    intros c Hc. apply in_map_iff in Hc as (s & <- & _). reflexivity. }
  exists mid. split; [exact Hrm|]. split; [exact Hlv|]. split.
  - pose proof Hr as Hr'. rewrite regular_layered in Hr', Hrm.
    rewrite (leaves_level_nodes _ _ _ Hrm), Hlv.
    rewrite (leaves_level_nodes _ _ _ Hr'), filter_flat_map.
    clear. induction (level_nodes n t) as [|well wells IH]; [reflexivity|].
    cbn [map flat_map leaves]. rewrite leaves_map_Seg, IH. reflexivity.
  - unfold drop_short_segments. rewrite Hmid. cbn [bind].
    apply (prune_regular _ _ Hrm).
Qed.

(** C9 (as amended).  On a regular tree [t] with [n] levels of wells
    above the parents of leaves, [tree_depth] is [n + 2].
    [create_segments] and [crop] replace the children of every parent
    of leaves by one new well per original leaf, over the leaves that
    the leaf operation returned for it, and the tree depth becomes
    [n + 3] when the first parent of leaves has a leaf.
    [drop_short_segments(min_length)] keeps exactly the leaves whose
    length is greater than [min_length], the parents of leaves that
    are left being those that keep a leaf, and the tree depth stays
    [n + 2] when a leaf is left. *)
Theorem transforms_tree_depth (n : nat) (t : item)
    (src : string) (connected : bool) (length_ step : Z)
    (drop_last : bool) (min_length : Z)
    (f g : WellSegment -> list WellSegment) :
  regular n t = true ->
  tree_depth t = Ok (Z.of_nat n + 2) /\
  ((forall s, In s (leaves t) ->
              segment_create_segments s src connected = Ok (f s)) ->
   exists t',
     create_segments t src connected = Ok t' /\
     level_nodes n t'
     = map (fun well => W (map (fun s => W (map Seg (f s))) (leaves well)))
           (level_nodes n t) /\
     (first_parent_has_leaf t = true ->
      tree_depth t' = Ok (Z.of_nat n + 2 + 1))) /\
  ((forall s, In s (leaves t) ->
              segment_crop s length_ step drop_last = Ok (g s)) ->
   exists t',
     crop t length_ step drop_last = Ok t' /\
     level_nodes n t'
     = map (fun well => W (map (fun s => W (map Seg (g s))) (leaves well)))
           (level_nodes n t) /\
     (first_parent_has_leaf t = true ->
      tree_depth t' = Ok (Z.of_nat n + 2 + 1))) /\
  exists t',
    drop_short_segments t min_length = Ok t' /\
    leaves t'
    = List.filter (fun s => min_length <? seg_length s) (leaves t) /\
    (leaves t' <> [] ->
     tree_depth t' = Ok (Z.of_nat n + 2) /\
     level_nodes n t'
     = List.filter has_leaves
         (map (fun well =>
                 W (map Seg (List.filter
                               (fun s => min_length <? seg_length s)
                               (leaves well))))
              (level_nodes n t))).
Proof.
  intros Hr. split; [exact (regular_tree_depth _ _ Hr)|].
  split; [|split].
  - intros Hop.
    destruct (wrap_parents_regular _ f n t Hr Hop) as (t' & Ht' & Hlv & Hd).
    exists t'. split; [exact Ht'|]. split; [exact Hlv|].
    intros Hf. rewrite (Hd Hf). f_equal. lia.
  - intros Hop.
    destruct (wrap_parents_regular _ g n t Hr Hop) as (t' & Ht' & Hlv & Hd).
    exists t'. split; [exact Ht'|]. split; [exact Hlv|].
    intros Hf. rewrite (Hd Hf). f_equal. lia.
  - destruct (drop_short_segments_regular n t min_length Hr)
      as (mid & Hrm & Hlv & Hleaves & Hdrop).
    exists (prune_spec mid). split; [exact Hdrop|].
    split; [rewrite leaves_prune_spec; exact Hleaves|].
    rewrite leaves_prune_spec. intros Hne.
    assert (Hl : has_leaves mid = true).
    { unfold has_leaves. destruct (leaves mid); [congruence | reflexivity]. }
    pose proof (prune_spec_regular _ _ Hrm) as Hp. rewrite Hl in Hp.
    split; [exact (regular_tree_depth _ _ Hp)|].
    rewrite (level_nodes_prune_spec _ _ Hrm Hl), Hlv. reflexivity.
Qed.

(** *** Counting draws *)









(** *** Random crops *)

Lemma layered_mono (B B' : item -> bool) (n : nat) (t : item) :
  (forall b, B b = true -> B' b = true) ->
  layered B n t = true -> layered B' n t = true.
Proof.
  intros HB. revert t. induction n as [|n IH]; intros t Hl; [apply HB, Hl|].
  destruct (layered_S_inv _ _ _ Hl) as (c & cs & -> & Hall).
  cbn [layered]. apply forallb_forall. intros x Hx. apply IH, Hall, Hx.
Qed.

Lemma mapM_indexed_nth {A B} (F : nat -> A -> res B) (G : nat -> A -> B)
    (l : list A) (start : nat) :
  (forall i x, nth_error l i = Some x ->
               F (start + i)%nat x = Ok (G (start + i)%nat x)) ->
  mapM (fun ix => F (fst ix) (snd ix)) (combine (seq start (List.length l)) l)
  = Ok (map (fun ix => G (fst ix) (snd ix))
            (combine (seq start (List.length l)) l)).
Proof.
  revert start. induction l as [|x l IH]; intros start HF; [reflexivity|].
  cbn [List.length seq combine mapM map fst snd].
  pose proof (HF 0%nat x eq_refl) as H0. rewrite Nat.add_0_r in H0.
  rewrite H0. cbn [bind].
  fold (mapM (fun ix : nat * A => F (fst ix) (snd ix))).
  rewrite (IH (S start)); [reflexivity|].
  intros i y Hy. specialize (HF (S i) y Hy).
  replace (S start + i)%nat with (start + S i)%nat by lia. exact HF.
Qed.

(** [assign_segments] on a regular tree, when the new [segments] of the
    [i]-th parent of leaves is [G i parent]. *)
Lemma assign_segments_regular (F : nat -> item -> res (list item))
    (G : nat -> item -> list item) (n : nat) (t : item) :
  regular n t = true ->
  (forall i well, nth_error (level_nodes n t) i = Some well ->
                  F i well = Ok (G i well)) ->
  exists t',
    assign_segments F t (level_nodes n t) = Ok t' /\
    level_nodes n t'
    = map (fun ix => W (G (fst ix) (snd ix)))
          (combine (seq 0 (List.length (level_nodes n t))) (level_nodes n t)) /\
    forall B,
      Forall (fun ix => B (W (G (fst ix) (snd ix))) = true)
             (combine (seq 0 (List.length (level_nodes n t)))
                      (level_nodes n t)) ->
      layered B n t' = true.
Proof.
  intros Hr HF. unfold assign_segments.
  rewrite (mapM_indexed_nth F G _ 0 HF). cbn [bind].
  rewrite (regular_tree_depth _ _ Hr). cbn [bind].
  replace (Z.to_nat (Z.of_nat n + 2 - 2)) with n by lia.
  assert (Hw : layered is_well n t = true).
  { rewrite regular_layered in Hr. revert Hr. apply layered_mono.
    intros [s | segments]; [discriminate | reflexivity]. }
  destruct (put_level_layered n t Hw
              (map (fun ix => G (fst ix) (snd ix))
                   (combine (seq 0 (List.length (level_nodes n t)))
                            (level_nodes n t))) [])
    as (t' & Hput & Hlv & HB).
  { rewrite length_map, length_combine, length_seq. lia. }
  rewrite app_nil_r in Hput. rewrite Hput. cbn [bind fst].
  exists t'. split; [reflexivity|]. split.
  - rewrite Hlv, map_map. reflexivity.
  - intros B HF'. apply HB. apply Forall_map. exact HF'.
Qed.

Lemma mapM_exists {A B} (f : A -> res B) (P : A -> B -> Prop) (l : list A) :
  (forall x, In x l -> exists y, f x = Ok y /\ P x y) ->
  exists ys, mapM f l = Ok ys /\ Forall2 P l ys.
Proof.
  induction l as [|x l IH]; intros Hf.
  - exists []. split; [reflexivity | constructor].
  - destruct (Hf x (or_introl eq_refl)) as (y & Hy & Hp).
    destruct (IH (fun z Hz => Hf z (or_intror Hz))) as (ys & Hys & HF).
    exists (y :: ys). cbn [mapM]. rewrite Hy. cbn [bind].
    fold (mapM f). rewrite Hys. split; [reflexivity|].
    constructor; assumption.
Qed.

Lemma concat_nil_leaves (l : list item) (ys : list (list item)) :
  Forall2 (fun c y => y = [] <-> leaves c = []) l ys ->
  concat ys = [] <-> flat_map leaves l = [].
Proof.
  induction 1 as [|c y l ys Hcy _ IH]; [split; reflexivity|].
  cbn [concat flat_map]. split; intros Hnil;
    apply app_eq_nil in Hnil as [H1 H2].
  - rewrite (proj1 Hcy H1), (proj1 IH H2). reflexivity.
  - rewrite (proj2 Hcy H1), (proj2 IH H2). reflexivity.
Qed.

(** One step of [iter_level] below a well, for a level that passes the
    guard. *)
Lemma iter_level_children (segments : list item) (d k : Z) :
  tree_depth (W segments) = Ok d -> 2 <= k <= d ->
  (forall c, In c segments ->
     exists l, iter_level c (k - 1) = Ok l /\ (l = [] <-> leaves c = [])) ->
  exists l,
    iter_level (W segments) k = Ok l /\ (l = [] <-> leaves (W segments) = []).
Proof.
  intros Hd Hk Hkids.
  destruct (iter_level_cases segments k d Hd) as (_ & Hpos & _ & _ & _ & _ & Hrec).
  rewrite Hpos in Hrec by lia. rewrite (Hrec Hk).
  destruct (mapM_exists _ _ _ Hkids) as (ys & Hys & HF).
  rewrite Hys. exists (concat ys). split; [reflexivity|].
  cbn [leaves]. apply concat_nil_leaves. exact HF.
Qed.

Lemma cropped_regular (t : item) :
  is_cropped t = true ->
  t = W [] \/ (regular 1 t = true /\ has_leaves t = true).
Proof.
  destruct t as [s | [|w ws]]; [discriminate | left; reflexivity |].
  intros Hc. right. cbn [is_cropped] in Hc.
  rewrite forallb_forall in Hc. split.
  - change (regular 1 (W (w :: ws)))
      with (true && forallb (regular 0) (w :: ws)).
    cbn [andb]. apply forallb_forall. intros x Hx.
    specialize (Hc x Hx). apply andb_true_iff in Hc as [Hp _].
    rewrite regular_layered. exact Hp.
  - rewrite has_leaves_well. apply existsb_exists. exists w.
    split; [left; reflexivity|].
    specialize (Hc w (or_introl eq_refl)).
    apply andb_true_iff in Hc as [_ Hl]. exact Hl.
Qed.

Lemma has_leaves_nil (t : item) : has_leaves t = false <-> leaves t = [].
Proof. unfold has_leaves. destruct (leaves t); split; congruence. Qed.

(** In the tree that [random_crop] builds, the depth inferred from the
    first child is the real depth or one less, and the two levels that
    [n_segments] may then count are empty exactly when there is no leaf. *)
Lemma cropped_levels (m : nat) (t : item) :
  layered is_cropped m t = true ->
  (tree_depth t = Ok (Z.of_nat m + 2) \/ tree_depth t = Ok (Z.of_nat m + 3)) /\
  (exists l, iter_level t (Z.of_nat m + 1) = Ok l /\
             (l = [] <-> leaves t = [])) /\
  (exists l, iter_level t (Z.of_nat m + 2) = Ok l /\
             (l = [] <-> leaves t = [])).
Proof.
  revert t. induction m as [|m IH]; intros t Hl.
  - cbn [layered] in Hl.
    destruct (cropped_regular _ Hl) as [-> | [Hr Hleaves]].
    + split; [left; reflexivity|].
      split; exists []; (split; [reflexivity | split; intros _; reflexivity]).
    + split; [right; exact (regular_tree_depth _ _ Hr)|].
      assert (Hne : leaves t <> []).
      { intros E. apply has_leaves_nil in E. congruence. }
      split.
      * exists (level_nodes 1 t).
        split; [apply (iter_level_regular 1 t 1 Hr); lia|].
        split; [|intros E; contradiction].
        intros E. destruct t as [s | [|w ws]]; discriminate.
      * exists (map Seg (leaves t)).
        split.
        { rewrite <- (level_nodes_leaves _ _ Hr).
          apply (iter_level_regular 1 t 2 Hr). lia. }
        split; [|intros E; contradiction].
        intros E. apply map_eq_nil in E. contradiction.
  - destruct (layered_S_inv _ _ _ Hl) as (c & cs & -> & Hall).
    assert (Hc := Hall c (or_introl eq_refl)).
    assert (Hw : is_segment c = false).
    { assert (Hcw : is_well c = true).
      { apply (layered_is_well is_cropped m); [|exact Hc].
        intros [s | segs]; [discriminate | reflexivity]. }
      destruct c; [discriminate | reflexivity]. }
    assert (Hd : tree_depth (W (c :: cs))
                 = (d <- tree_depth c ;; Ok (d + 1))).
    { cbn [tree_depth _has_segments forallb]. rewrite Hw. reflexivity. }
    destruct (IH c Hc) as (Hdc & _ & _).
    assert (Hd' : exists d, tree_depth (W (c :: cs)) = Ok d /\
                            (d = Z.of_nat (S m) + 2 \/ d = Z.of_nat (S m) + 3)).
    { destruct Hdc as [Hdc | Hdc]; rewrite Hd, Hdc; cbn [bind];
        eexists; (split; [reflexivity|]); lia. }
    destruct Hd' as (d & Hdd & Hrange).
    split.
    { destruct Hrange as [-> | ->]; [left | right]; exact Hdd. }
    split.
    + apply (iter_level_children _ d); [exact Hdd | lia |].
      intros x Hx. destruct (IH x (Hall x Hx)) as (_ & (l & Hl1 & Hl2) & _).
      exists l. split; [|exact Hl2]. rewrite <- Hl1. f_equal. lia.
    + apply (iter_level_children _ d); [exact Hdd | lia |].
      intros x Hx. destruct (IH x (Hall x Hx)) as (_ & _ & (l & Hl1 & Hl2)).
      exists l. split; [|exact Hl2]. rewrite <- Hl1. f_equal. lia.
Qed.

Lemma keeps_cropped (m : nat) (t : item) :
  layered is_cropped m t = true ->
  keeps t = Ok (is_segment t || has_leaves t).
Proof.
  intros Hl.
  assert (Hw : is_well t = true).
  { apply (layered_is_well is_cropped m); [|exact Hl].
    intros [s | segs]; [discriminate | reflexivity]. }
  destruct t as [s | segments]; [discriminate|].
  destruct (cropped_levels _ _ Hl)
    as (Hd & (l1 & Hl1 & Hn1) & (l2 & Hl2 & Hn2)).
  assert (Hit : exists l, iter_level (W segments) (-1) = Ok l /\
                          (l = [] <-> leaves (W segments) = [])).
  { destruct Hd as [Hd | Hd];
      rewrite (iter_level_negative _ _ _ Hd) by lia.
    - exists l1. split; [|exact Hn1]. rewrite <- Hl1. f_equal. lia.
    - exists l2. split; [|exact Hn2]. rewrite <- Hl2. f_equal. lia. }
  destruct Hit as (l & Hit & Hnil).
  unfold keeps, n_segments. rewrite Hit. cbn [bind is_segment orb]. f_equal.
  destruct (has_leaves (W segments)) eqn:E.
  - destruct l; [|reflexivity].
    pose proof (proj2 (has_leaves_nil _) (proj1 Hnil eq_refl)). congruence.
  - rewrite (proj2 Hnil (proj1 (has_leaves_nil _) E)). reflexivity.
Qed.

Lemma subitems_cropped (m : nat) (t d : item) :
  layered is_cropped m t = true -> In d (subitems t) ->
  is_segment d = true \/
  (exists k, layered is_cropped k d = true) \/
  (exists k, regular k d = true).
Proof.
  revert t. induction m as [|m IH]; intros t Hl Hin.
  - destruct t as [s | segments]; [discriminate|].
    apply subitems_well in Hin as [-> | (w & Hw & Hin)].
    + right. left. exists 0%nat. exact Hl.
    + cbn [layered is_cropped] in Hl. rewrite forallb_forall in Hl.
      specialize (Hl w Hw). apply andb_true_iff in Hl as [Hp _].
      rewrite <- (regular_layered 0) in Hp.
      destruct (subitems_regular _ _ _ Hp Hin) as [Hs | Hr]; auto.
  - destruct (layered_S_inv _ _ _ Hl) as (c & cs & -> & Hall).
    apply subitems_well in Hin as [-> | (x & Hx & Hin)].
    + right. left. exists (S m). exact Hl.
    + apply (IH x (Hall x Hx) Hin).
Qed.

Lemma prune_cropped (m : nat) (t : item) :
  layered is_cropped m t = true -> prune t = Ok (prune_spec t).
Proof.
  intros Hl. apply prune_accurate. intros d Hd.
  destruct (subitems_cropped _ _ _ Hl Hd) as [Hs | [[k Hk] | [k Hk]]].
  - destruct d; [reflexivity | discriminate].
  - exact (keeps_cropped _ _ Hk).
  - exact (keeps_regular _ _ Hk).
Qed.

(** After pruning as specified, every well that is left has a leaf. *)
Lemma no_bare_well_prune_spec (t : item) :
  is_segment t || has_leaves t = true ->
  no_bare_well (prune_spec t) = true.
Proof.
  induction t as [s | segments IH] using item_ind'; [reflexivity|].
  intros Hl. cbn [is_segment orb] in Hl.
  change (no_bare_well (prune_spec (W segments)))
    with (has_leaves (prune_spec (W segments))
          && forallb no_bare_well
               (flat_map (fun well => if is_segment well || has_leaves well
                                      then [prune_spec well] else [])
                         segments)).
  rewrite has_leaves_prune_spec, Hl. cbn [andb].
  apply forallb_forall. intros x Hx.
  apply in_flat_map in Hx as (c & Hc & Hx).
  destruct (is_segment c || has_leaves c) eqn:E; [|destruct Hx].
  destruct Hx as [<- | []]. rewrite List.Forall_forall in IH.
  apply (IH c Hc E).
Qed.


Lemma py_sum_nonneg (l : list Z) :
  (forall x, In x l -> 0 <= x) -> 0 <= py_sum l.
Proof.
  induction l as [|x l IH]; intros Hl; cbn [py_sum fold_right]; [lia|].
  fold (py_sum l). specialize (Hl x (or_introl eq_refl)) as Hx.
  specialize (IH (fun y Hy => Hl y (or_intror Hy))). lia.
Qed.

Lemma py_sum_pos (l : list Z) (x : Z) :
  (forall y, In y l -> 0 <= y) -> In x l -> 0 < x -> 0 < py_sum l.
Proof.
  induction l as [|y l IH]; intros Hl Hin Hx; [destruct Hin|].
  cbn [py_sum fold_right]. fold (py_sum l).
  pose proof (Hl y (or_introl eq_refl)) as Hy.
  pose proof (py_sum_nonneg l (fun z Hz => Hl z (or_intror Hz))) as Hs.
  destruct Hin as [-> | Hin]; [lia|].
  specialize (IH (fun z Hz => Hl z (or_intror Hz)) Hin Hx). lia.
Qed.

Lemma random_choice_ok (w : list Z) (size : Z) (draws : list nat) :
  (forall x, In x w -> 0 <= x) -> 0 < py_sum w -> 0 <= size ->
  random_choice w size draws = Ok draws.
Proof.
  intros Hw Hs Hsize. unfold random_choice.
  destruct (Z.eqb_spec (py_sum w) 0); [lia|].
  destruct (Z.ltb_spec size 0); [lia|].
  replace (existsb (fun x => x * py_sum w <? 0) w) with false; [reflexivity|].
  symmetry. apply not_true_is_false. intros He.
  apply existsb_exists in He as (x & Hx & Hlt).
  apply Z.ltb_lt in Hlt. specialize (Hw x Hx). nia.
Qed.

Lemma mapM_length_leaves (ls : list WellSegment) :
  mapM length (map Seg ls) = Ok (map seg_length ls).
Proof.
  induction ls as [|s ls IH]; [reflexivity|].
  cbn [map mapM length bind]. fold (mapM length). rewrite IH. reflexivity.
Qed.








(** The weights of the first sampling. *)
Lemma first_stage_weights (n : nat) (t : item) :
  regular n t = true ->
  mapM (fun item =>
          segments <- segments_of item ;;
          ls <- mapM length segments ;;
          Ok (py_sum ls)) (level_nodes n t)
  = Ok (map leaf_length_total (level_nodes n t)).
Proof.
  intros Hr. apply mapM_Ok_map. intros well Hin.
  destruct (regular_parents _ _ _ Hr Hin) as [Hw _].
  rewrite Hw at 1. cbn [segments_of bind]. rewrite mapM_length_leaves.
  reflexivity.
Qed.

Lemma leaf_length_total_nonneg (n : nat) (t well : item) :
  regular n t = true ->
  (forall s, In s (leaves t) -> 0 <= seg_length s) ->
  In well (level_nodes n t) -> 0 <= leaf_length_total well.
Proof.
  intros Hr Hnonneg Hin.
  destruct (regular_parents _ _ _ Hr Hin) as [_ Hsub].
  apply py_sum_nonneg. intros y Hy.
  apply in_map_iff in Hy as (s & <- & Hs). auto.
Qed.



End with_segment_ops.

End WellFacts.

(** ** The properties on concrete batches and trees *)

Module Runs.
Import WellBatch Dispatcher Well Tree Samples.

(** A batch of one root that skips: the call raises the batch-level
    skip and the batch keeps its root, although one root skipped and
    none failed. *)
Lemma filter_assemble_sole_root_skipped :
  let results := [Skipped "no core"] in
  List.length results = List.length (index batch_1) /\
  existsb is_failure results = false /\
  n_skipped results = 1%nat /\
  _filter_assemble str_well batch_1 results
  = (Raise (SkipBatchException "no core"), batch_1, []) /\
  List.length (wells batch_1)
  <> (List.length results - n_skipped results)%nat.
Proof. cbv zeta. repeat split; try reflexivity. cbn. lia. Qed.

Lemma filter_assemble_drops_skipped_run :
  let results :=
    [Returned well_ab; Skipped "no core"; Returned well_abc] in
  (List.length results = List.length (index batch_3) /\
   existsb is_failure results = false /\
   (n_skipped results < List.length results)%nat) /\
  exists self',
    _filter_assemble str_well batch_3 results = (Ok tt, self', []) /\
    index self' = ["well_1"; "well_3"]%string /\
    wells self' = [Returned well_ab; Returned well_abc].
Proof.
  cbv zeta.
  assert (H1 : List.length
                 [Returned well_ab; Skipped "no core"; Returned well_abc]
               = List.length (index batch_3)) by reflexivity.
  assert (H2 : existsb is_failure
                 [Returned well_ab; Skipped "no core"; Returned well_abc]
               = false) by reflexivity.
  assert (H3 : (n_skipped
                  [Returned well_ab; Skipped "no core"; Returned well_abc]
                < List.length
                    [Returned well_ab; Skipped "no core";
                     Returned well_abc])%nat) by (cbn; lia).
  split; [auto|].
  destruct (WellBatchFacts.filter_assemble_drops_skipped str_well batch_3 _
              H1 H2 H3) as (self' & Hrun & Hi & Hw & _).
  exists self'. split; [exact Hrun|]. split; [exact Hi | exact Hw].
Defined.

Lemma filter_assemble_all_skipped_run :
  (List.length [Skipped "no core"; Skipped "no logs"; Skipped "empty"]
   = List.length (index batch_3) /\
   forallb is_skip [Skipped "no logs"; Skipped "empty"] = true) /\
  _filter_assemble str_well batch_3
    [Skipped "no core"; Skipped "no logs"; Skipped "empty"]
  = (Raise (SkipBatchException "no core"), batch_3, []).
Proof.
  split; [split; reflexivity|].
  apply (WellBatchFacts.filter_assemble_all_skipped str_well batch_3);
    reflexivity.
Defined.

Lemma filter_assemble_failure_run :
  (List.length [Returned well_ab; Failed "boom"; Skipped "no core"]
   = List.length (index batch_3) /\
   In (Failed "boom")
      [Returned well_ab; Failed "boom"; Skipped "no core"]) /\
  exists first,
    hd_error (get_errors
                (survivors
                   [Returned well_ab; Failed "boom"; Skipped "no core"]))
    = Some first /\
    _filter_assemble str_well batch_3
      [Returned well_ab; Failed "boom"; Skipped "no core"]
    = (Raise (RuntimeError "Could not assemble the batch"), batch_3,
       [PrintErrors
          (get_errors
             (survivors
                [Returned well_ab; Failed "boom"; Skipped "no core"]));
        PrintTraceback first]).
Proof.
  split; [split; [reflexivity | right; left; reflexivity]|].
  apply (WellBatchFacts.filter_assemble_failure_is_fatal str_well batch_3
           _ "boom"); [reflexivity | right; left; reflexivity].
Defined.

Lemma delegator_run :
  (sample_store !! 1%positive
   = Some (mkObj [RSeg seg_a; RWell 2%positive] sample_others) /\
   calls sample_method [RSeg seg_a; RWell 2%positive] sample_store
     [Many [RSeg seg_a; RSeg seg_a]; One (RWell 2%positive)] sample_store) /\
  exists res_well h2,
    delegator sample_method 1%positive sample_store = Ok (res_well, h2) /\
    res_well <> 1%positive /\
    h2 !! res_well
    = Some (mkObj [RSeg seg_a; RSeg seg_a; RWell 2%positive] sample_others) /\
    h2 !! 1%positive
    = Some (mkObj [RSeg seg_a; RWell 2%positive] sample_others).
Proof.
  assert (H1 : sample_store !! 1%positive
               = Some (mkObj [RSeg seg_a; RWell 2%positive] sample_others))
    by reflexivity.
  assert (H2 : calls sample_method [RSeg seg_a; RWell 2%positive]
                 sample_store
                 [Many [RSeg seg_a; RSeg seg_a]; One (RWell 2%positive)]
                 sample_store).
  { eapply calls_cons; [reflexivity|].
    eapply calls_cons; [reflexivity|]. apply calls_nil. }
  split; [auto|].
  destruct (DispatcherFacts.delegator_spec sample_method 1%positive
              sample_store sample_store _ _ _ H1 H2 H1)
    as (res_well & h2 & Hrun & _ & Hne & Hres & Hold).
  exists res_well, h2. split; [exact Hrun|]. split; [exact Hne|].
  split; [exact Hres|]. rewrite Hold by congruence. exact H1.
Defined.

Lemma depth_range_run :
  no_empty well_abc = true /\
  exists lo_t hi_t,
    depth_from well_abc = Ok lo_t /\ depth_to well_abc = Ok hi_t /\
    exists lo hi,
      depth_from (W [Seg seg_c]) = Ok lo /\
      depth_to (W [Seg seg_c]) = Ok hi /\
      lo_t <= lo /\ hi <= hi_t.
Proof.
  split; [reflexivity|].
  destruct (WellFacts.depth_range_derived well_abc eq_refl)
    as (lo_t & hi_t & Hlo & Hhi & Hall).
  exists lo_t, hi_t. split; [exact Hlo|]. split; [exact Hhi|].
  destruct (Hall (W [Seg seg_c])) as (lo & hi & H1 & H2 & _ & H3 & H4 & _).
  { cbn. right. right. right. right. left. reflexivity. }
  exists lo, hi. auto.
Defined.

Lemma iter_level_run :
  @tree_depth sample_ops (W [W [Seg seg_a; Seg seg_b]; W [Seg seg_c]])
  = Ok 3 /\
  @iter_level sample_ops (W [W [Seg seg_a; Seg seg_b]; W [Seg seg_c]]) (-1)
  = fmap_res (@concat item)
      (mapM (fun well => @iter_level sample_ops well (2 - 1))
            [W [Seg seg_a; Seg seg_b]; W [Seg seg_c]]) /\
  @iter_level sample_ops (W [W [Seg seg_a; Seg seg_b]; W [Seg seg_c]]) (-1)
  = Ok [Seg seg_a; Seg seg_b; Seg seg_c].
Proof.
  assert (Hd : @tree_depth sample_ops
                 (W [W [Seg seg_a; Seg seg_b]; W [Seg seg_c]]) = Ok 3)
    by reflexivity.
  split; [exact Hd|].
  destruct (@WellFacts.iter_level_cases sample_ops _ (-1) 3 Hd)
    as (_ & _ & _ & _ & _ & _ & Hrec).
  split; [apply Hrec; cbn; lia|].
  rewrite Hrec by (cbn; lia). reflexivity.
Defined.

Lemma iter_level_beyond_depth_run :
  @tree_depth sample_ops (W [W [Seg seg_a; Seg seg_b]; W [Seg seg_c]])
  = Ok 3 /\
  @iter_level sample_ops (W [W [Seg seg_a; Seg seg_b]; W [Seg seg_c]]) 4
  = Raise (InvalidLevel 4 3) /\
  @iter_level sample_ops (W [W [Seg seg_a; Seg seg_b]; W [Seg seg_c]]) (-4)
  = Raise (InvalidLevel (-1) 3) /\
  @iter_level sample_ops (W [W [Seg seg_a; Seg seg_b]; W [Seg seg_c]]) (-2)
  = Ok [W [Seg seg_a; Seg seg_b]; W [Seg seg_c]].
Proof. repeat split; reflexivity. Qed.

Lemma iter_level_addressing_run :
  (@tree_depth sample_ops well_abc = Ok 3 /\ regular 1 well_abc = true) /\
  @iter_level sample_ops well_abc (-4) = Raise (InvalidLevel (-1) 3) /\
  @iter_level sample_ops well_abc (-3) = Ok [well_abc] /\
  @iter_level sample_ops well_abc (-1)
  = Ok [Seg seg_a; Seg seg_b; Seg seg_c] /\
  @iter_level sample_ops well_abc (-2)
  = Ok [W [Seg seg_a; Seg seg_b]; W [Seg seg_c]].
Proof.
  assert (Hd : @tree_depth sample_ops well_abc = Ok 3) by reflexivity.
  split; [split; [exact Hd | reflexivity]|].
  split.
  { destruct (@WellFacts.iter_level_addressing sample_ops _ (-4) 3 Hd)
      as (_ & Hout & _).
    apply Hout. lia. }
  destruct (@WellFacts.iter_level_addressing sample_ops _ (-3) 3 Hd)
    as (_ & _ & H0 & _ & _ & Hreg).
  split; [apply H0; [reflexivity | lia]|].
  destruct (Hreg 1%nat eq_refl) as (_ & Hleaves & Hparents & _).
  split; [exact Hleaves | exact Hparents].
Defined.

(** C7, on a tree that is not regular.  Two crops of [well_ab], the
    first one too long for the leaf [seg_a], give a tree whose first
    parent of leaves is childless and whose only leaf is one level
    deeper than [tree_depth], which follows the first children, says.
    There the level -1 is the well above the leaf and not the leaf, and
    the level -2 holds a well whose child is a well. *)
Lemma iter_level_minus_one_not_leaves :
  (exists t1,
     @crop sample_ops well_ab 5 1 true = Ok t1 /\
     @crop sample_ops t1 3 1 true = Ok MoreSamples.well_empty_then_deep) /\
  @tree_depth sample_ops MoreSamples.well_empty_then_deep = Ok 4 /\
  leaves MoreSamples.well_empty_then_deep = [MoreSamples.seg_b3] /\
  @iter_level sample_ops MoreSamples.well_empty_then_deep (-1)
  = Ok [W [Seg MoreSamples.seg_b3]] /\
  @iter_level sample_ops MoreSamples.well_empty_then_deep (-1)
  <> Ok (map Seg (leaves MoreSamples.well_empty_then_deep)) /\
  @iter_level sample_ops MoreSamples.well_empty_then_deep (-2)
  = Ok [W []; W [W [Seg MoreSamples.seg_b3]]] /\
  is_parent (W [W [Seg MoreSamples.seg_b3]]) = false.
Proof.
  split.
  { eexists. split; reflexivity. }
  repeat split; try reflexivity. discriminate.
Qed.

Lemma prune_regular_run :
  regular 1 well_abc = true /\
  exists t', @prune sample_ops well_abc = Ok t' /\
             @prune sample_ops t' = Ok t'.
Proof.
  split; [reflexivity|].
  destruct (@WellFacts.prune_idempotent_regular sample_ops 1 well_abc
              eq_refl) as (t' & H1 & _ & H2).
  exists t'. split; assumption.
Defined.

(** C8, on a tree with childless wells at two depths.  Two crops, the
    second longer than what the first left, turn [well_ab] into
    [well_uneven], which has no leaf.  [prune] keeps its only child, a well
    without a leaf below it, because [n_segments] counts at the depth that
    the first grandchild suggests; a second [prune] removes that child, so
    pruning twice does not give the tree that pruning once gives. *)
Lemma prune_twice_differs :
  (exists t1,
     @crop sample_ops well_ab 5 1 true = Ok t1 /\
     @crop sample_ops t1 7 1 true = Ok well_uneven) /\
  @prune sample_ops well_uneven = Ok (W [W []]) /\
  @prune sample_ops (W [W []]) = Ok (W []) /\
  W [] <> W [W []].
Proof.
  split; [eexists; split; reflexivity|].
  repeat split; try reflexivity. discriminate.
Qed.

Lemma transforms_run :
  regular 1 well_abc = true /\
  @tree_depth sample_ops well_abc = Ok 3 /\
  (exists t', @crop sample_ops well_abc 5 1 true = Ok t' /\
              @tree_depth sample_ops t' = Ok 4) /\
  (exists t', @create_segments sample_ops well_abc "DEPTH" true = Ok t' /\
              @tree_depth sample_ops t' = Ok 4) /\
  (exists t', @drop_short_segments sample_ops well_abc 5 = Ok t' /\
              leaves t' = [seg_b; seg_c] /\
              @tree_depth sample_ops t' = Ok 3).
Proof.
  split; [reflexivity|].
  destruct (@WellFacts.transforms_tree_depth sample_ops 1 well_abc
              "DEPTH" true 5 1 true 5
              (fun s => [s])
              (fun s => if seg_length s <? 5 then [] else [piece s 5])
              eq_refl)
    as (Hd & Hcreate & Hcrop & t3 & Hdrop & Hleaves & Hrest).
  split; [exact Hd|]. split; [|split].
  - destruct Hcrop as (t' & Ht' & _ & Hd').
    { intros s _. cbn. destruct (seg_length s <? 5); reflexivity. }
    exists t'. split; [exact Ht' | exact (Hd' eq_refl)].
  - destruct Hcreate as (t' & Ht' & _ & Hd').
    { intros s _. reflexivity. }
    exists t'. split; [exact Ht' | exact (Hd' eq_refl)].
  - exists t3. split; [exact Hdrop|]. split; [exact Hleaves|].
    apply Hrest. rewrite Hleaves. discriminate.
Defined.

(** A crop longer than the only leaf leaves a parent of leaves without a
    leaf; a further crop or [create_segments] on that tree leaves the tree
    depth at 3.  Dropping the only leaf of a tree of depth 3 leaves a tree
    of depth 2. *)
Lemma transforms_keep_or_lose_depth :
  (@crop sample_ops (W [Seg seg_a]) 5 1 true = Ok (W [W []]) /\
   @tree_depth sample_ops (W [W []]) = Ok 3 /\
   @crop sample_ops (W [W []]) 5 1 true = Ok (W [W []]) /\
   @create_segments sample_ops (W [W []]) "DEPTH" true = Ok (W [W []])) /\
  (@tree_depth sample_ops (W [W [Seg seg_a]]) = Ok 3 /\
   @drop_short_segments sample_ops (W [W [Seg seg_a]]) 5 = Ok (W []) /\
   @tree_depth sample_ops (W []) = Ok 2).
Proof. repeat split; reflexivity. Qed.



(** The tree that this run returns. *)
Lemma random_crop_run_value :
  @random_crop sample_ops well_abc 5 3 sample_draws1 sample_draws2
  = Ok (W [W [W [Seg (piece seg_b 5)]];
           W [W [Seg (piece seg_c 5); Seg (piece seg_c 5)]]]).
Proof. reflexivity. Qed.

(** With no root at all the first guard also holds (zero skips, zero
    roots) and [results[0]] raises [IndexError]. *)
Lemma filter_assemble_empty_batch :
  _filter_assemble str_well (mkBatch [] []) []
  = (Raise IndexError, mkBatch [] [], []).
Proof. reflexivity. Qed.

(** A crop longer than the only leaf leaves the tree [W [W []]]: its root
    has a child, and [depth_from], [depth_to] and [length] raise on it. *)
Lemma depth_range_fails_over_childless_well :
  @crop sample_ops (W [Seg seg_a]) 5 1 true = Ok (W [W []]) /\
  depth_from (W [W []]) = Raise EmptySequence /\
  depth_to (W [W []]) = Raise EmptySequence /\
  length (W [W []]) = Raise EmptySequence.
Proof. repeat split; reflexivity. Qed.

End Runs.


(** ** More on batch assembly *)

Module WellBatchMoreFacts.
Import WellBatch WellBatchFacts.

Section assembly.
Variable str_well : item -> string.

Lemma filter_assemble_raise_inv (self self' : WellBatch)
    (results : list result) (e : exn) (out : list printed) :
  _filter_assemble str_well self results = (Raise e, self', out) ->
  self' = self /\
  (out <> [] -> e = RuntimeError "Could not assemble the batch").
Proof.
  unfold _filter_assemble.
  destruct (Nat.eqb _ _).
  - destruct results; intros [= <- <- <-]; split; congruence.
  - rewrite mask_select_results.
    destruct (any_action_failed (survivors results)) eqn:Efail.
    + destruct (get_errors (survivors results)) as [|first errs] eqn:Eerr.
      * exfalso. unfold any_action_failed, get_errors in *.
        induction (survivors results) as [|r rs IH]; [discriminate|].
        cbn in Efail, Eerr. destruct (is_exception r); [discriminate|].
        cbn in Efail. auto.
      * intros [= <- <- <-]. split; congruence.
    + destruct (mask_select (index self) _); [discriminate|].
      intros [= <- <- <-]. split; congruence.
Qed.

Lemma filter_assemble_return_inv (self self' : WellBatch)
    (results : list result) (out : list printed) :
  _filter_assemble str_well self results = (Ok tt, self', out) ->
  out = [] /\
  List.length results = List.length (index self) /\
  (n_skipped results < List.length results)%nat /\
  existsb is_failure results = false /\
  index self' = map fst (surviving_pairs (index self) results) /\
  wells self' = map snd (surviving_pairs (index self) results) /\
  existsb is_exception (wells self') = false /\
  List.length (index self') = List.length (wells self').
Proof.
  unfold _filter_assemble. rewrite skip_count.
  destruct (Nat.eqb_spec (n_skipped results) (List.length (index self)))
    as [Heq | Hne].
  - destruct results; discriminate.
  - rewrite mask_select_results.
    destruct (any_action_failed (survivors results)) eqn:Efail.
    + destruct (get_errors (survivors results)); discriminate.
    + unfold mask_select at 1. rewrite !length_map.
      destruct (Nat.eqb_spec (List.length (index self)) (List.length results))
        as [Hlen | Hlen]; [|discriminate].
      intros [= <- <-]. cbn [index wells]. unfold create_subset.
      pose proof (mask_select_index _ _ Hlen) as Hsel.
      unfold mask_select in Hsel. rewrite !length_map, Hlen, Nat.eqb_refl in Hsel.
      injection Hsel as Hsel.
      pose proof (surviving_pairs_snd _ _ Hlen) as Hsnd.
      pose proof (n_skipped_le results) as Hle.
      split; [reflexivity|]. split; [congruence|]. split; [lia|].
      split.
      { unfold any_action_failed, survivors in Efail. clear -Efail.
        induction results as [|r rs IH]; [reflexivity|].
        destruct r; cbn in *; auto; discriminate. }
      split; [exact Hsel|]. split; [congruence|].
      split; [exact Efail|].
      rewrite Hsel, !length_map, <- (length_map snd), Hsnd. reflexivity.
Qed.
(** Whatever the results are, a call of [_filter_assemble] that raises,
    with any exception, leaves the index and the array of wells as they
    were, and it has printed something only when the exception is the
    fatal assembly error. *)
Theorem filter_assemble_raise_keeps_batch (self self' : WellBatch)
    (results : list result) (e : exn) (out : list printed) :
  _filter_assemble str_well self results = (Raise e, self', out) ->
  self' = self /\
  (out <> [] -> e = RuntimeError "Could not assemble the batch").
Proof. apply filter_assemble_raise_inv. Qed.

(** A call of [_filter_assemble] that returns had one result per
    identifier, not all of them skips and none a failure; it printed
    nothing; the new index is the identifiers of the results that are not
    skips, in order, the new array those results, none of them an
    exception, and index and array have the same length. *)
Theorem filter_assemble_return_keeps_invariant (self self' : WellBatch)
    (results : list result) (out : list printed) :
  _filter_assemble str_well self results = (Ok tt, self', out) ->
  out = [] /\
  List.length results = List.length (index self) /\
  (n_skipped results < List.length results)%nat /\
  existsb is_failure results = false /\
  index self' = map fst (surviving_pairs (index self) results) /\
  wells self' = map snd (surviving_pairs (index self) results) /\
  existsb is_exception (wells self') = false /\
  List.length (index self') = List.length (wells self').
Proof. apply filter_assemble_return_inv. Qed.

End assembly.

(** *** The dispatch over the wells of the batch *)

Section dispatch.
Variable str_well : item -> string.
Variable str_exn : exn -> string.
Variable method : item -> res item * item.

Lemma parallel_action_unfold (self : WellBatch) (ws : list item) :
  wells self = map Returned ws ->
  WellBatchMore.parallel_action str_well str_exn method self
  = _filter_assemble str_well
      {| index := index self; wells := WellBatchMore.wells_after method ws |}
      (WellBatchMore.collected str_exn method ws).
Proof.
  intros Hws.
  unfold WellBatchMore.parallel_action, WellBatchMore.wells_after,
    WellBatchMore.collected.
  rewrite Hws, !map_map. reflexivity.
Qed.

Lemma batch_untouched (self : WellBatch) (ws : list item) :
  wells self = map Returned ws ->
  (forall w, In w ws -> snd (method w) = w) ->
  {| index := index self; wells := WellBatchMore.wells_after method ws |}
  = self.
Proof.
  intros Hws Hsame. destruct self as [ids wells0]. cbn in *. f_equal.
  rewrite Hws. unfold WellBatchMore.wells_after.
  apply map_ext_in. intros w Hw. rewrite (Hsame w Hw). reflexivity.
Qed.


(** C3 (as amended).  In a dispatch in which at least one root raises an
    exception that is not the skip condition, whatever the other roots
    do, the action prints the errors and the first error's traceback
    and raises the fatal "Could not assemble the batch" error.  No
    result is committed: the identifier index is unchanged and the
    array holds the same roots in the same order.  The roots themselves
    are as their calls left them; the batch is exactly as before when no
    call changed its root. *)
Theorem dispatch_failure_is_fatal (self : WellBatch) (ws : list item)
    (well : item) (e : exn) :
  wells self = map Returned ws ->
  List.length (index self) = List.length ws ->
  In well ws ->
  fst (method well) = Raise e ->
  (forall msg, e <> SkipWellException msg) ->
  exists first,
    hd_error
      (get_errors (survivors (WellBatchMore.collected str_exn method ws)))
    = Some first /\
    WellBatchMore.parallel_action str_well str_exn method self
    = (Raise (RuntimeError "Could not assemble the batch"),
       {| index := index self;
          wells := WellBatchMore.wells_after method ws |},
       [PrintErrors
          (get_errors
             (survivors (WellBatchMore.collected str_exn method ws)));
        PrintTraceback first]) /\
    ((forall w, In w ws -> snd (method w) = w) ->
     WellBatchMore.parallel_action str_well str_exn method self
     = (Raise (RuntimeError "Could not assemble the batch"), self,
        [PrintErrors
           (get_errors
              (survivors (WellBatchMore.collected str_exn method ws)));
         PrintTraceback first])).
Proof.
  intros Hws Hlen Hin Hraise Hnoskip.
  assert (Hfailed : In (Failed (str_exn e))
                      (WellBatchMore.collected str_exn method ws)).
  { unfold WellBatchMore.collected. apply in_map_iff. exists well.
    split; [|exact Hin]. rewrite Hraise.
    destruct e; try reflexivity. exfalso. eapply Hnoskip. reflexivity. }
  assert (Hlen' : List.length (WellBatchMore.collected str_exn method ws)
                  = List.length (index self)).
  { unfold WellBatchMore.collected. rewrite length_map.
    symmetry. exact Hlen. }
  destruct (filter_assemble_failure_is_fatal str_well
              {| index := index self;
                 wells := WellBatchMore.wells_after method ws |}
              (WellBatchMore.collected str_exn method ws) (str_exn e)
              Hlen' Hfailed) as (first & Hfirst & Hrun).
  exists first. split; [exact Hfirst|].
  rewrite (parallel_action_unfold _ _ Hws). split; [exact Hrun|].
  intros Hsame. rewrite Hrun, (batch_untouched _ _ Hws Hsame). reflexivity.
Qed.

(** An action of a batch whose array holds one well per identifier.  If
    it raises, the index is unchanged and the array holds the same
    wells, each as its call left it.  If it returns, the batch again
    holds one well per identifier, the identifiers left are a
    subsequence of the old ones, every well left is what the method
    returned for the well that stood at its identifier, and the wells
    removed are those whose method raised the skip condition (no method
    raised anything else). *)
Theorem parallel_action_keeps_batch (self self' : WellBatch)
    (ws : list item) (r : res unit) (out : list printed) :
  wells self = map Returned ws ->
  List.length (index self) = List.length ws ->
  WellBatchMore.parallel_action str_well str_exn method self
  = (r, self', out) ->
  match r with
  | Raise _ =>
      index self' = index self /\
      wells self' = WellBatchMore.wells_after method ws
  | Ok _ =>
      sublist (index self') (index self) /\
      List.length (index self') = List.length (wells self') /\
      combine (index self') (wells self')
      = flat_map (fun iw =>
                    match fst (method (snd iw)) with
                    | Ok well' => [(fst iw, Returned well')]
                    | Raise _ => []
                    end)
                 (combine (index self) ws) /\
      forall w e, In w ws -> fst (method w) = Raise e ->
                  exists msg, e = SkipWellException msg
  end.
Proof.
  intros Hws Hlen Hrun. rewrite (parallel_action_unfold _ _ Hws) in Hrun.
  destruct r as [[]|e].
  - destruct (filter_assemble_return_inv _ _ _ _ _ Hrun)
      as (_ & _ & _ & Hnofail & Hi & Hw & _ & Hll).
    cbn [index] in Hi, Hw. unfold WellBatchMore.collected in *.
    assert (Hok : forall w, In w ws ->
              forall e, fst (method w) = Raise e ->
                        exists msg, e = SkipWellException msg).
    { clear -Hnofail. induction ws as [|w ws IH]; [intros ? []|].
      cbn [map existsb] in Hnofail.
      apply orb_false_iff in Hnofail as [Hw Hws].
      intros x [<- | Hx] e He; [|exact (IH Hws x Hx e He)].
      rewrite He in Hw.
      destruct e; try discriminate Hw. eauto. }
    assert (Hpairs : surviving_pairs (index self)
                       (map (fun w => WellBatchMore.collect str_exn
                                        (fst (method w))) ws)
                     = flat_map (fun iw =>
                                   match fst (method (snd iw)) with
                                   | Ok well' => [(fst iw, Returned well')]
                                   | Raise _ => []
                                   end)
                                (combine (index self) ws)).
    { clear -Hlen Hok. unfold surviving_pairs.
      revert Hlen Hok. generalize (index self) as ids.
      induction ws as [|w ws IH]; intros [|i ids] Hlen Hok;
        try discriminate; [reflexivity|].
      cbn [map combine List.filter flat_map snd fst].
      rewrite <- IH;
        [|cbn in Hlen; lia | intros; eapply Hok; eauto; right; auto].
      destruct (fst (method w)) as [w'|e] eqn:E.
      - reflexivity.
      - destruct (Hok w (or_introl eq_refl) e E) as [msg ->]. reflexivity. }
    split.
    { rewrite Hi. unfold surviving_pairs. clear.
      generalize (map (fun w => WellBatchMore.collect str_exn
                                  (fst (method w))) ws) as rs.
      induction (index self) as [|i ids IH]; intros rs.
      - destruct rs; constructor.
      - destruct rs as [|r rs]; [cbn; apply sublist_nil_l|].
        cbn [combine List.filter snd].
        destruct (negb (is_skip r)); cbn [map fst].
        + apply sublist_skip, IH.
        + apply sublist_cons, IH. }
    split; [exact Hll|]. split.
    { rewrite Hi, Hw, <- Hpairs. clear.
      induction (surviving_pairs _ _) as [|[i x] l IH]; [reflexivity|].
      cbn [map combine fst snd]. rewrite IH. reflexivity. }
    intros w e Hin. apply Hok, Hin.
  - destruct (filter_assemble_raise_inv _ _ _ _ _ _ Hrun) as [-> _].
    split; reflexivity.
Qed.

End dispatch.

End WellBatchMoreFacts.

(** ** More on trees of wells *)

Module WellMoreFacts.
Import Well Tree WellFacts WellMore.

Section with_segment_ops.
Context `{SegmentOps}.

(** *** Navigation *)

Lemma layered_lower (B : item -> bool) (n k : nat) (t : item) :
  (forall b, B b = true -> is_well b = true) ->
  layered B n t = true -> (k <= n)%nat -> layered is_well k t = true.
Proof.
  intros HB. revert t k. induction n as [|n IH]; intros t k Hl Hk.
  - replace k with 0%nat by lia. exact (HB _ Hl).
  - destruct k as [|k].
    + exact (layered_is_well B (S n) t HB Hl).
    + destruct (layered_S_inv _ _ _ Hl) as (c & cs & -> & Hall).
      cbn [layered]. apply forallb_forall. intros x Hx.
      apply (IH x k (Hall x Hx)). lia.
Qed.

Lemma is_parent_is_well (b : item) : is_parent b = true -> is_well b = true.
Proof. destruct b; [discriminate | reflexivity]. Qed.

(** On a regular tree [tree_depth] is the real depth, [n_segments] the
    number of leaves and [iter_level(-1)] the leaves in order; at every
    level down to the leaves [iter_level] returns nodes whose leaves,
    taken in order, are the leaves of the tree. *)
Theorem regular_navigation (n : nat) (t : item) :
  regular n t = true ->
  tree_depth t = Ok (Z.of_nat n + 2) /\
  n_segments t = Ok (Z.of_nat (List.length (leaves t))) /\
  iter_level t (-1) = Ok (map Seg (leaves t)) /\
  forall k, (k <= n + 1)%nat ->
    exists l, iter_level t (Z.of_nat k) = Ok l /\
              flat_map leaves l = leaves t.
Proof.
  intros Hr. split; [exact (regular_tree_depth _ _ Hr)|].
  split; [exact (n_segments_regular _ _ Hr)|].
  split; [exact (iter_level_leaves _ _ Hr)|].
  intros k Hk. exists (level_nodes k t).
  split; [exact (iter_level_regular _ _ _ Hr Hk)|].
  destruct (Nat.eq_dec k (S n)) as [-> | Hne].
  - rewrite (level_nodes_leaves _ _ Hr). apply leaves_map_Seg.
  - symmetry. apply (leaves_level_nodes is_well).
    rewrite regular_layered in Hr.
    apply (layered_lower is_parent n k t is_parent_is_well Hr). lia.
Qed.

Lemma mapM_ext_in_res {A B} (f g : A -> res B) (l : list A) :
  (forall x, In x l -> f x = g x) -> mapM f l = mapM g l.
Proof.
  induction l as [|x l IH]; intros Hf; [reflexivity|].
  cbn [mapM]. fold (mapM f) (mapM g).
  rewrite (Hf x) by (left; reflexivity).
  rewrite IH by (intros; apply Hf; right; assumption). reflexivity.
Qed.

Lemma leaves_map_Seg_well (ls : list WellSegment) :
  leaves (W (map Seg ls)) = ls.
Proof. cbn [leaves]. apply leaves_map_Seg. Qed.

Lemma mapM_map {A B C} (f : B -> res C) (g : A -> B) (l : list A) :
  mapM f (map g l) = mapM (fun x => f (g x)) l.
Proof.
  induction l as [|x l IH]; [reflexivity|].
  cbn [map mapM]. fold (mapM f) (mapM (fun x => f (g x))).
  rewrite IH. reflexivity.
Qed.

Lemma mapM_app {A B} (f : A -> res B) (l1 l2 : list A) :
  mapM f (l1 ++ l2)
  = (r1 <- mapM f l1 ;; r2 <- mapM f l2 ;; Ok (r1 ++ r2)).
Proof.
  induction l1 as [|x l1 IH].
  - cbn. destruct (mapM f l2); reflexivity.
  - cbn [app mapM]. fold (mapM f). rewrite IH.
    destruct (f x); cbn [bind]; [|reflexivity].
    destruct (mapM f l1); cbn [bind]; [|reflexivity].
    destruct (mapM f l2); reflexivity.
Qed.

Lemma mapM_flat_map_concat {A B C} (g : B -> res (list C)) (h : A -> list B)
    (l : list A) :
  fmap_res (@concat C)
    (mapM (fun c => fmap_res (@concat C) (mapM g (h c))) l)
  = fmap_res (@concat C) (mapM g (flat_map h l)).
Proof.
  induction l as [|c l IH]; [reflexivity|].
  cbn [flat_map mapM]. rewrite mapM_app.
  fold (mapM (fun c => fmap_res (@concat C) (mapM g (h c)))).
  unfold fmap_res in *.
  destruct (mapM g (h c)) as [r1|e]; cbn [bind]; [|reflexivity].
  destruct (mapM (fun c0 => x <- mapM g (h c0) ;; Ok (concat x)) l)
    as [rs|e]; cbn [bind] in *.
  - destruct (mapM g (flat_map h l)) as [r2|e]; cbn [bind] in *;
      [|discriminate].
    injection IH as IH. rewrite concat_app. cbn [concat]. congruence.
  - destruct (mapM g (flat_map h l)) as [r2|e']; cbn [bind] in *;
      [discriminate | congruence].
Qed.

(** The guard of [iter_level] lets a level equal to the tree depth
    through: on a regular tree that call asks every leaf, in order, for
    its own [iter_level(1)] and concatenates the answers, and the first
    level that is rejected is the tree depth plus one. *)
Theorem iter_level_at_tree_depth (n : nat) (t : item) :
  regular n t = true ->
  iter_level t (Z.of_nat n + 2)
  = fmap_res (@concat item)
      (mapM (fun s => segment_iter_level s 1) (leaves t)) /\
  iter_level t (Z.of_nat n + 3)
  = Raise (InvalidLevel (Z.of_nat n + 3) (Z.of_nat n + 2)).
Proof.
  intros Hr. split.
  - revert t Hr. induction n as [|n IH]; intros t Hr;
      pose proof (regular_tree_depth _ _ Hr) as Hd;
      destruct (regular_is_well _ _ Hr) as [segments ->].
    + destruct (iter_level_cases segments (Z.of_nat 0 + 2) _ Hd)
        as (_ & Hpos & _ & _ & _ & _ & Hrec).
      rewrite Hpos in Hrec by lia. rewrite Hrec by lia.
      cbn [regular] in Hr. rewrite (parent_segments _ Hr) at 1.
      rewrite mapM_map. reflexivity.
    + destruct (iter_level_cases segments (Z.of_nat (S n) + 2) _ Hd)
        as (_ & Hpos & _ & _ & _ & _ & Hrec).
      rewrite Hpos in Hrec by lia. rewrite Hrec by lia.
      destruct (regular_S_inv _ _ Hr) as [_ Hall].
      rewrite (mapM_ext_in_res _
                 (fun c => fmap_res (@concat item)
                             (mapM (fun s => segment_iter_level s 1)
                                   (leaves c)))).
      * apply mapM_flat_map_concat.
      * intros c Hc.
        replace (Z.of_nat (S n) + 2 - 1) with (Z.of_nat n + 2) by lia.
        apply IH, Hall, Hc.
  - pose proof (regular_tree_depth _ _ Hr) as Hd.
    destruct (regular_is_well _ _ Hr) as [segments ->].
    destruct (iter_level_cases segments (Z.of_nat n + 3) _ Hd)
      as (_ & Hpos & Hout & _).
    rewrite Hout by lia. rewrite Hpos by lia. reflexivity.
Qed.

(** *** Pruning *)

(** On a regular tree [prune] keeps every leaf, in order.  When the tree
    has a leaf the result is again regular with the same tree depth and
    every well in it has a leaf below it; when it has none the result is
    the well without children. *)
Theorem prune_regular_result (n : nat) (t : item) :
  regular n t = true ->
  exists t',
    prune t = Ok t' /\
    leaves t' = leaves t /\
    (leaves t <> [] ->
     regular n t' = true /\ no_bare_well t' = true /\
     tree_depth t' = tree_depth t) /\
    (leaves t = [] -> t' = W []).
Proof.
  intros Hr. exists (prune_spec t).
  split; [exact (prune_regular _ _ Hr)|].
  split; [apply leaves_prune_spec|].
  pose proof (prune_spec_regular _ _ Hr) as Hp.
  split.
  - intros Hne.
    assert (Hl : has_leaves t = true).
    { destruct (has_leaves t) eqn:E; [reflexivity|].
      apply has_leaves_nil in E. contradiction. }
    rewrite Hl in Hp. split; [exact Hp|]. split.
    + apply no_bare_well_prune_spec. rewrite Hl. apply orb_true_r.
    + rewrite (regular_tree_depth _ _ Hp), (regular_tree_depth _ _ Hr).
      reflexivity.
  - intros Hnil. apply has_leaves_nil in Hnil. rewrite Hnil in Hp. exact Hp.
Qed.

(** *** Depth bounds *)

Lemma Forall2_In_r {A B} (R : A -> B -> Prop) l ys y :
  Forall2 R l ys -> In y ys -> exists x, In x l /\ R x y.
Proof.
  induction 1 as [|a b l ys Hab _ IH]; simpl; [tauto|].
  intros [-> | Hin]; [exists a; auto|].
  destruct (IH Hin) as (x & Hx & Hr). exists x; auto.
Qed.

Lemma leaf_subitem (t : item) (s : WellSegment) :
  In s (leaves t) -> In (Seg s) (subitems t).
Proof.
  induction t as [s' | segments IH] using item_ind'.
  - intros [-> | []]. left. reflexivity.
  - cbn [leaves]. intros Hin. apply in_flat_map in Hin as (c & Hc & Hs).
    apply subitems_well. right. exists c. split; [exact Hc|].
    rewrite List.Forall_forall in IH. exact (IH c Hc Hs).
Qed.

Lemma depth_from_attained (t : item) (lo : Z) :
  depth_from t = Ok lo -> exists s, In s (leaves t) /\ seg_depth_from s = lo.
Proof.
  revert lo. induction t as [s | segments IH] using item_ind'; intros lo Hlo.
  - injection Hlo as <-. exists s. split; [left|]; reflexivity.
  - destruct (depth_from_well_inv _ _ Hlo) as (los & Hlos & Hin & _).
    destruct (Forall2_In_r _ _ _ _ (mapM_inv _ _ _ Hlos) Hin) as (c & Hc & Hdc).
    rewrite List.Forall_forall in IH.
    destruct (IH c Hc lo Hdc) as (s & Hs & Heq).
    exists s. split; [|exact Heq]. cbn [leaves]. apply in_flat_map. eauto.
Qed.

Lemma depth_to_attained (t : item) (hi : Z) :
  depth_to t = Ok hi -> exists s, In s (leaves t) /\ seg_depth_to s = hi.
Proof.
  revert hi. induction t as [s | segments IH] using item_ind'; intros hi Hhi.
  - injection Hhi as <-. exists s. split; [left|]; reflexivity.
  - destruct (depth_to_well_inv _ _ Hhi) as (his & Hhis & Hin & _).
    destruct (Forall2_In_r _ _ _ _ (mapM_inv _ _ _ Hhis) Hin) as (c & Hc & Hdc).
    rewrite List.Forall_forall in IH.
    destruct (IH c Hc hi Hdc) as (s & Hs & Heq).
    exists s. split; [|exact Heq]. cbn [leaves]. apply in_flat_map. eauto.
Qed.

(** Whenever a well has a depth range, [depth_from] is the least
    [depth_from] and [depth_to] the greatest [depth_to] over all the leaves
    below it, at any depth, and [length] is their difference; if every leaf
    has [depth_from <= depth_to], the length is not negative and no leaf is
    longer than the well. *)
Theorem depth_bounds_over_leaves (segments : list item) (lo hi : Z) :
  depth_from (W segments) = Ok lo ->
  depth_to (W segments) = Ok hi ->
  is_min lo (map seg_depth_from (leaves (W segments))) /\
  is_max hi (map seg_depth_to (leaves (W segments))) /\
  length (W segments) = Ok (hi - lo) /\
  ((forall s, In s (leaves (W segments)) ->
              seg_depth_from s <= seg_depth_to s) ->
   0 <= hi - lo /\
   forall s, In s (leaves (W segments)) -> seg_length s <= hi - lo).
Proof.
  intros Hlo Hhi.
  assert (Hlow : forall s, In s (leaves (W segments)) ->
                           lo <= seg_depth_from s).
  { intros s Hs. apply (depth_from_encloses _ (Seg s) _ _ Hlo);
      [apply leaf_subitem, Hs | reflexivity]. }
  assert (Hhigh : forall s, In s (leaves (W segments)) ->
                            seg_depth_to s <= hi).
  { intros s Hs. apply (depth_to_encloses _ (Seg s) _ _ Hhi);
      [apply leaf_subitem, Hs | reflexivity]. }
  destruct (depth_from_attained _ _ Hlo) as (s1 & Hs1 & Hlo1).
  destruct (depth_to_attained _ _ Hhi) as (s2 & Hs2 & Hhi2).
  split; [|split; [|split]].
  - split.
    + rewrite <- Hlo1. apply in_map, Hs1.
    + apply List.Forall_forall. intros x Hx.
      apply in_map_iff in Hx as (s & <- & Hs). auto.
  - split.
    + rewrite <- Hhi2. apply in_map, Hs2.
    + apply List.Forall_forall. intros x Hx.
      apply in_map_iff in Hx as (s & <- & Hs). auto.
  - unfold length. rewrite Hhi, Hlo. reflexivity.
  - intros Hleaf. split.
    + specialize (Hleaf s1 Hs1). specialize (Hhigh s1 Hs1). lia.
    + intros s Hs. unfold seg_length.
      specialize (Hlow s Hs). specialize (Hhigh s Hs). lia.
Qed.

(** *** Transforms that wrap what a leaf operation returns *)

Lemma flat_map_flat_map {A B C} (f : A -> list B) (g : B -> list C)
    (l : list A) :
  flat_map g (flat_map f l) = flat_map (fun x => flat_map g (f x)) l.
Proof.
  induction l as [|x l IH]; [reflexivity|].
  cbn [flat_map]. rewrite flat_map_app, IH. reflexivity.
Qed.

Lemma flat_map_of_map {A B C} (f : A -> B) (g : B -> list C) (l : list A) :
  flat_map g (map f l) = flat_map (fun x => g (f x)) l.
Proof. induction l as [|x l IH]; cbn; congruence. Qed.

Lemma map_flat_map {A B C} (f : A -> list B) (g : B -> C) (l : list A) :
  map g (flat_map f l) = flat_map (fun x => map g (f x)) l.
Proof.
  induction l as [|x l IH]; [reflexivity|].
  cbn [flat_map]. rewrite map_app, IH. reflexivity.
Qed.

Lemma level_nodes_S (k : nat) (t : item) :
  level_nodes (S k) t = flat_map (level_nodes 1) (level_nodes k t).
Proof.
  revert t. induction k as [|k IH]; intros t.
  - cbn [level_nodes flat_map]. rewrite app_nil_r. reflexivity.
  - destruct t as [s | segments]; [reflexivity|].
    change (level_nodes (S (S k)) (W segments))
      with (flat_map (level_nodes (S k)) segments).
    change (level_nodes (S k) (W segments))
      with (flat_map (level_nodes k) segments).
    rewrite flat_map_flat_map. apply flat_map_ext. intros c. apply IH.
Qed.

Lemma level_nodes_1 (segments : list item) :
  level_nodes 1 (W segments) = segments.
Proof. cbn [level_nodes]. apply flat_map_singleton. Qed.

Lemma regular_is_layered_well (n : nat) (t : item) :
  regular n t = true -> layered is_well n t = true.
Proof.
  rewrite regular_layered. apply layered_mono. exact is_parent_is_well.
Qed.

(** The tree that a wrapping transform builds from a regular tree: below
    every former parent of leaves one well per original leaf. *)
Lemma wrap_transform (op : WellSegment -> res (list WellSegment))
    (f : WellSegment -> list WellSegment) (n : nat) (t : item) :
  regular n t = true ->
  (forall s, In s (leaves t) -> op s = Ok (f s)) ->
  exists t',
    on_parents_of_leaves
      (fun _ well => segments <- segments_of well ;;
                     mapM (wrap op) segments) t = Ok t' /\
    level_nodes (S n) t' = map (fun s => W (map Seg (f s))) (leaves t) /\
    leaves t' = flat_map f (leaves t) /\
    forall B,
      Forall (fun well =>
                B (W (map (fun s => W (map Seg (f s))) (leaves well))) = true)
             (level_nodes n t) ->
      layered B n t' = true.
Proof.
  intros Hr Hop.
  destruct (on_parents_regular
              (fun _ well => segments <- segments_of well ;;
                             mapM (wrap op) segments)
              (fun well => map (fun s => W (map Seg (f s))) (leaves well))
              n t Hr) as (t' & Ht' & Hlv & HB).
  { intros _ well Hin.
    destruct (regular_parents _ _ _ Hr Hin) as [Hw Hsub].
    rewrite Hw at 1. cbn [segments_of bind].
    apply mapM_wrap. intros s Hs. apply Hop, Hsub, Hs. }
  pose proof Hr as Hr'. rewrite regular_layered in Hr'.
  exists t'. split; [exact Ht'|]. split; [|split; [|exact HB]].
  - rewrite level_nodes_S, Hlv, flat_map_of_map.
    rewrite (flat_map_ext _ (fun well => map (fun s => W (map Seg (f s)))
                                           (leaves well)))
      by (intros; apply level_nodes_1).
    rewrite <- map_flat_map, <- (leaves_level_nodes _ _ _ Hr').
    reflexivity.
  - assert (Hw : layered is_well n t' = true).
    { apply HB. apply List.Forall_forall. reflexivity. }
    rewrite (leaves_level_nodes _ _ _ Hw), Hlv, flat_map_of_map.
    rewrite (leaves_level_nodes _ _ _ Hr'), flat_map_flat_map.
    apply flat_map_ext. intros well. cbn [leaves].
    rewrite flat_map_of_map.
    apply flat_map_ext. intros s. cbn [leaves]. apply leaves_map_Seg.
Qed.

(** [create_segments] and [crop] on a regular tree, when the leaf
    operation returns: the wells directly above the leaves of the result
    are, in order, one per leaf of the original tree, over what that leaf
    returned, also when it returned nothing (nothing is pruned), and so
    the leaves of the result are the returned leaves in the order of the
    original leaves. *)
Theorem wrapping_transforms_leaves (n : nat) (t : item)
    (src : string) (connected : bool) (length_ step : Z) (drop_last : bool)
    (f g : WellSegment -> list WellSegment) :
  regular n t = true ->
  ((forall s, In s (leaves t) ->
              segment_create_segments s src connected = Ok (f s)) ->
   exists t',
     create_segments t src connected = Ok t' /\
     level_nodes (S n) t' = map (fun s => W (map Seg (f s))) (leaves t) /\
     leaves t' = flat_map f (leaves t)) /\
  ((forall s, In s (leaves t) ->
              segment_crop s length_ step drop_last = Ok (g s)) ->
   exists t',
     crop t length_ step drop_last = Ok t' /\
     level_nodes (S n) t' = map (fun s => W (map Seg (g s))) (leaves t) /\
     leaves t' = flat_map g (leaves t)).
Proof.
  intros Hr. split; intros Hop.
  - destruct (wrap_transform _ f n t Hr Hop) as (t' & H1 & H2 & H3 & _).
    exists t'. auto.
  - destruct (wrap_transform _ g n t Hr Hop) as (t' & H1 & H2 & H3 & _).
    exists t'. auto.
Qed.

Lemma mapM_raise_inv {A B} (f : A -> res B) (l : list A) (e : exn) :
  mapM f l = Raise e -> exists x, In x l /\ f x = Raise e.
Proof.
  induction l as [|x l IH]; [discriminate|].
  cbn [mapM]. fold (mapM f).
  destruct (f x) as [y|e'] eqn:Ex; cbn [bind].
  - destruct (mapM f l) as [ys|e''] eqn:El; cbn [bind]; [discriminate|].
    intros [= ->]. destruct (IH eq_refl) as (x' & Hin & Hx').
    exists x'. split; [right; exact Hin | exact Hx'].
  - intros [= ->]. exists x. split; [left; reflexivity | exact Ex].
Qed.

Lemma wrap_transform_raise (op : WellSegment -> res (list WellSegment))
    (n : nat) (t : item) (e : exn) :
  regular n t = true ->
  on_parents_of_leaves
    (fun _ well => segments <- segments_of well ;;
                   mapM (wrap op) segments) t = Raise e ->
  exists s, In s (leaves t) /\ op s = Raise e.
Proof.
  intros Hr. unfold on_parents_of_leaves, assign_segments.
  rewrite (iter_level_parents _ _ Hr). cbn [bind].
  destruct (mapM _ (combine _ (level_nodes n t))) as [news|e'] eqn:E;
    cbn [bind].
  - rewrite (regular_tree_depth _ _ Hr). cbn [bind].
    replace (Z.to_nat (Z.of_nat n + 2 - 2)) with n by lia.
    destruct (put_level_layered n t (regular_is_layered_well _ _ Hr) news [])
      as (t' & Hput & _).
    { rewrite (mapM_length _ _ _ E), length_combine, length_seq. lia. }
    rewrite app_nil_r in Hput. rewrite Hput. discriminate.
  - intros [= ->].
    destruct (mapM_raise_inv _ _ _ E) as ([i well] & Hin & Hraise).
    apply in_combine_r in Hin. cbn [fst snd] in Hraise.
    destruct (regular_parents _ _ _ Hr Hin) as [Hw Hsub].
    rewrite Hw in Hraise. cbn [segments_of bind] in Hraise.
    destruct (mapM_raise_inv _ _ _ Hraise) as (c & Hc & Hwrap).
    apply in_map_iff in Hc as (s & <- & Hs).
    exists s. split; [apply Hsub, Hs|].
    cbn [wrap] in Hwrap. destruct (op s); [discriminate|].
    cbn [bind] in Hwrap. injection Hwrap as ->. reflexivity.
Qed.

(** On a regular tree [create_segments] and [crop] raise nothing of
    their own: an exception they raise, the skip condition included, was
    raised by the operation of one of the leaves. *)
Theorem wrapping_transforms_raise (n : nat) (t : item)
    (src : string) (connected : bool) (length_ step : Z) (drop_last : bool)
    (e : exn) :
  regular n t = true ->
  (create_segments t src connected = Raise e ->
   exists s, In s (leaves t) /\
             segment_create_segments s src connected = Raise e) /\
  (crop t length_ step drop_last = Raise e ->
   exists s, In s (leaves t) /\
             segment_crop s length_ step drop_last = Raise e).
Proof.
  intros Hr. split; intros Hraise;
    exact (wrap_transform_raise _ n t e Hr Hraise).
Qed.

Lemma layered_regular (k n : nat) (t : item) :
  layered (regular k) n t = true -> regular (n + k) t = true.
Proof.
  revert t. induction n as [|n IH]; intros t Hl; [exact Hl|].
  destruct (layered_S_inv _ _ _ Hl) as (c & cs & -> & Hall).
  change (regular (S (n + k)) (W (c :: cs)))
    with (true && forallb (regular (n + k)) (c :: cs)).
  cbn [andb]. apply forallb_forall. intros x Hx. apply IH, Hall, Hx.
Qed.

Lemma level_nodes_subitems (k : nat) (t d : item) :
  In d (level_nodes k t) -> In d (subitems t).
Proof.
  revert t. induction k as [|k IH]; intros t Hin.
  - destruct Hin as [<- | []]. destruct t; left; reflexivity.
  - destruct t as [s | segments]; [destruct Hin|].
    cbn [level_nodes] in Hin. apply in_flat_map in Hin as (c & Hc & Hin).
    apply subitems_well. right. exists c. split; [exact Hc | apply IH, Hin].
Qed.

(** [drop_nans] on a regular tree in which every parent of leaves has a
    leaf, when the leaf operation returns: the leaves of the result are
    the returned leaves in the order of the original leaves; if there is
    one, the result is regular and one level deeper and every well in it
    has a leaf below it; if there is none, the result is the well without
    children. *)
Theorem drop_nans_regular (f : WellSegment -> list WellSegment)
    (n : nat) (t : item) (components : string) :
  regular n t = true ->
  no_empty t = true ->
  (forall s, In s (leaves t) -> segment_drop_nans s components = Ok (f s)) ->
  exists t',
    drop_nans t components = Ok t' /\
    leaves t' = flat_map f (leaves t) /\
    (leaves t' <> [] ->
     regular (S n) t' = true /\ no_bare_well t' = true /\
     tree_depth t' = Ok (Z.of_nat n + 3)) /\
    (leaves t' = [] -> t' = W []).
Proof.
  intros Hr Hne Hop.
  destruct (wrap_transform _ f n t Hr Hop) as (mid & Hmid & _ & Hleaves & HB).
  assert (Hrm : regular (S n) mid = true).
  { replace (S n) with (n + 1)%nat by lia. apply layered_regular.
    apply HB. apply List.Forall_forall. intros well Hin.
    destruct (regular_parents _ _ _ Hr Hin) as [Hw _].
    pose proof (no_empty_subitem _ _ Hne (level_nodes_subitems _ _ _ Hin))
      as Hnw.
    rewrite Hw in Hnw. destruct (leaves well) as [|s ss]; [discriminate|].
    cbn [map].
    change (true && forallb (regular 0)
                      (W (map Seg (f s))
                       :: map (fun s0 => W (map Seg (f s0))) ss) = true).
    cbn [andb]. apply forallb_forall. intros x Hx.
    assert (Hx' : exists s', x = W (map Seg (f s'))).
    { destruct Hx as [<- | Hx]; [eauto|].
      apply in_map_iff in Hx as (s' & <- & _). eauto. }
    destruct Hx' as (s' & ->). cbn [regular]. apply forallb_forall.
    intros c Hc. apply in_map_iff in Hc as (? & <- & _). reflexivity. }
  exists (prune_spec mid). split.
  { unfold drop_nans. rewrite Hmid. cbn [bind].
    exact (prune_regular _ _ Hrm). }
  rewrite leaves_prune_spec. split; [exact Hleaves|].
  pose proof (prune_spec_regular _ _ Hrm) as Hp.
  split.
  - intros Hnn.
    assert (Hl : has_leaves mid = true).
    { destruct (has_leaves mid) eqn:E; [reflexivity|].
      apply has_leaves_nil in E. contradiction. }
    rewrite Hl in Hp. split; [exact Hp|]. split.
    + apply no_bare_well_prune_spec. rewrite Hl. apply orb_true_r.
    + rewrite (regular_tree_depth _ _ Hp). f_equal. lia.
  - intros Hnil. apply has_leaves_nil in Hnil. rewrite Hnil in Hp. exact Hp.
Qed.

(** *** Dropping short segments *)

Lemma put_children_same (n : nat) (l : list item) :
  (forall c, In c l ->
     forall rest,
       put_level c n (map (level_nodes 1) (level_nodes n c) ++ rest)
       = Ok (c, rest)) ->
  forall rest,
    put_children (fun well news => put_level well n news) l
      (map (level_nodes 1) (flat_map (level_nodes n) l) ++ rest)
    = Ok (l, rest).
Proof.
  induction l as [|c l IH]; intros Hput rest; [reflexivity|].
  cbn [flat_map put_children]. rewrite map_app, <- app_assoc.
  rewrite (Hput c (or_introl eq_refl)). cbn [bind fst snd].
  fold (put_children (fun well news => put_level well n news)).
  rewrite (IH (fun x Hx => Hput x (or_intror Hx))). reflexivity.
Qed.

(** Writing back the [segments] that the wells of a level already have
    gives the same tree. *)
Lemma put_level_same (n : nat) (t : item) :
  layered is_well n t = true ->
  forall rest,
    put_level t n (map (level_nodes 1) (level_nodes n t) ++ rest)
    = Ok (t, rest).
Proof.
  revert t. induction n as [|n IH]; intros t Hl rest.
  - cbn [layered] in Hl. destruct t as [s | segments]; [discriminate|].
    cbn [level_nodes map app put_level]. rewrite flat_map_singleton.
    reflexivity.
  - destruct (layered_S_inv _ _ _ Hl) as (c & cs & -> & Hall).
    cbn [put_level].
    change (level_nodes (S n) (W (c :: cs)))
      with (flat_map (level_nodes n) (c :: cs)).
    rewrite (put_children_same n (c :: cs)); [reflexivity|].
    intros x Hx. apply IH, Hall, Hx.
Qed.

Lemma filter_all {A} (p : A -> bool) (l : list A) :
  (forall x, In x l -> p x = true) -> List.filter p l = l.
Proof.
  induction l as [|x l IH]; intros Hp; [reflexivity|].
  cbn [List.filter]. rewrite (Hp x) by (left; reflexivity).
  rewrite IH by (intros; apply Hp; right; assumption). reflexivity.
Qed.

Lemma drop_short_segments_fixed (k : nat) (t : item) (min_length : Z) :
  regular k t = true ->
  (forall s, In s (leaves t) -> (min_length <? seg_length s) = true) ->
  prune_spec t = t ->
  drop_short_segments t min_length = Ok t.
Proof.
  intros Hr Hlong Hpruned.
  unfold drop_short_segments, on_parents_of_leaves, assign_segments.
  rewrite (iter_level_parents _ _ Hr). cbn [bind].
  rewrite (mapM_indexed
             (fun _ well =>
                segments <- segments_of well ;;
                filterM (fun segment => l <- length segment ;;
                                        Ok (min_length <? l)) segments)
             (level_nodes 1) _ 0).
  - cbn [bind]. rewrite (regular_tree_depth _ _ Hr). cbn [bind].
    replace (Z.to_nat (Z.of_nat k + 2 - 2)) with k by lia.
    pose proof (put_level_same k t (regular_is_layered_well _ _ Hr) [])
      as Hput.
    rewrite app_nil_r in Hput. rewrite Hput. cbn [bind fst].
    rewrite (prune_regular _ _ Hr), Hpruned. reflexivity.
  - intros _ well Hin.
    destruct (regular_parents _ _ _ Hr Hin) as [Hw Hsub].
    rewrite Hw. cbn [segments_of bind]. rewrite filterM_length.
    rewrite level_nodes_1.
    rewrite filter_all; [reflexivity|].
    intros s Hs. apply Hlong, Hsub, Hs.
Qed.

Lemma drop_short_segments_result (n : nat) (t : item) (min_length : Z) :
  regular n t = true ->
  exists k t',
    drop_short_segments t min_length = Ok t' /\
    regular k t' = true /\
    prune_spec t' = t' /\
    leaves t'
    = List.filter (fun s => min_length <? seg_length s) (leaves t).
Proof.
  intros Hr.
  destruct (drop_short_segments_regular n t min_length Hr)
    as (mid & Hrm & _ & Hleaves & Hdrop).
  pose proof (prune_spec_regular _ _ Hrm) as Hp.
  destruct (has_leaves mid).
  - exists n, (prune_spec mid). split; [exact Hdrop|]. split; [exact Hp|].
    split; [apply prune_spec_idempotent|].
    rewrite leaves_prune_spec. exact Hleaves.
  - exists 0%nat, (prune_spec mid). split; [exact Hdrop|].
    split; [rewrite Hp; reflexivity|].
    split; [apply prune_spec_idempotent|].
    rewrite leaves_prune_spec. exact Hleaves.
Qed.

(** [drop_short_segments] is idempotent on regular trees: a second call
    with the same [min_length] returns the tree the first call returned. *)
Theorem drop_short_segments_idempotent (n : nat) (t : item) (min_length : Z) :
  regular n t = true ->
  exists t',
    drop_short_segments t min_length = Ok t' /\
    drop_short_segments t' min_length = Ok t'.
Proof.
  intros Hr.
  destruct (drop_short_segments_result n t min_length Hr)
    as (k & t' & Hdrop & Hrk & Hpruned & Hleaves).
  exists t'. split; [exact Hdrop|].
  apply (drop_short_segments_fixed k); [exact Hrk | | exact Hpruned].
  intros s Hs. rewrite Hleaves in Hs.
  apply List.filter_In in Hs as [_ Hs]. exact Hs.
Qed.

(** Two calls of [drop_short_segments] on a regular tree keep the leaves
    that one call with the greater of the two lengths keeps, in the same
    order. *)
Theorem drop_short_segments_twice (n : nat) (t : item) (m1 m2 : Z) :
  regular n t = true ->
  exists t1 t2 t12,
    drop_short_segments t m1 = Ok t1 /\
    drop_short_segments t1 m2 = Ok t2 /\
    drop_short_segments t (Z.max m1 m2) = Ok t12 /\
    leaves t2 = leaves t12 /\
    leaves t2
    = List.filter (fun s => Z.max m1 m2 <? seg_length s) (leaves t).
Proof.
  intros Hr.
  destruct (drop_short_segments_result n t m1 Hr)
    as (k1 & t1 & Hd1 & Hr1 & _ & Hl1).
  destruct (drop_short_segments_result k1 t1 m2 Hr1)
    as (k2 & t2 & Hd2 & _ & _ & Hl2).
  destruct (drop_short_segments_result n t (Z.max m1 m2) Hr)
    as (k12 & t12 & Hd12 & _ & _ & Hl12).
  exists t1, t2, t12. split; [exact Hd1|]. split; [exact Hd2|].
  split; [exact Hd12|].
  assert (Hl : leaves t2
               = List.filter (fun s => Z.max m1 m2 <? seg_length s)
                             (leaves t)).
  { rewrite Hl2, Hl1. clear.
    induction (leaves t) as [|s l IH]; [reflexivity|].
    cbn [List.filter].
    destruct (Z.ltb_spec m1 (seg_length s));
      destruct (Z.ltb_spec (Z.max m1 m2) (seg_length s));
      cbn [List.filter];
      try (destruct (Z.ltb_spec m2 (seg_length s)));
      try lia; rewrite ?IH; reflexivity. }
  split; [congruence | exact Hl].
Qed.

(** *** Random crops that cannot be drawn, or are not asked for *)

Lemma py_sum_zero (l : list Z) : (forall x, In x l -> x = 0) -> py_sum l = 0.
Proof.
  induction l as [|x l IH]; intros Hl; [reflexivity|].
  cbn [py_sum fold_right]. fold (py_sum l).
  rewrite (Hl x (or_introl eq_refl)), IH; [reflexivity|].
  intros y Hy. apply Hl. right. exact Hy.
Qed.

(** [random_crop] raises the error of [np.random.choice] on a regular tree
    all of whose leaves have length zero, a tree without leaves included,
    and for a negative [n_crops], whatever the sampler would return. *)
Theorem random_crop_cannot_draw (n : nat) (t : item) (length_ n_crops : Z)
    (draws1 : list nat) (draws2 : nat -> list nat) :
  regular n t = true ->
  (forall s, In s (leaves t) -> seg_length s = 0) \/ n_crops < 0 ->
  random_crop t length_ n_crops draws1 draws2 = Raise ChoiceError.
Proof.
  intros Hr Hcase. unfold random_crop.
  rewrite (iter_level_parents _ _ Hr). cbn [bind].
  rewrite (first_stage_weights _ _ Hr). cbn [bind].
  unfold random_choice.
  destruct Hcase as [Hzero | Hneg].
  - rewrite py_sum_zero; [reflexivity|].
    intros x Hx. apply in_map_iff in Hx as (well & <- & Hin).
    destruct (regular_parents _ _ _ Hr Hin) as [_ Hsub].
    apply py_sum_zero. intros y Hy.
    apply in_map_iff in Hy as (s & <- & Hs). auto.
  - destruct (Z.ltb_spec n_crops 0); [|lia].
    rewrite orb_true_r. reflexivity.
Qed.

Lemma prune_spec_leafless (segments : list item) :
  has_leaves (W segments) = false -> prune_spec (W segments) = W [].
Proof.
  rewrite has_leaves_well. intros Hnone. cbn [prune_spec]. f_equal.
  induction segments as [|c cs IH]; [reflexivity|].
  cbn [existsb] in Hnone. apply orb_false_iff in Hnone as [Hc Hcs].
  cbn [flat_map]. rewrite (IH Hcs), Hc.
  destruct c; [discriminate Hc | reflexivity].
Qed.

(** With [n_crops = 0] on a regular tree that has a leaf of positive
    length and no leaf of negative length, the first sampling draws
    nothing, every parent of leaves loses its children and the final
    [prune] leaves the well without children. *)
Theorem random_crop_zero_crops (n : nat) (t : item) (length_ : Z)
    (draws1 : list nat) (draws2 : nat -> list nat) :
  regular n t = true ->
  (forall s, In s (leaves t) -> 0 <= seg_length s) ->
  (exists well, In well (level_nodes n t) /\ 0 < leaf_length_total well) ->
  drawn (map leaf_length_total (level_nodes n t)) 0 draws1 ->
  random_crop t length_ 0 draws1 draws2 = Ok (W []).
Proof.
  intros Hr Hnonneg (well0 & Hin0 & Hpos0) [Hlen _].
  destruct draws1; [|discriminate Hlen]. clear Hlen.
  unfold random_crop.
  rewrite (iter_level_parents _ _ Hr). cbn [bind].
  rewrite (first_stage_weights _ _ Hr). cbn [bind].
  rewrite random_choice_ok; [| | |lia].
  - cbn [bind].
    destruct (assign_segments_regular
                (fun i well =>
                   if 0 <? counter_get [] i then
                     segments <- segments_of well ;;
                     p <- mapM length segments ;;
                     random_segments <-
                       random_choice p (counter_get [] i) (draws2 i) ;;
                     mapM (fun j =>
                             match nth_error segments j with
                             | Some segment =>
                                 wrap (fun s =>
                                         segment_random_crop s length_
                                           (counter_get random_segments j))
                                      segment
                             | None => Raise Unmodelled
                             end)
                          (counter_keys random_segments)
                   else Ok [])
                (fun _ _ => []) n t Hr)
      as (mid & Hmid & Hlv & HB); [reflexivity|].
    rewrite Hmid. cbn [bind].
    assert (Hcropped : layered is_cropped n mid = true).
    { apply HB. apply List.Forall_forall. reflexivity. }
    rewrite (prune_cropped _ _ Hcropped).
    assert (Hw : is_well mid = true).
    { apply (layered_is_well is_cropped n); [|exact Hcropped].
      intros [s | segs]; [discriminate | reflexivity]. }
    destruct mid as [s | segments]; [discriminate|].
    rewrite prune_spec_leafless; [reflexivity|].
    apply has_leaves_nil.
    rewrite (leaves_level_nodes _ _ _ Hcropped), Hlv, flat_map_of_map.
    clear. induction (combine _ _) as [|x l IH]; [reflexivity | exact IH].
  - intros y Hy. apply in_map_iff in Hy as (well & <- & Hw).
    exact (leaf_length_total_nonneg _ _ _ Hr Hnonneg Hw).
  - apply (py_sum_pos _ (leaf_length_total well0)); [| |exact Hpos0].
    + intros y Hy. apply in_map_iff in Hy as (well & <- & Hw).
      exact (leaf_length_total_nonneg _ _ _ Hr Hnonneg Hw).
    + apply in_map. exact Hin0.
Qed.

End with_segment_ops.

(** *** Persistence and construction *)

Section with_collaborators.
Context `{SegmentOps}.
Variable segment_dump : WellSegment -> string -> res unit.
Variable load_segment : string -> res WellSegment.
Variable get_fullpath : string -> string.

(** [dump] on a regular tree dumps one leaf only, the first leaf of the
    tree, when the first parent of leaves has a leaf; when that parent has
    no leaf it raises [IndexError], whatever leaves the other parents
    have. *)
Theorem dump_first_leaf (n : nat) (t : item) (path : string) :
  regular n t = true ->
  (first_parent_has_leaf t = true ->
   exists s rest,
     leaves t = s :: rest /\ dump segment_dump t path = segment_dump s path) /\
  (first_parent_has_leaf t = false ->
   dump segment_dump t path = Raise IndexError).
Proof.
  revert t. induction n as [|n IH]; intros t Hr;
    destruct (regular_is_well _ _ Hr) as [segments ->].
  - destruct segments as [|[s | segs] cs].
    + split; [discriminate | reflexivity].
    + split; [|discriminate]. intros _.
      exists s, (flat_map leaves cs). split; reflexivity.
    + discriminate Hr.
  - destruct (regular_S_inv _ _ Hr) as [Hne Hall].
    destruct segments as [|c cs]; [congruence|].
    assert (Hc : regular n c = true) by (apply Hall; left; reflexivity).
    destruct (regular_is_well _ _ Hc) as [segs ->].
    destruct (IH _ Hc) as [IH1 IH2].
    cbn [first_parent_has_leaf dump]. split.
    + intros Hf. destruct (IH1 Hf) as (s & rest & Hl & Hd).
      exists s, (rest ++ flat_map leaves cs). split; [|exact Hd].
      cbn [leaves flat_map] in *. rewrite Hl. reflexivity.
    + exact IH2.
Qed.

(** A batch built from an index has its identifiers as index and one
    well per identifier, in order: the well over the one leaf loaded from
    the identifier's path, of tree depth 2 with one segment.  If the
    construction raises, the exception is that of the loading of one of
    the identifiers. *)
Theorem init_batch_wells (indices : list string) :
  (forall b,
     init_batch load_segment get_fullpath indices = Ok b ->
     WellBatch.index b = indices /\
     List.length (WellBatch.wells b) = List.length (WellBatch.index b) /\
     Forall2 (fun i w =>
                exists s,
                  load_segment (get_fullpath i) = Ok s /\
                  w = WellBatch.Returned (W [Seg s]) /\
                  tree_depth (W [Seg s]) = Ok 2 /\
                  n_segments (W [Seg s]) = Ok 1)
             indices (WellBatch.wells b)) /\
  (forall e,
     init_batch load_segment get_fullpath indices = Raise e ->
     exists i, In i indices /\ load_segment (get_fullpath i) = Raise e).
Proof.
  unfold init_batch, init_wells. split.
  - intros b.
    destruct (mapM _ indices) as [wells|e] eqn:E; cbn [bind]; [|discriminate].
    intros [= <-]. cbn [WellBatch.index WellBatch.wells].
    pose proof (mapM_inv _ _ _ E) as HF.
    split; [reflexivity|]. split.
    + rewrite length_map. exact (mapM_length _ _ _ E).
    + clear E. induction HF as [|i well l wells Hi _ IH]; [constructor|].
      cbn [map]. constructor; [|exact IH].
      unfold __init__ in Hi.
      destruct (load_segment (get_fullpath i)) as [s|e]; [|discriminate].
      injection Hi as <-. exists s. repeat split; reflexivity.
  - intros e.
    destruct (mapM _ indices) as [wells|e'] eqn:E; cbn [bind]; [discriminate|].
    intros [= ->].
    destruct (mapM_raise_inv _ _ _ E) as (i & Hi & Hraise).
    exists i. split; [exact Hi|]. unfold __init__ in Hraise.
    destruct (load_segment (get_fullpath i)); [discriminate|].
    cbn [bind] in Hraise. injection Hraise as ->. reflexivity.
Qed.

End with_collaborators.

(** *** A delegated operation through a whole tree *)

Section delegated.
Context `{SegmentOps}.
Variable op : WellSegment -> res leaf_value.
Variable v : WellSegment -> leaf_value.

Lemma contribution_parent (ls : list WellSegment) :
  (forall s, In s ls -> op s = Ok (v s)) ->
  mapM (contribution op) (map Seg ls)
  = Ok (map (fun s => map Seg (leaf_items (v s))) ls).
Proof.
  intros Hop. rewrite mapM_map. apply mapM_Ok_map.
  intros s Hs. cbn [contribution]. rewrite (Hop s Hs). reflexivity.
Qed.

Lemma contribution_regular (n : nat) (t : item) :
  regular n t = true ->
  (forall s, In s (leaves t) -> op s = Ok (v s)) ->
  exists t',
    contribution op t = Ok [t'] /\
    regular n t' = true /\
    leaves t' = flat_map (fun s => leaf_items (v s)) (leaves t) /\
    forall k, (k <= n)%nat ->
      List.length (level_nodes k t') = List.length (level_nodes k t).
Proof.
  revert t. induction n as [|n IH]; intros t Hr Hop;
    destruct (regular_is_well _ _ Hr) as [segments ->].
  - cbn [regular] in Hr. pose proof (parent_segments _ Hr) as Hsegs.
    exists (W (map Seg (flat_map (fun s => leaf_items (v s))
                                 (leaves (W segments))))).
    split; [|split; [|split]].
    + change (contribution op (W segments))
        with (results <- mapM (contribution op) segments ;;
              Ok [W (concat results)]).
      rewrite Hsegs at 1.
      rewrite (contribution_parent (flat_map leaves segments) Hop).
      cbn [bind leaves]. do 3 f_equal.
      rewrite concat_map_flat_map, map_flat_map. reflexivity.
    + cbn [regular]. apply forallb_forall. intros c Hc.
      apply in_map_iff in Hc as (? & <- & _). reflexivity.
    + apply leaves_map_Seg_well.
    + intros k Hk. replace k with 0%nat by lia. reflexivity.
  - destruct (regular_S_inv _ _ Hr) as [Hne Hall].
    destruct (mapM_exists (contribution op)
                (fun c r => exists c',
                   r = [c'] /\ regular n c' = true /\
                   leaves c' = flat_map (fun s => leaf_items (v s)) (leaves c)
                   /\ forall k, (k <= n)%nat ->
                        List.length (level_nodes k c')
                        = List.length (level_nodes k c))
                segments) as (rs & Hrs & HF).
    { intros c Hc. destruct (IH c (Hall c Hc)) as (c' & H1 & H2 & H3 & H4).
      - intros s Hs. apply Hop. cbn [leaves]. apply in_flat_map. eauto.
      - exists [c']. split; [exact H1|]. exists c'. auto. }
    assert (Hcs : List.length (concat rs) = List.length segments /\
                  forallb (regular n) (concat rs) = true /\
                  flat_map leaves (concat rs)
                  = flat_map (fun c => flat_map (fun s => leaf_items (v s))
                                                (leaves c)) segments /\
                  forall k, (k <= n)%nat ->
                    List.length (flat_map (level_nodes k) (concat rs))
                    = List.length (flat_map (level_nodes k) segments)).
    { clear -HF. induction HF as [|c r l rs (c' & -> & H2 & H3 & H4) _ IHF].
      - repeat split; reflexivity.
      - destruct IHF as (I1 & I2 & I3 & I4).
        cbn [concat app flat_map forallb List.length].
        rewrite H2, I2, H3, I3, I1. repeat split; auto.
        intros k Hk. rewrite !length_app, (H4 k Hk), (I4 k Hk). reflexivity. }
    destruct Hcs as (C1 & C2 & C3 & C4).
    exists (W (concat rs)). split; [|split; [|split]].
    + change (contribution op (W segments))
        with (results <- mapM (contribution op) segments ;;
              Ok [W (concat results)]).
      rewrite Hrs. reflexivity.
    + change (regular (S n) (W (concat rs)))
        with (match concat rs with [] => false | _ :: _ => true end
              && forallb (regular n) (concat rs)).
      rewrite C2, andb_true_r.
      destruct (concat rs); [|reflexivity].
      destruct segments; [congruence | discriminate C1].
    + cbn [leaves]. rewrite C3, flat_map_flat_map. reflexivity.
    + intros [|k] Hk; [reflexivity|].
      change (level_nodes (S k) (W (concat rs)))
        with (flat_map (level_nodes k) (concat rs)).
      change (level_nodes (S k) (W segments))
        with (flat_map (level_nodes k) segments).
      apply C4. lia.
Qed.

(** A delegated leaf operation applied to a regular tree, when the leaves
    return: the result is a regular tree of the same tree depth with as
    many wells at every level (no level is added and nothing is pruned),
    and its leaves are what the leaves returned, in the order of the
    original leaves. *)
Theorem delegator_keeps_shape (n : nat) (segments : list item) :
  regular n (W segments) = true ->
  (forall s, In s (leaves (W segments)) -> op s = Ok (v s)) ->
  exists t',
    delegator op segments = Ok t' /\
    regular n t' = true /\
    tree_depth t' = tree_depth (W segments) /\
    leaves t'
    = flat_map (fun s => leaf_items (v s)) (leaves (W segments)) /\
    forall k, (k <= n)%nat ->
      List.length (level_nodes k t')
      = List.length (level_nodes k (W segments)).
Proof.
  intros Hr Hop.
  destruct (contribution_regular n (W segments) Hr Hop)
    as (t' & Hc & Hr' & Hl & Hk).
  exists t'. split.
  - unfold delegator.
    change (contribution op (W segments))
      with (results <- mapM (contribution op) segments ;;
            Ok [W (concat results)]) in Hc.
    destruct (mapM (contribution op) segments); cbn [bind] in *;
      [|discriminate].
    injection Hc as <-. reflexivity.
  - split; [exact Hr'|]. split; [|split; [exact Hl | exact Hk]].
    rewrite (regular_tree_depth _ _ Hr'), (regular_tree_depth _ _ Hr).
    reflexivity.
Qed.

End delegated.

End WellMoreFacts.

(** ** Transforms on the objects *)

Module InPlaceFacts.
Import Well Tree WellFacts WellMoreFacts.

Section with_segment_ops.
Context `{SegmentOps}.

Lemma assign_loop_mapM (F : nat -> item -> res (list item))
    (wells : list item) (i : nat) :
  mapM (fun iw => F (fst iw) (snd iw))
       (combine (seq i (List.length wells)) wells)
  = match snd (InPlace.assign_loop F i wells) with
    | Some e => Raise e
    | None => Ok (fst (InPlace.assign_loop F i wells))
    end.
Proof.
  revert i. induction wells as [|well rest IH]; intros i; [reflexivity|].
  cbn [List.length seq combine mapM fst snd InPlace.assign_loop].
  fold (mapM (fun iw : nat * item => F (fst iw) (snd iw))).
  destruct (F i well) as [new|e]; cbn [bind fst snd]; [|reflexivity].
  rewrite IH.
  destruct (snd (InPlace.assign_loop F (S i) rest)); reflexivity.
Qed.

Lemma assign_loop_finished (F : nat -> item -> res (list item))
    (wells : list item) (i : nat) :
  snd (InPlace.assign_loop F i wells) = None ->
  List.length (fst (InPlace.assign_loop F i wells)) = List.length wells.
Proof.
  revert i. induction wells as [|well rest IH]; intros i; [reflexivity|].
  cbn [InPlace.assign_loop].
  destruct (F i well) as [new|e]; cbn [fst snd]; [|discriminate].
  intros Hnone. cbn [List.length]. rewrite (IH _ Hnone). reflexivity.
Qed.

Lemma assign_loop_stops (F : nat -> item -> res (list item))
    (G : item -> list item) (before after : list item) (well : item)
    (e : exn) (i : nat) :
  (forall j w, In w before -> F j w = Ok (G w)) ->
  (forall j, F j well = Raise e) ->
  InPlace.assign_loop F i (before ++ well :: after)
  = (map G before, Some e).
Proof.
  intros Hbefore Hwell. revert i.
  induction before as [|w ws IH]; intros i.
  - cbn. rewrite Hwell. reflexivity.
  - cbn [app InPlace.assign_loop map].
    rewrite (Hbefore i w) by (left; reflexivity).
    rewrite IH by (intros; apply Hbefore; right; assumption).
    reflexivity.
Qed.

Lemma skipn_length_app {A} (l k : list A) :
  skipn (List.length l) (l ++ k) = k.
Proof. induction l as [|x l IH]; [reflexivity | exact IH]. Qed.

Lemma on_parents_agree (F : nat -> item -> res (list item)) (t : item) :
  fst (InPlace.on_parents_of_leaves F t) = on_parents_of_leaves F t /\
  forall t', on_parents_of_leaves F t = Ok t' ->
             InPlace.on_parents_of_leaves F t = (Ok t', t').
Proof.
  unfold InPlace.on_parents_of_leaves, on_parents_of_leaves.
  destruct (iter_level t (-2)) as [wells|e]; cbn [bind fst];
    [|split; [reflexivity | discriminate]].
  unfold InPlace.assign_segments, assign_segments.
  rewrite assign_loop_mapM. cbv zeta.
  destruct (snd (InPlace.assign_loop F 0 wells)) as [e|] eqn:E;
    cbn [bind fst]; [split; [reflexivity | discriminate]|].
  rewrite List.skipn_all2
    by (rewrite (assign_loop_finished _ _ _ E); apply Nat.le_refl).
  cbn [map]. rewrite app_nil_r.
  split; [reflexivity|]. intros t' Hput. rewrite Hput. reflexivity.
Qed.

(** A call that raises at one parent of leaves has rewritten the parents
    before it and no other. *)
Lemma on_parents_raise_partial (F : nat -> item -> res (list item))
    (G : item -> list item) (n : nat) (t : item)
    (before after : list item) (well : item) (e : exn) :
  regular n t = true ->
  level_nodes n t = before ++ well :: after ->
  (forall j w, In w before -> F j w = Ok (G w)) ->
  (forall j, F j well = Raise e) ->
  exists t',
    InPlace.on_parents_of_leaves F t = (Raise e, t') /\
    level_nodes n t' = map (fun w => W (G w)) before ++ well :: after.
Proof.
  intros Hr Hlv Hbefore Hwell.
  unfold InPlace.on_parents_of_leaves.
  rewrite (iter_level_parents _ _ Hr), Hlv.
  unfold InPlace.assign_segments.
  rewrite (assign_loop_stops F G before after well e 0 Hbefore Hwell).
  cbv zeta. cbn [fst snd]. rewrite length_map, skipn_length_app.
  rewrite (regular_tree_depth _ _ Hr). cbn [bind].
  replace (Z.to_nat (Z.of_nat n + 2 - 2)) with n by lia.
  destruct (put_level_layered n t (regular_is_layered_well _ _ Hr)
              (map G before ++ map InPlace.kept_segments (well :: after)) [])
    as (t' & Hput & Hlv' & _).
  { rewrite Hlv, !length_app, !length_map. reflexivity. }
  rewrite app_nil_r in Hput. rewrite Hput. cbn [bind fst].
  exists t'. split; [reflexivity|].
  rewrite Hlv', map_app, !map_map. f_equal.
  rewrite <- (map_id (well :: after)) at 2.
  apply map_ext_in. intros w Hw.
  assert (Hin : In w (level_nodes n t)).
  { rewrite Hlv. apply in_or_app. right. exact Hw. }
  destruct (regular_parents _ _ _ Hr Hin) as [-> _]. reflexivity.
Qed.

Lemma mapM_wrap_raise (op : WellSegment -> res (list WellSegment))
    (g : WellSegment -> list WellSegment) (l1 l2 : list WellSegment)
    (s : WellSegment) (e : exn) :
  (forall s', In s' l1 -> op s' = Ok (g s')) ->
  op s = Raise e ->
  mapM (wrap op) (map Seg (l1 ++ s :: l2)) = Raise e.
Proof.
  intros Hl1 Hs. induction l1 as [|x l1 IH].
  - cbn [app map mapM wrap]. rewrite Hs. reflexivity.
  - cbn [app map mapM wrap].
    rewrite (Hl1 x) by (left; reflexivity). cbn [bind].
    fold (mapM (wrap op)).
    rewrite IH by (intros; apply Hl1; right; assumption). reflexivity.
Qed.


(** A [crop] that raises is not undone.  On a regular tree, when the
    first leaf whose [crop] raises is under the parent [well], the
    call raises that exception and leaves the tree with every parent of
    leaves before [well] rewritten over the crops of its leaves, and
    [well] and the parents after it as they were. *)
Theorem crop_raise_keeps_earlier_parents (n : nat) (t : item)
    (length_ step : Z) (drop_last : bool)
    (g : WellSegment -> list WellSegment)
    (before after : list item) (well : item)
    (l1 l2 : list WellSegment) (s : WellSegment) (e : exn) :
  regular n t = true ->
  level_nodes n t = before ++ well :: after ->
  leaves well = l1 ++ s :: l2 ->
  (forall s', In s' (flat_map leaves before ++ l1) ->
              segment_crop s' length_ step drop_last = Ok (g s')) ->
  segment_crop s length_ step drop_last = Raise e ->
  exists t',
    InPlace.crop t length_ step drop_last = (Raise e, t') /\
    crop t length_ step drop_last = Raise e /\
    level_nodes n t'
    = map (fun w => W (map (fun s' => W (map Seg (g s'))) (leaves w))) before
      ++ well :: after.
Proof.
  intros Hr Hlv Hleaves Hok Hraise.
  assert (Hparent : forall w, In w (before ++ well :: after) ->
                              w = W (map Seg (leaves w))).
  { intros w Hw. rewrite <- Hlv in Hw.
    exact (proj1 (regular_parents _ _ _ Hr Hw)). }
  destruct (on_parents_raise_partial
              (fun _ w => segments <- segments_of w ;;
                          mapM (wrap (fun s' => segment_crop s' length_ step
                                                  drop_last)) segments)
              (fun w => map (fun s' => W (map Seg (g s'))) (leaves w))
              n t before after well e Hr Hlv)
    as (t' & Hrun & Hlv').
  - intros _ w Hw.
    rewrite (Hparent w) at 1 by (apply in_or_app; left; exact Hw).
    cbn [segments_of bind]. apply mapM_wrap. intros s' Hs'.
    apply Hok. apply in_or_app. left. apply in_flat_map. eauto.
  - intros _.
    rewrite (Hparent well) at 1
      by (apply in_or_app; right; left; reflexivity).
    cbn [segments_of bind]. rewrite Hleaves.
    apply (mapM_wrap_raise _ g); [|exact Hraise].
    intros s' Hs'. apply Hok. apply in_or_app. right. exact Hs'.
  - exists t'. split; [exact Hrun|]. split; [|exact Hlv'].
    unfold crop, InPlace.crop in *.
    rewrite <- (proj1 (on_parents_agree _ t)), Hrun. reflexivity.
Qed.

End with_segment_ops.
End InPlaceFacts.

(** ** More runs on concrete batches and trees *)

Module MoreRuns.
Import WellBatch Dispatcher Well Tree Samples MoreSamples.

Lemma filter_assemble_raise_run :
  _filter_assemble str_well batch_3
    [Returned well_ab; Failed "boom"; Skipped "no core"]
  = (Raise (RuntimeError "Could not assemble the batch"), batch_3,
     [PrintErrors [Failed "boom"]; PrintTraceback (Failed "boom")]) /\
  batch_3 = batch_3.
Proof.
  assert (Hrun : _filter_assemble str_well batch_3
                   [Returned well_ab; Failed "boom"; Skipped "no core"]
                 = (Raise (RuntimeError "Could not assemble the batch"),
                    batch_3,
                    [PrintErrors [Failed "boom"];
                     PrintTraceback (Failed "boom")])) by reflexivity.
  split; [exact Hrun|].
  exact (proj1 (WellBatchMoreFacts.filter_assemble_raise_keeps_batch
                  str_well _ _ _ _ _ Hrun)).
Defined.

Lemma filter_assemble_return_run :
  _filter_assemble str_well batch_3
    [Returned well_ab; Skipped "no core"; Returned well_abc]
  = (Ok tt,
     mkBatch ["well_1"; "well_3"]%string
       [Returned well_ab; Returned well_abc], []) /\
  List.length ["well_1"; "well_3"]%string
  = List.length [Returned well_ab; Returned well_abc].
Proof.
  assert (Hrun : _filter_assemble str_well batch_3
                   [Returned well_ab; Skipped "no core"; Returned well_abc]
                 = (Ok tt,
                    mkBatch ["well_1"; "well_3"]%string
                      [Returned well_ab; Returned well_abc], []))
    by reflexivity.
  split; [exact Hrun|].
  destruct (WellBatchMoreFacts.filter_assemble_return_keeps_invariant
              str_well _ _ _ _ Hrun) as (_ & _ & _ & _ & _ & _ & _ & Hlen).
  exact Hlen.
Defined.

Lemma parallel_action_run :
  (wells batch_2 = map Returned [well_abc; W []] /\
   List.length (index batch_2) = List.length [well_abc; W []] /\
   WellBatchMore.parallel_action str_well sample_str_exn skip_empty batch_2
   = (Ok tt, mkBatch ["well_1"%string] [Returned well_abc], [])) /\
  sublist ["well_1"%string] (index batch_2).
Proof.
  assert (Hrun : WellBatchMore.parallel_action str_well sample_str_exn
                   skip_empty batch_2
                 = (Ok tt, mkBatch ["well_1"%string] [Returned well_abc], []))
    by reflexivity.
  split; [repeat split; try reflexivity; exact Hrun|].
  destruct (WellBatchMoreFacts.parallel_action_keeps_batch str_well
              sample_str_exn skip_empty batch_2 _ [well_abc; W []] _ _
              eq_refl eq_refl Hrun) as (Hsub & _).
  exact Hsub.
Defined.

Lemma delegator_raises_run :
  (sample_store !! 1%positive
   = Some (mkObj ([RSeg seg_a] ++ RWell 2%positive :: []) sample_others) /\
   calls failing_method [RSeg seg_a] sample_store [One (RSeg seg_a)]
     sample_store /\
   failing_method (RWell 2%positive) sample_store
   = Raise (SkipWellException "no core")) /\
  delegator failing_method 1%positive sample_store
  = Raise (SkipWellException "no core").
Proof.
  assert (H1 : sample_store !! 1%positive
               = Some (mkObj ([RSeg seg_a] ++ RWell 2%positive :: [])
                         sample_others))
    by reflexivity.
  assert (H2 : calls failing_method [RSeg seg_a] sample_store
                 [One (RSeg seg_a)] sample_store).
  { eapply calls_cons; [reflexivity | apply calls_nil]. }
  split; [repeat split; auto|].
  exact (DispatcherFacts.delegator_raises failing_method 1%positive
           sample_store sample_store _ _ _ _ _ _ H1 H2 eq_refl).
Defined.

Lemma regular_navigation_run :
  regular 1 well_abc = true /\
  @tree_depth sample_ops well_abc = Ok 3 /\
  @n_segments sample_ops well_abc = Ok 3 /\
  exists l, @iter_level sample_ops well_abc 1 = Ok l /\
            flat_map leaves l = [seg_a; seg_b; seg_c].
Proof.
  split; [reflexivity|].
  destruct (@WellMoreFacts.regular_navigation sample_ops 1 well_abc eq_refl)
    as (Hd & Hn & _ & Hk).
  split; [exact Hd|]. split; [exact Hn|].
  destruct (Hk 1%nat) as (l & Hl & Hleaves); [lia|].
  exists l. split; [exact Hl | exact Hleaves].
Defined.

Lemma iter_level_at_tree_depth_run :
  regular 1 well_abc = true /\
  @iter_level sample_ops well_abc 3 = Raise AttributeError /\
  @iter_level sample_ops well_abc 4 = Raise (InvalidLevel 4 3).
Proof.
  split; [reflexivity|].
  destruct (@WellMoreFacts.iter_level_at_tree_depth sample_ops 1 well_abc
              eq_refl) as [H1 H2].
  split; [exact H1 | exact H2].
Defined.

Lemma prune_regular_result_run :
  regular 1 well_empty_first = true /\
  exists t', @prune sample_ops well_empty_first = Ok t' /\
             leaves t' = [seg_c] /\ no_bare_well t' = true.
Proof.
  split; [reflexivity|].
  destruct (@WellMoreFacts.prune_regular_result sample_ops 1 well_empty_first
              eq_refl) as (t' & Hp & Hl & Hsome & _).
  exists t'. split; [exact Hp|]. split; [exact Hl|].
  apply Hsome. discriminate.
Defined.

Lemma depth_bounds_run :
  (depth_from well_abc = Ok 0 /\ depth_to well_abc = Ok 50) /\
  length well_abc = Ok (50 - 0) /\
  is_min 0 [0; 1; 20] /\ is_max 50 [1; 11; 50].
Proof.
  split; [split; reflexivity|].
  destruct (WellMoreFacts.depth_bounds_over_leaves
              [W [Seg seg_a; Seg seg_b]; W [Seg seg_c]] 0 50 eq_refl eq_refl)
    as (Hmin & Hmax & Hlen & _).
  split; [exact Hlen|]. split; [exact Hmin | exact Hmax].
Defined.

Lemma wrapping_transforms_leaves_run :
  regular 1 well_abc = true /\
  exists t', @crop sample_ops well_abc 5 1 true = Ok t' /\
             leaves t' = [piece seg_b 5; piece seg_c 5] /\
             List.length (level_nodes 2 t') = 3%nat.
Proof.
  split; [reflexivity|].
  destruct (@WellMoreFacts.wrapping_transforms_leaves sample_ops 1 well_abc
              "DEPTH" true 5 1 true (fun s => [s])
              (fun s => if seg_length s <? 5 then [] else [piece s 5])
              eq_refl) as [_ Hcrop].
  destruct Hcrop as (t' & Ht' & Hlv & Hl).
  { intros s _. cbn. destruct (seg_length s <? 5); reflexivity. }
  exists t'. split; [exact Ht'|]. split; [exact Hl|].
  rewrite Hlv. reflexivity.
Defined.

Lemma drop_nans_run :
  (regular 1 well_abc = true /\ no_empty well_abc = true) /\
  exists t', @drop_nans sample_ops well_abc "DT" = Ok t' /\
             leaves t' = [seg_a; seg_b; seg_c] /\
             @tree_depth sample_ops t' = Ok 4.
Proof.
  split; [split; reflexivity|].
  destruct (@WellMoreFacts.drop_nans_regular sample_ops (fun s => [s])
              1 well_abc "DT" eq_refl eq_refl)
    as (t' & Ht' & Hl & Hsome & _).
  { intros s _. reflexivity. }
  exists t'. split; [exact Ht'|]. split; [exact Hl|].
  apply Hsome. rewrite Hl. discriminate.
Defined.

Lemma drop_short_segments_idempotent_run :
  regular 1 well_abc = true /\
  exists t', @drop_short_segments sample_ops well_abc 5 = Ok t' /\
             @drop_short_segments sample_ops t' 5 = Ok t'.
Proof.
  split; [reflexivity|].
  exact (@WellMoreFacts.drop_short_segments_idempotent sample_ops 1 well_abc 5
           eq_refl).
Defined.

Lemma drop_short_segments_twice_run :
  regular 1 well_abc = true /\
  exists t1 t2,
    @drop_short_segments sample_ops well_abc 5 = Ok t1 /\
    @drop_short_segments sample_ops t1 20 = Ok t2 /\
    leaves t2 = [seg_c].
Proof.
  split; [reflexivity|].
  destruct (@WellMoreFacts.drop_short_segments_twice sample_ops 1 well_abc
              5 20 eq_refl) as (t1 & t2 & t12 & H1 & H2 & _ & _ & Hl).
  exists t1, t2. split; [exact H1|]. split; [exact H2 | exact Hl].
Defined.

Lemma random_crop_cannot_draw_run :
  (regular 0 (W [Seg seg_point]) = true /\
   forall s, In s (leaves (W [Seg seg_point])) -> seg_length s = 0) /\
  @random_crop sample_ops (W [Seg seg_point]) 5 3 sample_draws1 sample_draws2
  = Raise ChoiceError.
Proof.
  assert (Hz : forall s, In s (leaves (W [Seg seg_point])) -> seg_length s = 0).
  { intros s [<- | []]. reflexivity. }
  split; [split; [reflexivity | exact Hz]|].
  apply (@WellMoreFacts.random_crop_cannot_draw sample_ops 0);
    [reflexivity | left; exact Hz].
Defined.

Lemma random_crop_zero_crops_run :
  (regular 1 well_abc = true /\
   @drawn (map leaf_length_total (level_nodes 1 well_abc)) 0 []) /\
  @random_crop sample_ops well_abc 5 0 [] sample_draws2 = Ok (W []).
Proof.
  assert (Hd : @drawn (map leaf_length_total (level_nodes 1 well_abc)) 0 [])
    by (split; [reflexivity | constructor]).
  split; [split; [reflexivity | exact Hd]|].
  apply (@WellMoreFacts.random_crop_zero_crops sample_ops 1).
  - reflexivity.
  - intros s [<- | [<- | [<- | []]]]; unfold seg_length; cbn; lia.
  - exists (W [Seg seg_c]).
    split; [right; left; reflexivity | reflexivity].
  - exact Hd.
Defined.

Lemma wrapping_transforms_raise_run :
  (regular 1 well_abc = true /\
   @crop strict_ops well_abc 5 1 true = Raise (OtherException "short")) /\
  exists s, In s [seg_a; seg_b; seg_c] /\
            @segment_crop strict_ops s 5 1 true
            = Raise (OtherException "short").
Proof.
  split; [split; reflexivity|].
  destruct (@WellMoreFacts.wrapping_transforms_raise strict_ops 1 well_abc
              "DEPTH" true 5 1 true (OtherException "short") eq_refl)
    as [_ Hcrop].
  exact (Hcrop eq_refl).
Defined.

Lemma dump_first_leaf_run :
  (regular 1 well_abc = true /\ first_parent_has_leaf well_abc = true) /\
  (exists s rest, leaves well_abc = s :: rest /\
                  WellMore.dump sample_dump well_abc "out"
                  = sample_dump s "out") /\
  WellMore.dump sample_dump well_empty_first "out" = Raise IndexError.
Proof.
  split; [split; reflexivity|]. split.
  - destruct (WellMoreFacts.dump_first_leaf sample_dump 1 well_abc "out"
                eq_refl) as [Hfirst _].
    exact (Hfirst eq_refl).
  - reflexivity.
Defined.

Lemma init_batch_run :
  exists b,
    WellMore.init_batch sample_load sample_fullpath ["w1"; "w2"]%string = Ok b /\
    WellBatch.index b = ["w1"; "w2"]%string /\
    List.length (WellBatch.wells b) = 2%nat.
Proof.
  eexists. split; [reflexivity|].
  destruct (@WellMoreFacts.init_batch_wells sample_ops sample_load
              sample_fullpath ["w1"; "w2"]%string) as [Hok _].
  destruct (Hok _ eq_refl) as (Hi & Hl & _).
  split; [exact Hi|]. rewrite Hl, Hi. reflexivity.
Defined.

Lemma delegator_keeps_shape_run :
  regular 1 well_abc = true /\
  exists t',
    WellMore.delegator sample_op [W [Seg seg_a; Seg seg_b]; W [Seg seg_c]]
    = Ok t' /\
    regular 1 t' = true /\
    leaves t' = [seg_a; seg_a; seg_b; seg_b; seg_c; seg_c].
Proof.
  split; [reflexivity|].
  destruct (@WellMoreFacts.delegator_keeps_shape sample_ops sample_op
              sample_value 1 [W [Seg seg_a; Seg seg_b]; W [Seg seg_c]]
              eq_refl) as (t' & Ht' & Hr & _ & Hl & _).
  { intros s _. reflexivity. }
  exists t'. split; [exact Ht'|]. split; [exact Hr | exact Hl].
Defined.



Lemma dispatch_failure_run :
  (wells batch_c_then_a = map Returned [well_c; well_a] /\
   fst (crop_or_fail 50 well_a) = Raise (OtherException "short")) /\
  exists out,
    WellBatchMore.parallel_action str_well sample_str_exn (crop_or_fail 50)
      batch_c_then_a
    = (Raise (RuntimeError "Could not assemble the batch"),
       batch_c_then_a, out).
Proof.
  split; [split; reflexivity|].
  destruct (WellBatchMoreFacts.dispatch_failure_is_fatal str_well
              sample_str_exn (crop_or_fail 50) batch_c_then_a
              [well_c; well_a] well_a (OtherException "short"))
    as (first & _ & _ & Hsame);
    try reflexivity.
  - right; left; reflexivity.
  - discriminate.
  - eexists. apply Hsame.
    intros w [<- | [<- | []]]; reflexivity.
Defined.

(** C3, when a root is changed before another fails.  The crop of the
    first root returns, the crop of the second raises at its short
    leaf.  The action raises the fatal error, and the array then holds
    the first root cropped: it is not as it was before the dispatch. *)
Lemma dispatch_failure_commits_crop :
  fst (crop_or_fail 5 well_c) = Ok (W [W [W [Seg (piece seg_c 5)]]]) /\
  fst (crop_or_fail 5 well_a) = Raise (OtherException "short") /\
  exists self' out,
    WellBatchMore.parallel_action str_well sample_str_exn (crop_or_fail 5)
      batch_c_then_a
    = (Raise (RuntimeError "Could not assemble the batch"), self', out) /\
    index self' = index batch_c_then_a /\
    wells self'
    = [Returned (W [W [W [Seg (piece seg_c 5)]]]); Returned well_a] /\
    wells self' <> wells batch_c_then_a.
Proof.
  split; [reflexivity|]. split; [reflexivity|].
  eexists _, _. split; [reflexivity|]. split; [reflexivity|].
  split; [reflexivity | discriminate].
Qed.

Lemma crop_raise_run :
  (regular 1 well_c_a = true /\
   level_nodes 1 well_c_a = [W [Seg seg_c]] ++ W [Seg seg_a] :: [] /\
   @segment_crop skipping_ops seg_a 5 1 true
   = Raise (SkipWellException "short")) /\
  exists t',
    @InPlace.crop skipping_ops well_c_a 5 1 true
    = (Raise (SkipWellException "short"), t') /\
    level_nodes 1 t' = [W [W [Seg (piece seg_c 5)]]; W [Seg seg_a]].
Proof.
  split; [repeat split; reflexivity|].
  destruct (@InPlaceFacts.crop_raise_keeps_earlier_parents skipping_ops
              1 well_c_a 5 1 true (fun s => [piece s 5])
              [W [Seg seg_c]] [] (W [Seg seg_a]) [] [] seg_a
              (SkipWellException "short"))
    as (t' & Hrun & _ & Hlv); try reflexivity.
  - intros s' [<- | []]. reflexivity.
  - exists t'. split; [exact Hrun | exact Hlv].
Defined.

End MoreRuns.
